(** * The hash-tree of [Byte::hash_tree] (src/hash_tree.h)

    A keyed map whose entries also form a multi-way tree.  Node records
    live in a slot store ([sparse_vector]); a bucket table of slot
    identifiers with per-node chain links gives keyed lookup; parent and
    children links give the tree.

    The member functions are functions on the state of the map, a record
    of the store's contents, the bucket table and the root identifier.
    Undefined behaviour of the C++ code (indexing the store with a slot
    that holds no record, [% 0], an iterator that is no longer valid, a
    loop that never ends) is the result [None].  Loops take fuel; the fuel
    they are given is enough for every run that ends, as noted at each.

    Not modelled, because they do not compile when instantiated:
    [set_parent(key, new_parent, _index)], which declares [_index] twice,
    and [contains], which calls [index] without argument. *)

From stdpp Require Import gmap list fin_maps numbers sorting.

Local Open Scope N_scope.

(** ** Slot identifiers *)

(** [size_t] is 64 bits wide. *)
Definition size_t_range : N := 18446744073709551616.

Definition wrap_size_t (n : N) : N := n mod size_t_range.

(** [std::numeric_limits<size_t>::max()] *)
Definition _EMPTY_INDEX : N := 18446744073709551615.

(** ** Node records *)

Record hash_tree_node (K T : Type) : Type := mk_node {
  pair : K * T;
  hash_value : N;
  childs : list N;
  parent_index : N;
  next_index : N
}.
Arguments mk_node {K T}.
Arguments pair {K T}.
Arguments hash_value {K T}.
Arguments childs {K T}.
Arguments parent_index {K T}.
Arguments next_index {K T}.

Definition with_childs {K T} (c : list N) (nd : hash_tree_node K T) :=
  mk_node (pair nd) (hash_value nd) c (parent_index nd) (next_index nd).

Definition with_parent_index {K T} (p : N) (nd : hash_tree_node K T) :=
  mk_node (pair nd) (hash_value nd) (childs nd) p (next_index nd).

Definition with_next_index {K T} (n : N) (nd : hash_tree_node K T) :=
  mk_node (pair nd) (hash_value nd) (childs nd) (parent_index nd) n.

(** ** The slot store

    [sparse_vector.h] is not part of the sources at hand.  The contents of
    the store are a finite map from slot identifiers to records; what the
    store is free to choose is taken as an interface. *)

(** Modelled from the spec: [sparse_vector], the slot store.  [emplace]
    "stores a new record, returns a stable identifier valid until that
    specific record is erased" and erase "may reclaim its identifier for
    future reuse": the identifier handed out is any slot that holds no
    record (never the sentinel, which is no index of an array).  Forward
    iteration yields "each live record" with "its current slot
    identifier", in an order that is the store's own. *)
Class SlotStore : Type := {
  emplace_slot : gset N → N;
  iteration_order : gset N → list N;
  emplace_slot_fresh : ∀ d, emplace_slot d ∉ d;
  emplace_slot_valid : ∀ d, emplace_slot d ≠ _EMPTY_INDEX;
  iteration_order_NoDup : ∀ d, NoDup (iteration_order d);
  iteration_order_elem : ∀ d i, i ∈ iteration_order d ↔ i ∈ d
}.

(** The iterator keeps a visitation sequence and a position counter. *)
Record hash_tree_iterator : Type := mk_iterator {
  _visit : list N;
  _index : N
}.

Section hash_tree.
Context {K T : Type}.
Context (hasher : K → N) (keyeq : K → K → bool).
Context `{!SlotStore}.

Abbreviation node := (hash_tree_node K T).
Abbreviation store := (gmap N (hash_tree_node K T)).

Record hash_tree : Type := mk_hash_tree {
  _nodes : store;
  _table : list N;
  _head_index : N
}.

(** [hash_tree() = default]: two empty buckets, no root. *)
Definition empty_tree : hash_tree :=
  mk_hash_tree ∅ [_EMPTY_INDEX; _EMPTY_INDEX] _EMPTY_INDEX.

(** The state with other contents of the store. *)
Definition with_nodes (σ : store) (s : hash_tree) : hash_tree :=
  mk_hash_tree σ (_table s) (_head_index s).

(** [_nodes.size()] *)
Global Instance hash_tree_size : Size hash_tree := λ s, size (_nodes s).

(** [_table.size()] *)
Definition table_size (s : hash_tree) : N := N.of_nat (length (_table s)).

(** [_hasher(key)], a [size_t]. *)
Definition hash_of (key : K) : N := wrap_size_t (hasher key).

(** [load_factor() > MAX_LOAD] with [MAX_LOAD = 0.9].  The quotient
    [size() / double(table_size())] is compared exactly: with both
    numbers below 2^50 the rounded quotient lies on the same side of the
    rounded constant as the exact one.  With no bucket the quotient is
    infinite for a positive size and NaN for size 0, and NaN compares
    false. *)
Definition load_factor_above_MAX (s : hash_tree) : bool :=
  if table_size s =? 0 then negb (N.of_nat (size s) =? 0)
  else 9 * table_size s <? 10 * N.of_nat (size s).

(** [load_factor() < MIN_LOAD] with [MIN_LOAD = 0.2]. *)
Definition load_factor_below_MIN (s : hash_tree) : bool :=
  if table_size s =? 0 then false
  else 5 * N.of_nat (size s) <? table_size s.

(** [it->hash_value == hash_value && _keyeq(it->pair.first, key)] *)
Definition key_matches (nd : node) (h : N) (key : K) : bool :=
  (hash_value nd =? h) && keyeq (fst (pair nd)) key.

(** The chain walk of [index], begun at slot [i]; one unit of fuel per
    record read. *)
Fixpoint index_walk (σ : store) (h : N) (key : K) (fuel : nat) (i : N)
    : option N :=
  match fuel with
  | O => None
  | S fuel' =>
      it ← σ !! i;
      if next_index it =? _EMPTY_INDEX then
        Some (if key_matches it h key then i else _EMPTY_INDEX)
      else if key_matches it h key then Some i
      else index_walk σ h key fuel' (next_index it)
  end.

(** [index(key)].  A walk that ends reads no record twice, so as many
    steps as there are records are enough; a walk that needs more has come
    back to a record it has read and never ends. *)
Definition index (s : hash_tree) (key : K) : option N :=
  let h := hash_of key in
  if table_size s =? 0 then None
  else
    i ← _table s !! N.to_nat (h mod table_size s);
    if i =? _EMPTY_INDEX then Some _EMPTY_INDEX
    else index_walk (_nodes s) h key (size (_nodes s)) i.

(** The loop of [insert_map] that finds the last record of a chain, with
    fuel as in [index]. *)
Fixpoint chain_tail (σ : store) (fuel : nat) (i : N) : option N :=
  match fuel with
  | O => None
  | S fuel' =>
      it ← σ !! i;
      if next_index it =? _EMPTY_INDEX then Some i
      else chain_tail σ fuel' (next_index it)
  end.

(** [insert_map(map_index, node_index)] *)
Definition insert_map (s : hash_tree) (map_index node_index : N)
    : option hash_tree :=
  i ← _table s !! N.to_nat map_index;
  if i =? _EMPTY_INDEX then
    Some (mk_hash_tree (_nodes s)
            (<[N.to_nat map_index := node_index]> (_table s))
            (_head_index s))
  else
    t ← chain_tail (_nodes s) (size (_nodes s)) i;
    it ← _nodes s !! t;
    Some (with_nodes (<[t := with_next_index node_index it]> (_nodes s)) s).

(** The second loop of [rehash]: every live record, in the store's
    order, goes into its bucket. *)
Fixpoint rehash_loop (s : hash_tree) (l : list N) : option hash_tree :=
  match l with
  | [] => Some s
  | i :: l' =>
      it ← _nodes s !! i;
      if table_size s =? 0 then None
      else
        s' ← insert_map s (hash_value it mod table_size s) i;
        rehash_loop s' l'
  end.

(** The first loop of [rehash]: [node.next_index = _EMPTY_INDEX]. *)
Definition unlinked (σ : store) : store :=
  with_next_index _EMPTY_INDEX <$> σ.

(** [rehash(new_size)] *)
Definition rehash (s : hash_tree) (new_size : N) : option hash_tree :=
  let σ := unlinked (_nodes s) in
  rehash_loop
    (mk_hash_tree σ (replicate (N.to_nat new_size) _EMPTY_INDEX)
       (_head_index s))
    (iteration_order (dom σ)).

(** The record [emplace] builds from the pair and the hash. *)
Definition fresh_node (key : K) (value : T) : node :=
  mk_node (key, value) (hash_of key) [] _EMPTY_INDEX _EMPTY_INDEX.

(** [_insert(key, value)]: the slot of the new record and the state. *)
Definition _insert (s : hash_tree) (key : K) (value : T)
    : option (N * hash_tree) :=
  s1 ← (if load_factor_above_MAX s
        then rehash s (wrap_size_t (table_size s * 2))
        else Some s);
  let h := hash_of key in
  let i := emplace_slot (dom (_nodes s1)) in
  let s2 :=
    with_nodes (<[i := fresh_node key value]> (_nodes s1)) s1 in
  if table_size s2 =? 0 then None
  else
    s3 ← insert_map s2 (h mod table_size s2) i;
    Some (i, s3).

(** [_nodes[i].childs.push_back(c)] *)
Definition push_child (σ : store) (i c : N) : option store :=
  it ← σ !! i;
  Some (<[i := with_childs (childs it ++ [c]) it]> σ).

(** [_nodes[i].parent_index = p] *)
Definition assign_parent (σ : store) (i p : N) : option store :=
  it ← σ !! i;
  Some (<[i := with_parent_index p it]> σ).

(** [insert(K&& key, T&& value)] *)
Definition insert (s : hash_tree) (key : K) (value : T)
    : option hash_tree :=
  '(i, s1) ← _insert s key value;
  if _head_index s1 =? _EMPTY_INDEX then
    Some (mk_hash_tree (_nodes s1) (_table s1) i)
  else
    σ1 ← push_child (_nodes s1) (_head_index s1) i;
    σ2 ← assign_parent σ1 i (_head_index s1);
    Some (with_nodes σ2 s1).

(** [insert(K&& key, T&& value, const K& parent)] *)
Definition insert_under (s : hash_tree) (key : K) (value : T) (parent : K)
    : option hash_tree :=
  '(i, s1) ← _insert s key value;
  p ← index s1 parent;
  σ1 ← push_child (_nodes s1) p i;
  σ2 ← assign_parent σ1 i p;
  Some (with_nodes σ2 s1).

(** [clear()] *)
Definition clear (s : hash_tree) : hash_tree :=
  mk_hash_tree ∅ [] _EMPTY_INDEX.

(** [std::remove] followed by [erase] on a child vector: every
    occurrence goes. *)
Definition without_child (c : N) (nd : node) : node :=
  with_childs (filter (λ x, x ≠ c) (childs nd)) nd.

(** [remove_child(child_index)] *)
Definition remove_child (σ : store) (child_index : N) : option store :=
  c ← σ !! child_index;
  p ← σ !! parent_index c;
  Some (<[parent_index c := without_child child_index p]> σ).

(** The cascade of [erase]: [visit] is the queue.  Every step removes a
    record, so as many steps as there are records are enough. *)
Fixpoint cascade (σ : store) (fuel : nat) (visit : list N)
    : option store :=
  match visit with
  | [] => Some σ
  | front :: rest =>
      match fuel with
      | O => None
      | S fuel' =>
          it ← σ !! front;
          cascade (delete front σ) fuel' (rest ++ childs it)
      end
  end.

(** Lines 203-218 of [erase]: the node leaves its parent's child vector,
    then the cascade removes it and everything below it. *)
Definition erase_subtree (σ : store) (i : N) : option store :=
  it ← σ !! i;
  σ1 ← (if negb (parent_index it =? _EMPTY_INDEX)
        then remove_child σ i
        else Some σ);
  cascade σ1 (size σ1) [i].

(** [erase(key)] *)
Definition erase (s : hash_tree) (key : K) : option hash_tree :=
  i ← index s key;
  if i =? _head_index s then Some (clear s)
  else
    σ2 ← erase_subtree (_nodes s) i;
    let s2 := with_nodes σ2 s in
    if load_factor_below_MIN s2
    then rehash s2 (table_size s2 / 2)
    else Some s2.

(** [childs.insert(_where, c)] *)
Definition attach_child (_where : nat) (c : N) (nd : node) : node :=
  with_childs (take _where (childs nd) ++ c :: drop _where (childs nd)) nd.

(** [_set_parent(_index, parent_index, _where)].  [_where] is an iterator
    into the child vector of the new parent (the source declares it as
    [node_container::iterator] and uses it as an iterator of the child
    vector), taken before the call: an offset from the start of that
    vector.  When [remove_child] has shortened that same vector the
    iterator is no longer valid: inserting at an offset beyond the end is
    undefined. *)
Definition _set_parent (s : hash_tree) (i parent : N) (_where : nat)
    : option hash_tree :=
  it ← _nodes s !! i;
  σ1 ← (if negb (parent_index it =? _EMPTY_INDEX)
        then remove_child (_nodes s) i
        else Some (_nodes s));
  p ← σ1 !! parent;
  if bool_decide (_where ≤ length (childs p))%nat then
    let σ2 := <[parent := attach_child _where i p]> σ1 in
    σ3 ← assign_parent σ2 i parent;
    Some (with_nodes σ3 s)
  else None.

(** [set_parent(key, new_parent)], with [_where = childs.end()]. *)
Definition set_parent (s : hash_tree) (key new_parent : K)
    : option hash_tree :=
  i ← index s key;
  parent ← index s new_parent;
  p ← _nodes s !! parent;
  _set_parent s i parent (length (childs p)).

(** The containment the specification asks for: the lookup of the key
    succeeds, [index(key) != _EMPTY_INDEX]. *)
Definition lookup_succeeds (s : hash_tree) (key : K) : bool :=
  match index s key with
  | Some i => negb (i =? _EMPTY_INDEX)
  | None => false
  end.

(** [at(key)] *)
Definition at_key (s : hash_tree) (key : K) : option T :=
  i ← index s key;
  it ← _nodes s !! i;
  Some (snd (pair it)).

(** [operator[](key)], not const: the value that the returned reference
    names, and the state.  [dflt] is [T{}], the value the record is given
    when the key resolves to no record. *)
Definition subscript (s : hash_tree) (key : K) (dflt : T)
    : option (T * hash_tree) :=
  i ← index s key;
  if i =? _EMPTY_INDEX then
    s' ← insert s key dflt;
    i' ← index s' key;
    it ← _nodes s' !! i';
    Some (snd (pair it), s')
  else
    it ← _nodes s !! i;
    Some (snd (pair it), s).

(** ** The traversal iterator

    The iterator holds [_nodes.data()] and indexes it with slot
    identifiers; here it is given the store's contents. *)

(** [begin()] and [end()] *)
Definition begin (s : hash_tree) : hash_tree_iterator :=
  mk_iterator [_head_index s] 0.

Definition end_ (s : hash_tree) : hash_tree_iterator :=
  mk_iterator [_EMPTY_INDEX] (N.of_nat (size s)).

(** [_visit[_index]] *)
Definition current (it : hash_tree_iterator) : option N :=
  _visit it !! N.to_nat (_index it).

(** [operator*] *)
Definition deref (σ : store) (it : hash_tree_iterator) : option T :=
  i ← current it;
  nd ← σ !! i;
  Some (snd (pair nd)).

(** [operator++] *)
Definition incr (σ : store) (it : hash_tree_iterator)
    : option hash_tree_iterator :=
  i ← current it;
  nd ← σ !! i;
  Some (mk_iterator (_visit it ++ childs nd) (wrap_size_t (_index it + 1))).

(** [operator!=] *)
Definition iter_neq (a b : hash_tree_iterator) : bool :=
  negb (_index a =? _index b).

(** The loop [for (it = begin(); it != end(); ++it)] that dereferences
    [it] in its body: the slot and the value seen at each step.  The
    position grows by one a step, so from [begin()] the loop meets
    [end()] after [size()] steps. *)
Fixpoint traverse_loop (σ : store) (last : hash_tree_iterator)
    (fuel : nat) (it : hash_tree_iterator) : option (list (N * T)) :=
  if iter_neq it last then
    match fuel with
    | O => None
    | S fuel' =>
        i ← current it;
        v ← deref σ it;
        it' ← incr σ it;
        rest ← traverse_loop σ last fuel' it';
        Some ((i, v) :: rest)
    end
  else Some [].

(** The loop over the whole map. *)
Definition traverse (s : hash_tree) : option (list (N * T)) :=
  traverse_loop (_nodes s) (end_ s) (size s) (begin s).

(** ** Sequences of operations *)

Inductive operation : Type :=
| Insert (key : K) (value : T)
| InsertUnder (key : K) (value : T) (parent : K)
| Erase (key : K)
| SetParent (key new_parent : K).

Definition apply_operation (s : hash_tree) (o : operation)
    : option hash_tree :=
  match o with
  | Insert key value => insert s key value
  | InsertUnder key value parent => insert_under s key value parent
  | Erase key => erase s key
  | SetParent key new_parent => set_parent s key new_parent
  end.

Fixpoint run (s : hash_tree) (ops : list operation) : option hash_tree :=
  match ops with
  | [] => Some s
  | o :: ops' => s' ← apply_operation s o; run s' ops'
  end.

(** ** Properties of states *)

(** [b] is in the child vector of the record at [a]. *)
Definition child_of (σ : store) (a b : N) : Prop :=
  ∃ nd, σ !! a = Some nd ∧ b ∈ childs nd.

(** [j] is [i] or below it. *)
Definition reach (σ : store) : relation N := rtc (child_of σ).

(** The single-root property: at most one record has no parent, it is the
    one the root identifier names, and the root identifier is the sentinel
    exactly when there is no record. *)
Definition single_root (s : hash_tree) : Prop :=
  (∀ i j ni nj, _nodes s !! i = Some ni → _nodes s !! j = Some nj →
     parent_index ni = _EMPTY_INDEX → parent_index nj = _EMPTY_INDEX →
     i = j) ∧
  (∀ i ni, _nodes s !! i = Some ni → parent_index ni = _EMPTY_INDEX →
     i = _head_index s) ∧
  (_nodes s = ∅ ↔ _head_index s = _EMPTY_INDEX).

(** The links of the tree agree with each other. *)
Record tree_wf (s : hash_tree) : Prop := mk_tree_wf {
  wf_sentinel : _nodes s !! _EMPTY_INDEX = None;
  wf_no_root : _head_index s = _EMPTY_INDEX → _nodes s = ∅;
  wf_root : _head_index s ≠ _EMPTY_INDEX →
    is_Some (_nodes s !! _head_index s);
  wf_parentless : ∀ i nd, _nodes s !! i = Some nd →
    parent_index nd = _EMPTY_INDEX ↔ i = _head_index s;
  wf_child : ∀ i nd c, _nodes s !! i = Some nd → c ∈ childs nd →
    ∃ cn, _nodes s !! c = Some cn ∧ parent_index cn = i;
  wf_parent : ∀ i nd, _nodes s !! i = Some nd →
    parent_index nd ≠ _EMPTY_INDEX →
    ∃ pn, _nodes s !! parent_index nd = Some pn ∧ i ∈ childs pn;
  wf_childs_NoDup : ∀ i nd, _nodes s !! i = Some nd → NoDup (childs nd)
}.

(** The links that make the cascade meet every record once: child vectors
    without repetition, whose entries are records that name the holder as
    their parent. *)
Definition links_ok (σ : store) : Prop :=
  ∀ a nd, σ !! a = Some nd →
    NoDup (childs nd) ∧
    ∀ c, c ∈ childs nd → ∃ cn, σ !! c = Some cn ∧ parent_index cn = a.

(** The state between the two halves of a relinking: the record at [i]
    is in no child vector, and all other links agree with each other. *)
Record detached (σ : store) (head i : N) : Prop := mk_detached {
  det_sentinel : σ !! _EMPTY_INDEX = None;
  det_root : head ≠ _EMPTY_INDEX ∧ is_Some (σ !! head);
  det_live : is_Some (σ !! i) ∧ i ≠ head;
  det_links : links_ok σ;
  det_unlisted : ∀ a, ¬ child_of σ a i;
  det_parentless : ∀ j nd, σ !! j = Some nd → j ≠ i →
    parent_index nd = _EMPTY_INDEX ↔ j = head;
  det_parent : ∀ j nd, σ !! j = Some nd → j ≠ i →
    parent_index nd ≠ _EMPTY_INDEX →
    ∃ pn, σ !! parent_index nd = Some pn ∧ j ∈ childs pn
}.

(** The child vector of the record at [j]; none for a slot without
    record. *)
Definition childs_of (σ : store) (j : N) : list N :=
  default [] (childs <$> σ !! j).

(** What the traversal keeps true at position [a]: the visitation
    sequence is the root followed by the child vectors of the records
    passed so far, it names records only, and none twice. *)
Definition bfs_inv (σ : store) (head : N) (visit : list N) (a : nat)
    : Prop :=
  visit = head :: (take a visit ≫= childs_of σ) ∧
  NoDup visit ∧
  (∀ x, x ∈ visit → is_Some (σ !! x)).

(** Linking changes child vectors and parent links only. *)
Definition same_chain_data (σ σ' : store) : Prop :=
  ∀ j it, σ !! j = Some it →
    ∃ it', σ' !! j = Some it' ∧ next_index it' = next_index it ∧
           pair it' = pair it ∧ hash_value it' = hash_value it.

(** Every record is the root or below it. *)
Definition connected (s : hash_tree) : Prop :=
  ∀ j, is_Some (_nodes s !! j) → reach (_nodes s) (_head_index s) j.

(** The records of a bucket chain from slot [i] on, up to the sentinel. *)
Inductive chain (σ : store) : N → list N → Prop :=
| chain_end : chain σ _EMPTY_INDEX []
| chain_step i it l :
    i ≠ _EMPTY_INDEX → σ !! i = Some it → chain σ (next_index it) l →
    chain σ i (i :: l).

(** Every bucket heads a chain of records that ends. *)
Definition chains_ok (s : hash_tree) : Prop :=
  ∀ b i, _table s !! b = Some i → ∃ l, chain (_nodes s) i l.

(** [x] is on the chain of some bucket. *)
Definition in_chains (s : hash_tree) (x : N) : Prop :=
  ∃ b i l, _table s !! b = Some i ∧ chain (_nodes s) i l ∧ x ∈ l.

(** The record at [x] is on the chain of the bucket of its hash. *)
Definition in_bucket (s : hash_tree) (x : N) : Prop :=
  ∃ nx i0 l,
    _nodes s !! x = Some nx ∧
    _table s !! N.to_nat (hash_value nx mod table_size s) = Some i0 ∧
    chain (_nodes s) i0 l ∧ x ∈ l.

Definition wf (s : hash_tree) : Prop :=
  tree_wf s ∧ chains_ok s ∧ table_size s ≠ 0.

(** Every record is on the chain of the bucket of its hash. *)
Definition indexed (s : hash_tree) : Prop :=
  ∀ x, is_Some (_nodes s !! x) → in_bucket s x.

(** Some record has the hash and the key that [index] compares with. *)
Definition stored (s : hash_tree) (key : K) : Prop :=
  ∃ x nx, _nodes s !! x = Some nx ∧
          key_matches nx (hash_of key) key = true.

(** Restrictions on a sequence of operations: [set_parent] is not given
    the key of the root as its target, and [insert] with a parent key is
    not applied to a map without root. *)
Definition permitted_operation (s : hash_tree) (o : operation) : Prop :=
  match o with
  | SetParent key _ => index s key ≠ Some (_head_index s)
  | InsertUnder _ _ _ => _head_index s ≠ _EMPTY_INDEX
  | _ => True
  end.

(** Operations other than [set_parent] that do not insert a record
    below its own key. *)
Definition plain_operation (o : operation) : Prop :=
  match o with
  | SetParent _ _ => False
  | InsertUnder key _ parent => keyeq key parent = false
  | _ => True
  end.

(** The two inserts. *)
Definition insert_operation (o : operation) : Prop :=
  match o with
  | Insert _ _ | InsertUnder _ _ _ => True
  | _ => False
  end.

Fixpoint permitted (s : hash_tree) (ops : list operation) : Prop :=
  match ops with
  | [] => True
  | o :: ops' =>
      permitted_operation s o ∧
      ∀ s', apply_operation s o = Some s' → permitted s' ops'
  end.

(** [MIN_LOAD <= load_factor()] and [load_factor() <= MAX_LOAD], for a
    table with buckets. *)
Definition load_factor_at_least_MIN (s : hash_tree) : Prop :=
  table_size s ≤ 5 * N.of_nat (size s).

Definition load_factor_at_most_MAX (s : hash_tree) : Prop :=
  10 * N.of_nat (size s) ≤ 9 * table_size s.

(** * Facts about the model *)

Implicit Types (σ : store) (s : hash_tree) (nd it : node).
Implicit Types (i j : N) (l : list N).

(** ** Records that differ in the chain link only *)

Lemma lookup_unlinked σ i :
  unlinked σ !! i = with_next_index _EMPTY_INDEX <$> σ !! i.
Proof. apply lookup_fmap. Qed.

Lemma unlinked_idemp σ : unlinked (unlinked σ) = unlinked σ.
Proof.
  unfold unlinked. rewrite <- map_fmap_compose.
  apply map_fmap_ext. by intros ? [] ?.
Qed.

Lemma unlinked_insert σ i nd :
  unlinked (<[i := nd]> σ) = <[i := with_next_index _EMPTY_INDEX nd]> (unlinked σ).
Proof. apply fmap_insert. Qed.

Lemma unlinked_relink σ i nd n :
  σ !! i = Some nd →
  unlinked (<[i := with_next_index n nd]> σ) = unlinked σ.
Proof.
  intros Hi. rewrite unlinked_insert. apply insert_id.
  rewrite lookup_unlinked, Hi. by destruct nd.
Qed.

Lemma dom_unlinked σ : dom (unlinked σ) = dom σ.
Proof. apply dom_fmap_L. Qed.

Lemma size_unlinked σ : size (unlinked σ) = size σ.
Proof. apply map_size_fmap. Qed.

Lemma unlinked_lookup_eq σ σ' i nd' :
  unlinked σ = unlinked σ' → σ' !! i = Some nd' →
  ∃ nd, σ !! i = Some nd ∧ pair nd = pair nd' ∧
        hash_value nd = hash_value nd' ∧ childs nd = childs nd' ∧
        parent_index nd = parent_index nd'.
Proof.
  intros Heq Hi.
  assert (Hl : unlinked σ !! i = unlinked σ' !! i) by by rewrite Heq.
  rewrite !lookup_unlinked, Hi in Hl.
  destruct (σ !! i) as [nd|]; [|done].
  exists nd. destruct nd, nd'; simplify_eq/=. done.
Qed.

Lemma unlinked_lookup_None σ σ' i :
  unlinked σ = unlinked σ' → σ !! i = None → σ' !! i = None.
Proof.
  intros Heq Hi.
  assert (Hl : unlinked σ !! i = unlinked σ' !! i) by by rewrite Heq.
  rewrite !lookup_unlinked, Hi in Hl.
  by destruct (σ' !! i).
Qed.

Lemma unlinked_size_eq σ σ' : unlinked σ = unlinked σ' → size σ = size σ'.
Proof. intros Heq. by rewrite <- (size_unlinked σ), Heq, size_unlinked. Qed.

Lemma unlinked_empty_inv σ : unlinked σ = ∅ → σ = ∅.
Proof. apply fmap_empty_inv. Qed.

Lemma tree_wf_unlinked s s' :
  unlinked (_nodes s) = unlinked (_nodes s') →
  _head_index s = _head_index s' →
  tree_wf s → tree_wf s'.
Proof.
  intros Heq Hhd [W0 W1e W1 W2 W3 W4 W5].
  assert (Hsym : unlinked (_nodes s') = unlinked (_nodes s)) by done.
  split.
  - by apply (unlinked_lookup_None _ _ _ Heq).
  - rewrite <- Hhd. intros He. apply unlinked_empty_inv.
    rewrite <- Heq, (W1e He). apply fmap_empty.
  - rewrite <- Hhd. intros Hne. destruct (W1 Hne) as [nd Hnd].
    destruct (unlinked_lookup_eq _ _ _ _ Hsym Hnd) as (nd' & ? & _). eauto.
  - intros i nd' Hi.
    destruct (unlinked_lookup_eq _ _ _ _ Heq Hi) as (nd & Hnd & _ & _ & _ & Hp).
    rewrite <- Hp, <- Hhd. by apply W2.
  - intros i nd' c Hi Hc.
    destruct (unlinked_lookup_eq _ _ _ _ Heq Hi) as (nd & Hnd & _ & _ & Hch & _).
    rewrite <- Hch in Hc. destruct (W3 _ _ _ Hnd Hc) as (cn & Hcn & Hpc).
    destruct (unlinked_lookup_eq _ _ _ _ Hsym Hcn) as (cn' & ? & _ & _ & _ & Hp').
    exists cn'. split; [done|congruence].
  - intros i nd' Hi Hp.
    destruct (unlinked_lookup_eq _ _ _ _ Heq Hi) as (nd & Hnd & _ & _ & _ & Hpe).
    rewrite <- Hpe in Hp |- *. destruct (W4 _ _ Hnd Hp) as (pn & Hpn & Hin).
    destruct (unlinked_lookup_eq _ _ _ _ Hsym Hpn) as (pn' & ? & _ & _ & Hch & _).
    exists pn'. split; [done|congruence].
  - intros i nd' Hi.
    destruct (unlinked_lookup_eq _ _ _ _ Heq Hi) as (nd & Hnd & _ & _ & Hch & _).
    rewrite <- Hch. by eapply W5.
Qed.

(** ** Bucket chains *)

Lemma chain_sentinel σ l : chain σ _EMPTY_INDEX l → l = [].
Proof. by inversion 1. Qed.

Lemma chain_functional σ i l l' : chain σ i l → chain σ i l' → l = l'.
Proof.
  intros Hc; revert l'. induction Hc as [|i it l Hi Hit Hc IH]; intros l' Hc'.
  - by apply chain_sentinel in Hc'.
  - inversion Hc' as [|? it' l'' ? Hit' Hc'']; simplify_eq. f_equal. by apply IH.
Qed.

Lemma chain_live σ i l j :
  chain σ i l → j ∈ l → j ≠ _EMPTY_INDEX ∧ is_Some (σ !! j).
Proof.
  induction 1 as [|i it l Hi Hit Hc IH]; [by intros ?%elem_of_nil|].
  intros [->|?]%elem_of_cons; eauto.
Qed.

Lemma chain_suffix σ i l j :
  chain σ i l → j ∈ l → ∃ l1 l2, l = l1 ++ j :: l2 ∧ chain σ j (j :: l2).
Proof.
  induction 1 as [|i it l Hi Hit Hc IH]; [by intros ?%elem_of_nil|].
  intros [->|Hj]%elem_of_cons.
  - exists [], l. split; [done|]. by econstructor.
  - destruct (IH Hj) as (l1 & l2 & -> & ?). by exists (i :: l1), l2.
Qed.

Lemma chain_NoDup σ i l : chain σ i l → NoDup l.
Proof.
  induction 1 as [|i it l Hi Hit Hc IH]; constructor; [|done].
  intros Hin.
  destruct (chain_suffix _ _ _ _ Hc Hin) as (l1 & l2 & -> & Hc2).
  assert (Heq : i :: l1 ++ i :: l2 = i :: l2).
  { eapply chain_functional; [|exact Hc2]. by econstructor. }
  apply (f_equal length) in Heq. simpl in Heq. rewrite length_app in Heq. simpl in Heq. lia.
Qed.

Lemma NoDup_live_length σ l :
  NoDup l → (∀ j, j ∈ l → is_Some (σ !! j)) → (length l ≤ size σ)%nat.
Proof.
  intros Hnd Hl. rewrite <- size_dom, <- (size_list_to_set (C := gset N) l Hnd).
  apply subseteq_size. intros j Hj%elem_of_list_to_set.
  by apply elem_of_dom, Hl.
Qed.

Lemma chain_length σ i l : chain σ i l → (length l ≤ size σ)%nat.
Proof.
  intros Hc. apply NoDup_live_length; [by eapply chain_NoDup|].
  intros j Hj. by eapply chain_live.
Qed.

Lemma chain_tail_spec σ i l fuel :
  chain σ i l → i ≠ _EMPTY_INDEX → (length l ≤ fuel)%nat →
  ∃ t it, chain_tail σ fuel i = Some t ∧ t ∈ l ∧
          σ !! t = Some it ∧ next_index it = _EMPTY_INDEX.
Proof.
  intros Hc; revert fuel.
  induction Hc as [|i it l Hi Hit Hc IH]; intros fuel Hne Hlen; [done|].
  destruct fuel as [|fuel]; simpl in *; [lia|].
  rewrite Hit. simpl. destruct (N.eqb_spec (next_index it) _EMPTY_INDEX) as [He|He].
  - exists i, it. split_and!; [done|set_solver|done|done].
  - destruct (IH fuel He ltac:(lia)) as (t & it' & ? & ? & ? & ?).
    exists t, it'. split_and!; [done|set_solver|done|done].
Qed.

Lemma chain_insert_fresh σ i l j nd :
  chain σ i l → σ !! j = None → chain (<[j := nd]> σ) i l.
Proof.
  intros Hc Hj. induction Hc as [|i it l Hi Hit Hc IH]; [constructor|].
  econstructor; [done| |done].
  rewrite lookup_insert_ne; [done|congruence].
Qed.

(** Linking a record behind the last record of the chains that end in
    [t] leaves every chain a chain. *)
Lemma chain_relink σ i l t it j nj :
  chain σ i l → σ !! t = Some it → next_index it = _EMPTY_INDEX →
  σ !! j = Some nj → next_index nj = _EMPTY_INDEX →
  j ≠ _EMPTY_INDEX → j ≠ t →
  chain (<[t := with_next_index j it]> σ) i
    (if decide (t ∈ l) then l ++ [j] else l).
Proof.
  intros Hc Ht Hnt Hj Hnj HjE Hjt.
  induction Hc as [|i iti l Hi Hiti Hc IH].
  - rewrite decide_False; [constructor|set_solver].
  - destruct (decide (i = t)) as [->|Hne].
    + simplify_eq. rewrite Hnt in Hc. apply chain_sentinel in Hc as ->.
      rewrite decide_True; [|set_solver]. simpl.
      econstructor; [done|by rewrite lookup_insert_eq|]. simpl.
      econstructor; [done|by rewrite lookup_insert_ne|].
      rewrite Hnj. constructor.
    + destruct (decide (t ∈ l)) as [Hin|Hnin].
      * rewrite decide_True; [|set_solver]. simpl.
        econstructor; [done|by rewrite lookup_insert_ne|done].
      * rewrite decide_False; [|set_solver].
        econstructor; [done|by rewrite lookup_insert_ne|done].
Qed.

(** ** [insert_map] and [rehash] *)

Lemma insert_map_inv s b j s' :
  insert_map s b j = Some s' →
  unlinked (_nodes s') = unlinked (_nodes s) ∧
  _head_index s' = _head_index s ∧
  length (_table s') = length (_table s).
Proof.
  unfold insert_map. intros Hm.
  destruct (_table s !! N.to_nat b) as [i0|]; [|done]. simpl in Hm.
  destruct (i0 =? _EMPTY_INDEX).
  - simplify_eq. simpl. by rewrite length_insert.
  - destruct (chain_tail _ _ _) as [t|]; [|done]. simpl in Hm.
    destruct (_nodes s !! t) as [it|] eqn:Ht; [|done]. simpl in Hm.
    simplify_eq. simpl.
    by rewrite (unlinked_relink _ _ _ _ Ht).
Qed.

Lemma rehash_loop_inv todo s s' :
  rehash_loop s todo = Some s' →
  unlinked (_nodes s') = unlinked (_nodes s) ∧
  _head_index s' = _head_index s ∧
  length (_table s') = length (_table s).
Proof.
  revert s. induction todo as [|j todo IH]; intros s Hr; simpl in Hr.
  - by simplify_eq.
  - destruct (_nodes s !! j) as [nj|]; [|done]. simpl in Hr.
    destruct (table_size s =? 0); [done|].
    destruct (insert_map s _ j) as [s1|] eqn:Hm; [|done]. simpl in Hr.
    apply insert_map_inv in Hm as (E1 & E2 & E3).
    apply IH in Hr as (-> & -> & ->). done.
Qed.

Lemma rehash_inv s n s' :
  rehash s n = Some s' →
  unlinked (_nodes s') = unlinked (_nodes s) ∧
  _head_index s' = _head_index s ∧
  table_size s' = n.
Proof.
  unfold rehash. intros (-> & -> & Hl)%rehash_loop_inv. simpl in *.
  split_and!; [apply unlinked_idemp|done|].
  unfold table_size. rewrite Hl, length_replicate. lia.
Qed.

Lemma insert_map_spec s b i0 j nj :
  chains_ok s →
  _table s !! N.to_nat b = Some i0 →
  _nodes s !! j = Some nj → next_index nj = _EMPTY_INDEX →
  j ≠ _EMPTY_INDEX →
  (∀ l, chain (_nodes s) i0 l → j ∉ l) →
  ∃ s', insert_map s b j = Some s' ∧ chains_ok s' ∧
        (∀ x, in_chains s' x → x = j ∨ in_chains s x) ∧
        (∀ x, ¬ in_chains s x → _nodes s' !! x = _nodes s !! x).
Proof.
  intros Hok Hb Hj Hnj HjE Hfresh. unfold insert_map. rewrite Hb. simpl.
  destruct (N.eqb_spec i0 _EMPTY_INDEX) as [->|Hi0].
  - eexists. split; [done|]. split_and!; simpl.
    + intros b' i Hb'. simpl in *.
      destruct (decide (b' = N.to_nat b)) as [->|Hne].
      * rewrite list_lookup_insert_eq in Hb' by by eapply lookup_lt_Some.
        assert (i = j) as -> by congruence. exists [j]. econstructor; [done..|]. rewrite Hnj. constructor.
      * rewrite list_lookup_insert_ne in Hb' by done. by eapply Hok.
    + intros x (b' & i & l & Hb' & Hc & Hx). simpl in *.
      destruct (decide (b' = N.to_nat b)) as [->|Hne].
      * rewrite list_lookup_insert_eq in Hb' by by eapply lookup_lt_Some.
        assert (i = j) as -> by congruence. left.
        assert (l = [j]) as ->; [|set_solver].
        eapply chain_functional; [done|].
        econstructor; [done..|]. rewrite Hnj. constructor.
      * rewrite list_lookup_insert_ne in Hb' by done.
        right. by exists b', i, l.
    + done.
  - destruct (Hok _ _ Hb) as [l Hl].
    destruct (chain_tail_spec _ _ _ (size (_nodes s)) Hl Hi0)
      as (t & it & -> & Htl & Ht & Hnt); [by eapply chain_length|].
    simpl. rewrite Ht. simpl.
    assert (Hjt : j ≠ t) by (intros ->; by eapply Hfresh).
    eexists. split; [done|]. split_and!; simpl.
    + intros b' i Hb'. simpl in *. destruct (Hok _ _ Hb') as [l' Hl'].
      eexists. by eapply chain_relink.
    + intros x (b' & i & l'' & Hb' & Hc & Hx). simpl in *.
      destruct (Hok _ _ Hb') as [l' Hl'].
      pose proof (chain_relink _ _ _ _ _ _ _ Hl' Ht Hnt Hj Hnj HjE Hjt) as Hc'.
      rewrite (chain_functional _ _ _ _ Hc Hc') in Hx.
      destruct (decide (t ∈ l')).
      * apply elem_of_app in Hx as [Hx|Hx]; [|set_solver].
        right. by exists b', i, l'.
      * right. by exists b', i, l'.
    + intros x Hx. apply lookup_insert_ne. intros <-.
      apply Hx. by exists (N.to_nat b), i0, l.
Qed.

Lemma rehash_loop_spec todo s :
  chains_ok s → table_size s ≠ 0 → NoDup todo →
  (∀ j, j ∈ todo → j ≠ _EMPTY_INDEX ∧ ¬ in_chains s j ∧
     ∃ nj, _nodes s !! j = Some nj ∧ next_index nj = _EMPTY_INDEX) →
  ∃ s', rehash_loop s todo = Some s' ∧ chains_ok s'.
Proof.
  revert s. induction todo as [|j todo IH]; intros s Hok Hts Hnd Htodo.
  { by exists s. }
  apply NoDup_cons in Hnd as [Hj Hnd].
  destruct (Htodo j) as (HjE & Hnc & nj & Hnj & Hnx); [set_solver|].
  simpl. rewrite Hnj. simpl.
  destruct (N.eqb_spec (table_size s) 0) as [|_]; [done|].
  set (b := hash_value nj mod table_size s).
  assert (Hlt : (N.to_nat b < length (_table s))%nat).
  { pose proof (N.mod_lt (hash_value nj) (table_size s) Hts) as Hlt.
    unfold b, table_size in *. lia. }
  destruct (lookup_lt_is_Some_2 _ _ Hlt) as [i0 Hi0].
  destruct (insert_map_spec s b i0 j nj) as (s1 & Hm & Hok1 & Hin1 & Hsame);
    [done..| |].
  { intros l Hl Hjl. apply Hnc. by exists (N.to_nat b), i0, l. }
  rewrite Hm. simpl.
  pose proof (insert_map_inv _ _ _ _ Hm) as (_ & _ & Hlen).
  apply IH; [done| |done|].
  { unfold table_size in *. by rewrite Hlen. }
  intros j' Hj'. destruct (Htodo j') as (? & Hnc' & nj' & ? & ?); [set_solver|].
  split_and!; [done| |].
  - intros [->|?]%Hin1; [done|]. by apply Hnc'.
  - exists nj'. by rewrite Hsame.
Qed.

Lemma rehash_spec s n :
  _nodes s !! _EMPTY_INDEX = None →
  n ≠ 0 ∨ _nodes s = ∅ →
  ∃ s', rehash s n = Some s' ∧ chains_ok s'.
Proof.
  intros HE Hn. unfold rehash.
  assert (Hok0 : chains_ok
    (mk_hash_tree (unlinked (_nodes s))
       (replicate (N.to_nat n) _EMPTY_INDEX) (_head_index s))).
  { intros b i [-> _]%lookup_replicate. exists []. constructor. }
  destruct (decide (n = 0)) as [->|Hn0].
  - destruct Hn as [|Hempty]; [done|].
    assert (iteration_order (dom (unlinked (_nodes s))) = []) as ->.
    { apply elem_of_nil_inv. intros j Hj%iteration_order_elem.
      rewrite Hempty in Hj. unfold unlinked in Hj.
      rewrite fmap_empty, dom_empty_L in Hj. set_solver. }
    simpl. eauto.
  - apply rehash_loop_spec; [done| |apply iteration_order_NoDup|].
    { unfold table_size. simpl. rewrite length_replicate. lia. }
    intros j Hj%iteration_order_elem%elem_of_dom. simpl.
    rewrite lookup_unlinked in Hj |- *.
    destruct (_nodes s !! j) as [nj|] eqn:Hnj; [|by destruct Hj].
    split_and!.
    + congruence.
    + intros (b & i & l & [-> _]%lookup_replicate & Hc & Hx). simpl in *.
      apply chain_sentinel in Hc as ->. set_solver.
    + by eexists.
Qed.



(** ** The chain walk of [index] *)

Lemma index_walk_found σ h key fuel i r :
  index_walk σ h key fuel i = Some r → r ≠ _EMPTY_INDEX →
  ∃ nd, σ !! r = Some nd ∧ key_matches nd h key = true.
Proof.
  revert i. induction fuel as [|fuel IH]; intros i Hw Hr; [done|].
  simpl in Hw. destruct (σ !! i) as [it|] eqn:Hi; [|done]. simpl in Hw.
  destruct (next_index it =? _EMPTY_INDEX).
  - destruct (key_matches it h key) eqn:Hk; simplify_eq. eauto.
  - destruct (key_matches it h key) eqn:Hk; simplify_eq; eauto.
Qed.

(** A walk that finds a record finds the same one after records were
    linked behind the last record of a chain. *)
Lemma index_walk_stable σ σ' h key fuel fuel' i r :
  (∀ i it, σ !! i = Some it →
     ∃ it', σ' !! i = Some it' ∧ pair it' = pair it ∧
            hash_value it' = hash_value it ∧
            (next_index it' = next_index it ∨
             next_index it = _EMPTY_INDEX)) →
  index_walk σ h key fuel i = Some r → r ≠ _EMPTY_INDEX →
  (fuel ≤ fuel')%nat →
  index_walk σ' h key fuel' i = Some r.
Proof.
  intros Hext. revert fuel' i.
  induction fuel as [|fuel IH]; intros fuel' i Hw Hr Hle; [done|].
  destruct fuel' as [|fuel']; [lia|]. simpl in *.
  destruct (σ !! i) as [it|] eqn:Hi; [|done]. simpl in Hw.
  destruct (Hext _ _ Hi) as (it' & -> & Hp & Hh & Hn). simpl.
  assert (Hk : key_matches it' h key = key_matches it h key).
  { unfold key_matches. by rewrite Hp, Hh. }
  rewrite Hk.
  destruct (N.eqb_spec (next_index it) _EMPTY_INDEX) as [HE|HE].
  - destruct (key_matches it h key); simplify_eq.
    by destruct (next_index it' =? _EMPTY_INDEX).
  - destruct Hn as [->|]; [|done].
    destruct (N.eqb_spec (next_index it) _EMPTY_INDEX); [done|].
    destruct (key_matches it h key); [done|].
    apply IH; [done..|lia].
Qed.

Lemma chain_tail_inv σ fuel i t :
  chain_tail σ fuel i = Some t →
  ∃ it, σ !! t = Some it ∧ next_index it = _EMPTY_INDEX.
Proof.
  revert i. induction fuel as [|fuel IH]; intros i Hc; [done|].
  simpl in Hc. destruct (σ !! i) as [it|] eqn:Hi; [|done]. simpl in Hc.
  destruct (N.eqb_spec (next_index it) _EMPTY_INDEX); simplify_eq; eauto.
Qed.

(** What [insert_map] leaves as it was: the buckets that were in use, and
    every record but for the link of one that ended a chain. *)
Lemma insert_map_extends s b j s' :
  insert_map s b j = Some s' →
  (∀ b' x, _table s !! b' = Some x → x ≠ _EMPTY_INDEX →
     _table s' !! b' = Some x) ∧
  (∀ i it, _nodes s !! i = Some it →
     ∃ it', _nodes s' !! i = Some it' ∧ pair it' = pair it ∧
            hash_value it' = hash_value it ∧
            (next_index it' = next_index it ∨
             next_index it = _EMPTY_INDEX)).
Proof.
  unfold insert_map. intros Hm.
  destruct (_table s !! N.to_nat b) as [i0|] eqn:Hb; [|done]. simpl in Hm.
  destruct (N.eqb_spec i0 _EMPTY_INDEX) as [->|Hi0].
  - simplify_eq. simpl. split; [|by eauto 10].
    intros b' x Hb' Hx. rewrite list_lookup_insert_ne; [done|].
    intros <-. congruence.
  - destruct (chain_tail _ _ _) as [t|] eqn:Ht; [|done]. simpl in Hm.
    destruct (chain_tail_inv _ _ _ _ Ht) as (it & Hit & Hnx).
    rewrite Hit in Hm. simpl in Hm. simplify_eq. simpl. split; [done|].
    intros i iti Hi. destruct (decide (i = t)) as [->|Hne].
    + rewrite lookup_insert_eq. simplify_eq. eexists. split; [done|].
      simpl. auto.
    + rewrite lookup_insert_ne by done. eauto 10.
Qed.

(** ** [_insert] *)

Lemma _insert_inv s key value i s1 :
  _insert s key value = Some (i, s1) →
  _nodes s !! i = None ∧ i ≠ _EMPTY_INDEX ∧
  _head_index s1 = _head_index s ∧
  unlinked (_nodes s1) =
    unlinked (<[i := fresh_node key value]> (_nodes s)) ∧
  table_size s1 =
    (if load_factor_above_MAX s then wrap_size_t (table_size s * 2)
     else table_size s).
Proof.
  unfold _insert. intros Hi.
  destruct (if load_factor_above_MAX s then _ else _) as [s0|] eqn:Hs0;
    [|done]. simpl in Hi.
  assert (H0 : unlinked (_nodes s0) = unlinked (_nodes s) ∧
               _head_index s0 = _head_index s ∧
               table_size s0 = (if load_factor_above_MAX s
                                then wrap_size_t (table_size s * 2)
                                else table_size s)).
  { destruct (load_factor_above_MAX s); [by apply rehash_inv|by simplify_eq]. }
  destruct H0 as (Hu & Hh & Hts).
  destruct (table_size _ =? 0); [done|].
  destruct (insert_map _ _ _) as [s3|] eqn:Hm; [|done]. simpl in Hi.
  simplify_eq.
  apply insert_map_inv in Hm as (Hu3 & Hh3 & Hl3). simpl in *.
  set (i := emplace_slot (dom (_nodes s0))) in *.
  assert (Hfresh : i ∉ dom (_nodes s)).
  { rewrite <- dom_unlinked, <- Hu, dom_unlinked. apply emplace_slot_fresh. }
  split_and!.
  - by apply not_elem_of_dom.
  - apply emplace_slot_valid.
  - congruence.
  - rewrite Hu3, !unlinked_insert. by rewrite Hu.
  - unfold table_size in *. by rewrite Hl3.
Qed.

(** Adding a record and linking it into its bucket keeps every lookup
    that found a record. *)
Lemma emplace_index_stable s0 b key value j s1 key' r :
  _nodes s0 !! j = None →
  insert_map (with_nodes (<[j := fresh_node key value]> (_nodes s0)) s0) b j
    = Some s1 →
  index s0 key' = Some r → r ≠ _EMPTY_INDEX →
  index s1 key' = Some r.
Proof.
  intros Hnone Hm Hidx Hr.
  pose proof (insert_map_inv _ _ _ _ Hm) as (Hu & _ & Hlen). simpl in Hu, Hlen.
  apply insert_map_extends in Hm as [Htab Hext]. simpl in *.
  unfold index, table_size in *. rewrite Hlen.
  destruct (N.of_nat (length (_table s0)) =? 0); [done|].
  destruct (_table s0 !! _) as [i0|] eqn:Hb; [|done]. simpl in Hidx.
  destruct (N.eqb_spec i0 _EMPTY_INDEX) as [->|Hi0]; [by simplify_eq|].
  rewrite (Htab _ _ Hb Hi0). simpl.
  destruct (N.eqb_spec i0 _EMPTY_INDEX); [done|].
  eapply index_walk_stable; [|done|done|].
  - intros i it Hi. apply Hext. rewrite lookup_insert_ne; [done|].
    intros <-. congruence.
  - rewrite <- (size_unlinked (_nodes s1)), Hu, size_unlinked.
    rewrite map_size_insert_None by done. lia.
Qed.

(** Without a rehash, [_insert] keeps every lookup that found a record. *)
Lemma _insert_index_stable s key value i s1 key' r :
  load_factor_above_MAX s = false →
  _insert s key value = Some (i, s1) →
  index s key' = Some r → r ≠ _EMPTY_INDEX →
  index s1 key' = Some r.
Proof.
  intros Hload Hi Hidx Hr.
  pose proof (_insert_inv _ _ _ _ _ Hi) as (Hnone & _).
  unfold _insert in Hi. rewrite Hload in Hi. simpl in Hi.
  destruct (table_size _ =? 0); [done|].
  destruct (insert_map _ _ _) as [s3|] eqn:Hm; [|done]. simpl in Hi.
  simplify_eq. by eapply emplace_index_stable.
Qed.

(** On a well-formed state [_insert] returns. *)
Lemma _insert_spec s key value :
  _nodes s !! _EMPTY_INDEX = None → chains_ok s → table_size s ≠ 0 →
  (load_factor_above_MAX s = true → table_size s * 2 < size_t_range) →
  ∃ i s1, _insert s key value = Some (i, s1) ∧
          chains_ok s1 ∧ table_size s1 ≠ 0.
Proof.
  intros HE Hok Hts Hsmall. unfold _insert.
  assert (H0 : ∃ s0, (if load_factor_above_MAX s
                      then rehash s (wrap_size_t (table_size s * 2))
                      else Some s) = Some s0 ∧
                     chains_ok s0 ∧ table_size s0 ≠ 0 ∧
                     _nodes s0 !! _EMPTY_INDEX = None).
  { destruct (load_factor_above_MAX s); [|by eauto].
    assert (Hw : wrap_size_t (table_size s * 2) = table_size s * 2).
    { unfold wrap_size_t. apply N.mod_small. by apply Hsmall. }
    destruct (rehash_spec s (wrap_size_t (table_size s * 2)))
      as (s0 & Hr & Hok0); [done|left; lia|].
    exists s0. split_and!; [done|done| |].
    - apply rehash_inv in Hr as (_ & _ & ->). lia.
    - apply rehash_inv in Hr as (Hu & _ & _).
      eapply unlinked_lookup_None; [symmetry; exact Hu|done]. }
  destruct H0 as (s0 & -> & Hok0 & Hts0 & HE0). simpl.
  set (i := emplace_slot (dom (_nodes s0))).
  set (nd := fresh_node key value).
  assert (Hi : _nodes s0 !! i = None).
  { apply not_elem_of_dom, emplace_slot_fresh. }
  unfold table_size at 1. simpl. fold (table_size s0).
  destruct (N.eqb_spec (table_size s0) 0); [done|].
  set (b := hash_of key mod table_size s0).
  assert (Hlt : (N.to_nat b < length (_table s0))%nat).
  { pose proof (N.mod_lt (hash_of key) (table_size s0) Hts0).
    unfold b, table_size in *. lia. }
  destruct (lookup_lt_is_Some_2 _ _ Hlt) as [i0 Hi0].
  destruct (insert_map_spec (with_nodes (<[i := nd]> (_nodes s0)) s0)
              b i0 i nd) as (s3 & Hm & Hok3 & _).
  - intros b' x Hb'. simpl in *. destruct (Hok0 _ _ Hb') as [l Hl].
    exists l. by apply chain_insert_fresh.
  - done.
  - simpl. by rewrite lookup_insert_eq.
  - done.
  - apply emplace_slot_valid.
  - intros l Hl Hil. simpl in *. destruct (Hok0 _ _ Hi0) as [l' Hl'].
    pose proof (chain_insert_fresh _ _ _ i nd Hl' Hi) as Hl''.
    rewrite (chain_functional _ _ _ _ Hl Hl'') in Hil.
    destruct (chain_live _ _ _ _ Hl' Hil) as [_ [? ?]]. congruence.
  - unfold table_size at 1. simpl. fold (table_size s0). fold b.
    rewrite Hm. simpl. eexists _, _. split; [done|]. split; [done|].
    apply insert_map_inv in Hm as (_ & _ & Hl). simpl in Hl.
    unfold table_size in *. by rewrite Hl.
Qed.


(** ** The cascade of [erase] *)

Lemma child_of_delete σ x a b :
  child_of (delete x σ) a b → child_of σ a b.
Proof.
  intros (nd & Ha & Hb). exists nd. split; [|done].
  by apply lookup_delete_Some in Ha as [_ ?].
Qed.

Lemma reach_delete σ x a b : reach (delete x σ) a b → reach σ a b.
Proof.
  apply rtc_subrel. intros ? ?. apply child_of_delete.
Qed.

Lemma cascade_inv_nil σ (q : list N) :
  ∃ V, NoDup V ∧
       (∀ j, j ∈ V → is_Some (σ !! j)) ∧
       (∀ j, j ∈ @nil N → j ∈ V) ∧
       (∀ a b, a ∈ V → child_of σ a b → b ∈ V) ∧
       (∀ j, j ∈ V → ∃ r, r ∈ q ∧ reach σ r j) ∧
       (∀ j, σ !! j = if decide (j ∈ V) then None else σ !! j) ∧
       size σ = (size σ + length V)%nat.
Proof.
  exists []. split_and!.
  - constructor.
  - by intros ? ?%elem_of_nil.
  - done.
  - by intros ? ? ?%elem_of_nil.
  - by intros ? ?%elem_of_nil.
  - intros j. rewrite decide_False; [done|apply not_elem_of_nil].
  - simpl. lia.
Qed.

(** A cascade that returns has removed, each once, the records of the
    queue and those below them. *)
Lemma cascade_inv fuel σ q σ' :
  cascade σ fuel q = Some σ' →
  ∃ V, NoDup V ∧
       (∀ j, j ∈ V → is_Some (σ !! j)) ∧
       (∀ j, j ∈ q → j ∈ V) ∧
       (∀ a b, a ∈ V → child_of σ a b → b ∈ V) ∧
       (∀ j, j ∈ V → ∃ r, r ∈ q ∧ reach σ r j) ∧
       (∀ j, σ' !! j = if decide (j ∈ V) then None else σ !! j) ∧
       size σ = (size σ' + length V)%nat.
Proof.
  revert σ q. induction fuel as [|fuel IH]; intros σ q Hc.
  - destruct q as [|x rest]; [|done]. simpl in Hc. simplify_eq.
    apply cascade_inv_nil.
  - destruct q as [|x rest].
    { simpl in Hc. simplify_eq.
      apply cascade_inv_nil. }
    simpl in Hc. destruct (σ !! x) as [nd|] eqn:Hx; [|done]. simpl in Hc.
    destruct (IH _ _ Hc) as (V & Hnd & Hlive & Hq & Hcl & Hfrom & Hlk & Hsz).
    assert (HxV : x ∉ V).
    { intros [? HxV]%Hlive. by rewrite lookup_delete_eq in HxV. }
    exists (x :: V). split_and!.
    + by constructor.
    + intros j [->|Hj]%elem_of_cons; [by eauto|].
      destruct (Hlive _ Hj) as [ndj [_ ?]%lookup_delete_Some]. eauto.
    + intros j [->|Hj]%elem_of_cons; [set_solver|].
      apply elem_of_cons. right. apply Hq. set_solver.
    + intros a b [->|Ha]%elem_of_cons (nda & Hnda & Hb).
      * simplify_eq. apply elem_of_cons. right. apply Hq. set_solver.
      * apply elem_of_cons. right. apply (Hcl a b Ha).
        exists nda. split; [|done]. apply lookup_delete_Some.
        split; [|done]. intros ->. done.
    + intros j [->|Hj]%elem_of_cons.
      { exists x. split; [set_solver|]. apply rtc_refl. }
      destruct (Hfrom _ Hj) as (r & [Hr|Hr]%elem_of_app & Hreach).
      * exists r. split; [set_solver|]. by eapply reach_delete.
      * exists x. split; [set_solver|].
        eapply rtc_l; [|by eapply reach_delete]. by exists nd.
    + intros j. rewrite Hlk.
      destruct (decide (j ∈ V)) as [HjV|HjV];
        destruct (decide (j ∈ x :: V)) as [HjxV|HjxV]; [done| | |].
      * exfalso. apply HjxV, elem_of_cons. by right.
      * apply elem_of_cons in HjxV as [->|?]; [|done].
        apply lookup_delete_eq.
      * apply lookup_delete_ne. intros ->. apply HjxV, elem_of_cons. by left.
    + rewrite map_size_delete_Some in Hsz by eauto.
      pose proof (map_size_ne_0_lookup_2 σ x ltac:(eauto)). simpl. lia.
Qed.

Lemma cascade_spec fuel σ q :
  (size σ ≤ fuel)%nat → NoDup q →
  (∀ x, x ∈ q → is_Some (σ !! x)) →
  links_ok σ →
  (∀ x, x ∈ q → ∀ a, ¬ child_of σ a x) →
  is_Some (cascade σ fuel q).
Proof.
  revert σ q. induction fuel as [|fuel IH]; intros σ q Hsz Hnd Hq Hlinks Htop.
  - destruct q as [|x rest]; [by eexists|].
    destruct (Hq x) as [nd Hx]; [set_solver|].
    pose proof (map_size_ne_0_lookup_2 σ x ltac:(eauto)). lia.
  - destruct q as [|x rest]; [by eexists|].
    destruct (Hq x) as [nd Hx]; [set_solver|].
    simpl. rewrite Hx. simpl.
    apply NoDup_cons in Hnd as [Hxr Hnd].
    destruct (Hlinks _ _ Hx) as [Hndc Hch].
    assert (Hxc : x ∉ childs nd).
    { intros Hin. apply (Htop x ltac:(set_solver) x). by exists nd. }
    apply IH.
    + rewrite map_size_delete_Some by eauto.
      pose proof (map_size_ne_0_lookup_2 σ x ltac:(eauto)). lia.
    + apply NoDup_app. split_and!; [done| |done].
      intros c Hc Hc'. apply (Htop c ltac:(set_solver) x). by exists nd.
    + intros c [Hc|Hc]%elem_of_app.
      * destruct (Hq c) as [ndc ?]; [set_solver|].
        exists ndc. apply lookup_delete_Some. split; [|done]. by intros ->.
      * destruct (Hch _ Hc) as (cn & ? & _).
        exists cn. apply lookup_delete_Some. split; [|done]. by intros ->.
    + intros a nda [Hne Ha]%lookup_delete_Some.
      destruct (Hlinks _ _ Ha) as [? Hcha]. split; [done|].
      intros c Hc. destruct (Hcha _ Hc) as (cn & Hcn & Hp).
      exists cn. split; [|done]. apply lookup_delete_Some. split; [|done].
      intros ->. apply (Htop c ltac:(set_solver) a). by exists nda.
    + intros c [Hc|Hc]%elem_of_app a Hchild.
      * apply (Htop c ltac:(set_solver) a). by eapply child_of_delete.
      * destruct Hchild as (nda & [Hne Ha]%lookup_delete_Some & Hca).
        destruct (Hch _ Hc) as (cn & Hcn & Hp).
        destruct (Hlinks _ _ Ha) as [_ Hcha].
        destruct (Hcha _ Hca) as (cn' & Hcn' & Hp'). congruence.
Qed.

(** Reachability does not need the entry that [remove_child] takes out. *)
Lemma reach_unlisted σ q pn i j :
  σ !! q = Some pn →
  reach σ i j ↔
  reach (<[q := with_childs (filter (λ x, x ≠ i) (childs pn)) pn]> σ) i j.
Proof.
  intros Hq. split.
  - revert j. apply rtc_ind_r; [apply rtc_refl|].
    intros m j _ (nd & Hm & Hj) IH.
    destruct (decide (j = i)) as [->|Hji]; [apply rtc_refl|].
    eapply rtc_r; [exact IH|].
    destruct (decide (m = q)) as [->|Hmq].
    + simplify_eq. eexists. rewrite lookup_insert_eq. split; [done|].
      simpl. by apply list_elem_of_filter.
    + exists nd. by rewrite lookup_insert_ne.
  - apply rtc_subrel. intros m b (nd & Hm & Hb).
    destruct (decide (m = q)) as [->|Hmq].
    + rewrite lookup_insert_eq in Hm. simplify_eq. simpl in Hb.
      apply list_elem_of_filter in Hb as [_ Hb]. by exists pn.
    + rewrite lookup_insert_ne in Hm by done. by exists nd.
Qed.

(** ** Removing a subtree *)

Lemma remove_child_eq σ c nc pn :
  σ !! c = Some nc → σ !! parent_index nc = Some pn →
  remove_child σ c = Some (<[parent_index nc := without_child c pn]> σ).
Proof. intros Hc Hp. unfold remove_child. by rewrite Hc; simpl; rewrite Hp. Qed.

Lemma lookup_unlist σ q qn i j :
  σ !! q = Some qn →
  <[q := without_child i qn]> σ !! j =
    (λ nd, if decide (j = q) then without_child i nd else nd) <$> σ !! j.
Proof.
  intros Hq. destruct (decide (j = q)) as [->|Hne].
  - by rewrite lookup_insert_eq, Hq.
  - rewrite lookup_insert_ne by done. by destruct (σ !! j).
Qed.

Lemma links_ok_unlist s i ni qn :
  tree_wf s → _nodes s !! i = Some ni →
  _nodes s !! parent_index ni = Some qn →
  let σ1 := <[parent_index ni := without_child i qn]> (_nodes s) in
  links_ok σ1 ∧ (∀ a, ¬ child_of σ1 a i).
Proof.
  intros [W0 W1e W1 W2 W3 W4 W5] Hi Hq σ1. split.
  - intros a nd1 Ha. unfold σ1 in Ha. rewrite (lookup_unlist _ _ _ _ _ Hq) in Ha.
    destruct (_nodes s !! a) as [nd|] eqn:Hnd; [|done]. simpl in Ha.
    assert (Hsub : ∀ c, c ∈ childs nd1 → c ∈ childs nd).
    { intros c. simplify_eq. destruct (decide (a = parent_index ni)); [|done]. simpl.
      by intros [_ ?]%list_elem_of_filter. }
    split.
    + simplify_eq. destruct (decide (a = parent_index ni)); [|by eapply W5].
      simpl. apply NoDup_filter. by eapply W5.
    + intros c Hc%Hsub. destruct (W3 _ _ _ Hnd Hc) as (cn & Hcn & Hp).
      unfold σ1. rewrite (lookup_unlist _ _ _ _ _ Hq), Hcn. simpl.
      eexists. split; [done|]. by destruct (decide (c = parent_index ni)).
  - intros a (nd1 & Ha & Hin). unfold σ1 in Ha.
    rewrite (lookup_unlist _ _ _ _ _ Hq) in Ha.
    destruct (_nodes s !! a) as [nd|] eqn:Hnd; [|done]. simpl in Ha.
    simplify_eq. destruct (decide (a = parent_index ni)) as [->|Hne].
    + simpl in Hin. by apply list_elem_of_filter in Hin as [? _].
    + destruct (W3 _ _ _ Hnd Hin) as (cn & Hcn & Hp). congruence.
Qed.

(** Erasing the subtree of a record that is not the root: the cascade
    returns, it removes the records below the target and no other, and the
    links that stay agree with each other. *)
Lemma erase_subtree_spec s i ni :
  tree_wf s → _nodes s !! i = Some ni → i ≠ _head_index s →
  ∃ σ2 V,
    erase_subtree (_nodes s) i = Some σ2 ∧
    NoDup V ∧
    (∀ j, j ∈ V ↔ reach (_nodes s) i j) ∧
    (∀ j, σ2 !! j =
       if decide (j ∈ V) then None
       else (λ nd, if decide (j = parent_index ni)
                   then without_child i nd else nd) <$> _nodes s !! j) ∧
    size (_nodes s) = (size σ2 + length V)%nat ∧
    tree_wf (with_nodes σ2 s).
Proof.
  intros Hwf Hi Hhd. pose proof Hwf as [W0 W1e W1 W2 W3 W4 W5].
  assert (Hp : parent_index ni ≠ _EMPTY_INDEX) by (by rewrite (W2 _ _ Hi)).
  destruct (W4 _ _ Hi Hp) as (qn & Hq & Hiq).
  set (q := parent_index ni) in *.
  set (σ1 := <[q := without_child i qn]> (_nodes s)).
  destruct (links_ok_unlist s i ni qn Hwf Hi Hq) as [Hlinks Htop].
  fold q in Hlinks, Htop. fold σ1 in Hlinks, Htop.
  assert (Hlk1 : ∀ j, σ1 !! j =
    (λ nd, if decide (j = q) then without_child i nd else nd) <$> _nodes s !! j).
  { intros j. by apply lookup_unlist. }
  assert (Hi1 : is_Some (σ1 !! i)) by (rewrite Hlk1, Hi; by eexists).
  destruct (cascade_spec (size σ1) σ1 [i]) as [σ2 Hc];
    [done|apply NoDup_singleton| | | |].
  { by intros x ->%list_elem_of_singleton. }
  { done. }
  { intros x ->%list_elem_of_singleton. apply Htop. }
  destruct (cascade_inv _ _ _ _ Hc) as (V & HndV & Hlive & HqV & Hcl & Hfrom & Hlk & Hsz).
  assert (HV : ∀ j, j ∈ V ↔ reach σ1 i j).
  { intros j. split.
    - intros (r & ->%list_elem_of_singleton & ?)%Hfrom. done.
    - revert j. apply rtc_ind_r; [apply HqV; set_solver|].
      intros a b _ Hab Ha. by eapply Hcl. }
  assert (HVpar : ∀ c, c ∈ V → c = i ∨ ∃ m nm, m ∈ V ∧ σ1 !! m = Some nm ∧ c ∈ childs nm).
  { intros c [->|(m & Hm & nm & ? & ?)]%HV%rtc_inv_r; [by left|].
    right. exists m, nm. by rewrite HV. }
  exists σ2, V. split_and!.
  - unfold erase_subtree. rewrite Hi. simpl.
    destruct (N.eqb_spec (parent_index ni) _EMPTY_INDEX); [done|]. simpl.
    rewrite (remove_child_eq _ _ _ _ Hi Hq). simpl. exact Hc.
  - done.
  - intros j. rewrite HV. symmetry. by apply reach_unlisted.
  - intros j. by rewrite Hlk, Hlk1.
  - rewrite <- Hsz. unfold σ1. rewrite map_size_insert_Some; [done|eauto].
  - assert (Hkeep : ∀ j nd2, σ2 !! j = Some nd2 →
      (j ∉ V) ∧ σ1 !! j = Some nd2 ∧
      ∃ nd, _nodes s !! j = Some nd ∧ parent_index nd2 = parent_index nd).
    { intros j nd2 Hj. rewrite Hlk in Hj. destruct (decide (j ∈ V)); [done|].
      split_and!; [done..|]. rewrite Hlk1 in Hj.
      destruct (_nodes s !! j) as [nd|]; [|done]. simpl in Hj. simplify_eq.
      exists nd. split; [done|]. by destruct (decide (j = q)). }
    split; simpl.
    + rewrite Hlk, Hlk1, W0. by destruct (decide (_EMPTY_INDEX ∈ V)).
    + intros He. rewrite (W1e He) in Hi. by rewrite lookup_empty in Hi.
    + intros Hne. destruct (W1 Hne) as [hd Hhdl]. rewrite Hlk, Hlk1, Hhdl. simpl.
      rewrite decide_False; [by eexists|].
      intros [?|(m & nm & Hm & Hnm & Hin)]%HVpar; [done|].
      destruct (Hlinks _ _ Hnm) as [_ Hch].
      destruct (Hch _ Hin) as (cn & Hcn & Hpc).
      rewrite Hlk1, Hhdl in Hcn. simpl in Hcn.
      assert (parent_index cn = parent_index hd) as Hpe.
      { injection Hcn as <-. by destruct (decide (_head_index s = q)). }
      assert (parent_index hd = _EMPTY_INDEX) as HpE by by apply (W2 _ _ Hhdl).
      assert (HmE : σ1 !! _EMPTY_INDEX = Some nm) by congruence.
      rewrite Hlk1, W0 in HmE. done.
    + intros j nd2 (_ & _ & nd & Hnd & ->)%Hkeep. by apply W2.
    + intros a nd2 c Ha Hca. destruct (Hkeep _ _ Ha) as (HaV & Ha1 & _).
      destruct (Hlinks _ _ Ha1) as [_ Hch].
      destruct (Hch _ Hca) as (cn & Hcn & Hpc).
      exists cn. split; [|done]. rewrite Hlk, decide_False; [done|].
      intros [->|(m & nm & Hm & Hnm & Hin)]%HVpar.
      * apply (Htop a). by exists nd2.
      * destruct (Hlinks _ _ Hnm) as [_ Hchm].
        destruct (Hchm _ Hin) as (cn' & Hcn' & Hpc'). congruence.
    + intros j nd2 Hj Hpj. destruct (Hkeep _ _ Hj) as (HjV & Hj1 & nd & Hnd & Hpe).
      rewrite Hpe in Hpj |- *.
      destruct (W4 _ _ Hnd Hpj) as (pn & Hpn & Hin).
      assert (Hji : j ≠ i) by (intros ->; apply HjV, HqV; set_solver).
      assert (Hpn1 : ∃ pn1, σ1 !! parent_index nd = Some pn1 ∧ j ∈ childs pn1).
      { rewrite Hlk1, Hpn. simpl. eexists. split; [done|].
        destruct (decide (parent_index nd = q)); [|done]. simpl.
        by apply list_elem_of_filter. }
      destruct Hpn1 as (pn1 & Hpn1 & Hin1).
      exists pn1. split; [|done]. rewrite Hlk, decide_False; [done|].
      intros HpV. apply HjV. apply (Hcl (parent_index nd) j HpV). by exists pn1.
    + intros j nd2 (_ & Hj1 & _)%Hkeep. by apply (Hlinks _ _ Hj1).
Qed.

(** ** Linking a record under a parent *)

Lemma elem_of_attach_child w c nd x :
  x ∈ childs (attach_child w c nd) ↔ x = c ∨ x ∈ childs nd.
Proof.
  unfold attach_child. simpl.
  assert (Hsplit : x ∈ childs nd ↔
                   x ∈ take w (childs nd) ∨ x ∈ drop w (childs nd)).
  { rewrite <- elem_of_app. by rewrite take_drop. }
  rewrite elem_of_app, elem_of_cons, Hsplit. tauto.
Qed.

Lemma NoDup_attach_child w c nd :
  NoDup (childs nd) → c ∉ childs nd → NoDup (childs (attach_child w c nd)).
Proof.
  intros Hnd Hc. unfold attach_child. simpl.
  rewrite <- (take_drop w (childs nd)) in Hnd, Hc.
  apply NoDup_app in Hnd as (H1 & H2 & H3).
  apply not_elem_of_app in Hc as [Hc1 Hc2].
  apply NoDup_app. split_and!; [done| |by constructor].
  intros x Hx [->|Hx']%elem_of_cons; [done|]. by eapply H2.
Qed.

Lemma push_child_attach σ i c it :
  σ !! i = Some it →
  push_child σ i c =
    Some (<[i := attach_child (length (childs it)) c it]> σ).
Proof.
  intros Hi. unfold push_child, attach_child. rewrite Hi. simpl.
  by rewrite take_ge, drop_ge by lia.
Qed.

(** Linking a detached record under a live parent gives a tree whose
    links agree. *)
Lemma tree_wf_attach σ hd i p pn w σ3 tab :
  detached σ hd i → σ !! p = Some pn →
  assign_parent (<[p := attach_child w i pn]> σ) i p = Some σ3 →
  tree_wf (mk_hash_tree σ3 tab hd).
Proof.
  intros [D0 [Dh Dhl] [[ni Hni] Dih] Dl Du D2 D4] Hp Ha.
  set (σ2 := <[p := attach_child w i pn]> σ) in *.
  assert (Hlk2 : ∀ j, σ2 !! j =
    (λ nd, if decide (j = p) then attach_child w i nd else nd) <$> σ !! j).
  { intros j. unfold σ2. destruct (decide (j = p)) as [->|Hne].
    - by rewrite lookup_insert_eq, Hp.
    - rewrite lookup_insert_ne by done. by destruct (σ !! j). }
  unfold assign_parent in Ha.
  destruct (σ2 !! i) as [ni2|] eqn:Hni2; [|done]. simpl in Ha.
  injection Ha as <-.
  assert (Hlk3 : ∀ j, <[i := with_parent_index p ni2]> σ2 !! j =
    (λ nd, if decide (j = i) then with_parent_index p nd else nd) <$> σ2 !! j).
  { intros j. destruct (decide (j = i)) as [->|Hne].
    - by rewrite lookup_insert_eq, Hni2.
    - rewrite lookup_insert_ne by done. by destruct (σ2 !! j). }
  assert (HpE : p ≠ _EMPTY_INDEX) by congruence.
  (* the child vector and the parent link of each record afterwards *)
  assert (Hview : ∀ j nd3, <[i := with_parent_index p ni2]> σ2 !! j = Some nd3 →
    ∃ nd, σ !! j = Some nd ∧
      childs nd3 = childs (if decide (j = p) then attach_child w i nd else nd) ∧
      parent_index nd3 = (if decide (j = i) then p else parent_index nd)).
  { intros j nd3. rewrite Hlk3, Hlk2.
    destruct (σ !! j) as [nd|]; [|done]. simpl. intros [= <-].
    exists nd. split; [done|].
    destruct (decide (j = i)), (decide (j = p)); done. }
  assert (Hlift : ∀ j nd, σ !! j = Some nd →
    ∃ nd3, <[i := with_parent_index p ni2]> σ2 !! j = Some nd3 ∧
      childs nd3 = childs (if decide (j = p) then attach_child w i nd else nd) ∧
      parent_index nd3 = (if decide (j = i) then p else parent_index nd)).
  { intros j nd Hj. rewrite Hlk3, Hlk2, Hj. simpl. eexists. split; [done|].
    destruct (decide (j = i)), (decide (j = p)); done. }
  split; simpl.
  - rewrite Hlk3, Hlk2, D0. done.
  - done.
  - intros _. destruct Dhl as [hn Hhn].
    destruct (Hlift _ _ Hhn) as (? & -> & _). by eexists.
  - intros j nd3 (nd & Hnd & _ & ->)%Hview.
    destruct (decide (j = i)) as [->|Hne]; [by split|]. by apply D2.
  - intros a nd3 c (nd & Hnd & -> & _)%Hview Hc.
    assert (Hcase : (a = p ∧ c = i) ∨ c ∈ childs nd).
    { destruct (decide (a = p)); [|by right].
      apply elem_of_attach_child in Hc as [->|?]; auto. }
    destruct Hcase as [[-> ->]|Hc'].
    + destruct (Hlift _ _ Hni) as (ni3 & -> & _ & Hp3).
      eexists. split; [done|]. by rewrite Hp3, decide_True.
    + destruct (Dl _ _ Hnd) as [_ Hch].
      destruct (Hch _ Hc') as (cn & Hcn & Hpc).
      destruct (Hlift _ _ Hcn) as (cn3 & -> & _ & Hp3).
      eexists. split; [done|]. rewrite Hp3, decide_False; [done|].
      intros ->. apply (Du a). by exists nd.
  - intros j nd3 (nd & Hnd & _ & ->)%Hview Hpj.
    destruct (decide (j = i)) as [->|Hne].
    + destruct (Hlift _ _ Hp) as (pn3 & -> & Hc3 & _).
      eexists. split; [done|]. rewrite Hc3, decide_True by done.
      apply elem_of_attach_child. by left.
    + destruct (D4 _ _ Hnd Hne Hpj) as (pm & Hpm & Hin).
      destruct (Hlift _ _ Hpm) as (pm3 & -> & Hc3 & _).
      eexists. split; [done|]. rewrite Hc3.
      destruct (decide (parent_index nd = p)); [|done].
      apply elem_of_attach_child. by right.
  - intros j nd3 (nd & Hnd & -> & _)%Hview.
    destruct (Dl _ _ Hnd) as [Hnodup _].
    destruct (decide (j = p)) as [->|]; [|done].
    apply NoDup_attach_child; [done|].
    intros Hin. apply (Du p). by exists nd.
Qed.

Lemma detached_fresh s i nd :
  tree_wf s → _head_index s ≠ _EMPTY_INDEX →
  _nodes s !! i = None → i ≠ _EMPTY_INDEX → childs nd = [] →
  detached (<[i := nd]> (_nodes s)) (_head_index s) i.
Proof.
  intros [W0 W1e W1 W2 W3 W4 W5] Hhd Hi HiE Hnd.
  assert (Hih : i ≠ _head_index s).
  { intros ->. destruct (W1 Hhd) as [? ?]. congruence. }
  assert (Hold : ∀ j ndj, <[i := nd]> (_nodes s) !! j = Some ndj → j ≠ i →
    _nodes s !! j = Some ndj).
  { intros j ndj Hj Hne. by rewrite lookup_insert_ne in Hj. }
  assert (Hnew : ∀ j ndj, _nodes s !! j = Some ndj →
    <[i := nd]> (_nodes s) !! j = Some ndj).
  { intros j ndj Hj. rewrite lookup_insert_ne; [done|congruence]. }
  split.
  - by rewrite lookup_insert_ne.
  - split; [done|]. destruct (W1 Hhd) as [hn ?]. exists hn. by apply Hnew.
  - split; [|done]. rewrite lookup_insert_eq. by eexists.
  - intros a nda Ha. destruct (decide (a = i)) as [->|Hne].
    + rewrite lookup_insert_eq in Ha. injection Ha as <-. rewrite Hnd.
      split; [constructor|]. by intros c ?%elem_of_nil.
    + apply Hold in Ha; [|done]. split; [by eapply W5|].
      intros c Hc. destruct (W3 _ _ _ Ha Hc) as (cn & Hcn & Hp).
      exists cn. split; [by apply Hnew|done].
  - intros a (nda & Ha & Hin). destruct (decide (a = i)) as [->|Hne].
    + rewrite lookup_insert_eq in Ha. injection Ha as <-.
      rewrite Hnd in Hin. by apply elem_of_nil in Hin.
    + apply Hold in Ha; [|done].
      destruct (W3 _ _ _ Ha Hin) as (cn & Hcn & _). congruence.
  - intros j ndj Hj Hne. apply Hold in Hj; [|done]. by apply W2.
  - intros j ndj Hj Hne Hp. apply Hold in Hj; [|done].
    destruct (W4 _ _ Hj Hp) as (pn & Hpn & Hin).
    exists pn. split; [by apply Hnew|done].
Qed.

Lemma detached_unlist s i ni qn :
  tree_wf s → _nodes s !! i = Some ni → i ≠ _head_index s →
  _nodes s !! parent_index ni = Some qn →
  detached (<[parent_index ni := without_child i qn]> (_nodes s))
    (_head_index s) i.
Proof.
  intros Hwf Hi Hih Hq. pose proof Hwf as [W0 W1e W1 W2 W3 W4 W5].
  destruct (links_ok_unlist s i ni qn Hwf Hi Hq) as [Hlinks Htop].
  set (q := parent_index ni) in *.
  assert (Hlk : ∀ j, <[q := without_child i qn]> (_nodes s) !! j =
    (λ nd, if decide (j = q) then without_child i nd else nd) <$> _nodes s !! j).
  { intros j. by apply lookup_unlist. }
  assert (Hhd : _head_index s ≠ _EMPTY_INDEX).
  { intros He. rewrite (W1e He) in Hi. by rewrite lookup_empty in Hi. }
  split; try done.
  - by rewrite Hlk, W0.
  - split; [done|]. destruct (W1 Hhd) as [hn Hhn]. rewrite Hlk, Hhn. by eexists.
  - split; [|done]. rewrite Hlk, Hi. by eexists.
  - intros j nd1. rewrite Hlk. destruct (_nodes s !! j) as [nd|] eqn:Hnd; [|done].
    simpl. intros [= <-] _.
    assert (parent_index (if decide (j = q) then without_child i nd else nd)
            = parent_index nd) as -> by by destruct (decide (j = q)).
    by apply W2.
  - intros j nd1. rewrite Hlk. destruct (_nodes s !! j) as [nd|] eqn:Hnd; [|done].
    simpl. intros [= <-] Hne.
    assert (parent_index (if decide (j = q) then without_child i nd else nd)
            = parent_index nd) as -> by by destruct (decide (j = q)).
    intros Hp. destruct (W4 _ _ Hnd Hp) as (pn & Hpn & Hin).
    rewrite Hlk, Hpn. simpl. eexists. split; [done|].
    destruct (decide (parent_index nd = q)); [|done].
    simpl. by apply list_elem_of_filter.
Qed.

(** ** The operations keep the links in agreement *)

Lemma update_unlinked σ τ a (f : node → node) it :
  (∀ nd n, f (with_next_index n nd) = with_next_index n (f nd)) →
  unlinked σ = unlinked τ → σ !! a = Some it →
  ∃ it', τ !! a = Some it' ∧
         unlinked (<[a := f it]> σ) = unlinked (<[a := f it']> τ).
Proof.
  intros Hf Heq Ha.
  assert (Hl : unlinked τ !! a = Some (with_next_index _EMPTY_INDEX it)).
  { by rewrite <- Heq, lookup_unlinked, Ha. }
  rewrite lookup_unlinked in Hl.
  destruct (τ !! a) as [it'|]; [|done]. simpl in Hl.
  assert (Hl' : with_next_index _EMPTY_INDEX it' =
                with_next_index _EMPTY_INDEX it) by congruence.
  exists it'. split; [done|].
  by rewrite !unlinked_insert, <- !Hf, Hl', Heq.
Qed.

Lemma push_child_unlinked σ τ a c σ' :
  unlinked σ = unlinked τ → push_child σ a c = Some σ' →
  ∃ τ', push_child τ a c = Some τ' ∧ unlinked σ' = unlinked τ'.
Proof.
  intros Heq Hpc. unfold push_child in *.
  destruct (σ !! a) as [it|] eqn:Ha; [|done]. injection Hpc as <-.
  destruct (update_unlinked σ τ a (λ nd, with_childs (childs nd ++ [c]) nd) it)
    as (it' & -> & Hu); [done..|].
  simpl. by eexists.
Qed.

Lemma assign_parent_unlinked σ τ i p σ' :
  unlinked σ = unlinked τ → assign_parent σ i p = Some σ' →
  ∃ τ', assign_parent τ i p = Some τ' ∧ unlinked σ' = unlinked τ'.
Proof.
  intros Heq Hpc. unfold assign_parent in *.
  destruct (σ !! i) as [it|] eqn:Ha; [|done]. injection Hpc as <-.
  destruct (update_unlinked σ τ i (with_parent_index p) it)
    as (it' & -> & Hu); [done..|].
  simpl. by eexists.
Qed.

Lemma tree_wf_empty : tree_wf empty_tree.
Proof.
  split; simpl; done.
Qed.

Lemma tree_wf_clear s : tree_wf (clear s).
Proof.
  split; simpl; done.
Qed.

Lemma tree_wf_first i nd tab :
  i ≠ _EMPTY_INDEX → childs nd = [] → parent_index nd = _EMPTY_INDEX →
  tree_wf (mk_hash_tree (<[i := nd]> ∅) tab i).
Proof.
  intros Hi Hc Hp.
  assert (Hone : ∀ j ndj, <[i := nd]> (∅ : store) !! j = Some ndj →
    j = i ∧ ndj = nd).
  { intros j ndj [[-> ->]|[_ Hj]]%lookup_insert_Some; [done|].
    by rewrite lookup_empty in Hj. }
  split; simpl.
  - rewrite lookup_insert_ne by done. apply lookup_empty.
  - done.
  - intros _. rewrite lookup_insert_eq. by eexists.
  - by intros j ndj [-> ->]%Hone.
  - intros j ndj c [-> ->]%Hone Hin. rewrite Hc in Hin.
    by apply elem_of_nil in Hin.
  - by intros j ndj [-> ->]%Hone.
  - intros j ndj [-> ->]%Hone. rewrite Hc. constructor.
Qed.

(** Linking the record that [_insert] has added. *)
Lemma tree_wf_link_new s key value i s1 p σ1 σ2 :
  tree_wf s → _head_index s ≠ _EMPTY_INDEX →
  _insert s key value = Some (i, s1) →
  push_child (_nodes s1) p i = Some σ1 →
  assign_parent σ1 i p = Some σ2 →
  tree_wf (with_nodes σ2 s1).
Proof.
  intros Hwf Hhd Hins Hpush Hassign.
  destruct (_insert_inv _ _ _ _ _ Hins) as (Hi & HiE & Hh1 & Hu & _).
  set (τ := <[i := fresh_node key value]> (_nodes s)) in *.
  destruct (push_child_unlinked _ τ _ _ _ Hu Hpush) as (τ1 & Hpush' & Hu1).
  destruct (assign_parent_unlinked _ τ1 _ _ _ Hu1 Hassign)
    as (τ2 & Hassign' & Hu2).
  apply (tree_wf_unlinked (mk_hash_tree τ2 (_table s1) (_head_index s)));
    [done|by simpl|].
  assert (Hp : is_Some (τ !! p)).
  { unfold push_child in Hpush'. destruct (τ !! p); [by eexists|done]. }
  destruct Hp as [pn Hp].
  rewrite (push_child_attach _ _ _ _ Hp) in Hpush'. injection Hpush' as <-.
  eapply tree_wf_attach; [|exact Hp|exact Hassign'].
  by apply detached_fresh.
Qed.

Lemma tree_wf_insert s key value s' :
  tree_wf s → insert s key value = Some s' → tree_wf s'.
Proof.
  intros Hwf Hins. unfold insert in Hins.
  destruct (_insert s key value) as [[i s1]|] eqn:Hi; [|done]. simpl in Hins.
  destruct (_insert_inv _ _ _ _ _ Hi) as (Hnone & HiE & Hh1 & Hu & _).
  destruct (N.eqb_spec (_head_index s1) _EMPTY_INDEX) as [He|Hne].
  - injection Hins as <-. rewrite Hh1 in He.
    apply (tree_wf_unlinked
             (mk_hash_tree (<[i := fresh_node key value]> ∅) (_table s1) i));
      [|done|by apply tree_wf_first].
    simpl. by rewrite Hu, (wf_no_root _ Hwf He).
  - destruct (push_child _ _ _) as [σ1|] eqn:Hpush; [|done]. simpl in Hins.
    destruct (assign_parent _ _ _) as [σ2|] eqn:Hassign; [|done].
    injection Hins as <-. rewrite Hh1 in Hne.
    by eapply tree_wf_link_new.
Qed.

Lemma tree_wf_insert_under s key value parent s' :
  tree_wf s → _head_index s ≠ _EMPTY_INDEX →
  insert_under s key value parent = Some s' → tree_wf s'.
Proof.
  intros Hwf Hhd Hins. unfold insert_under in Hins.
  destruct (_insert s key value) as [[i s1]|] eqn:Hi; [|done]. simpl in Hins.
  destruct (index s1 parent) as [p|]; [|done]. simpl in Hins.
  destruct (push_child _ _ _) as [σ1|] eqn:Hpush; [|done]. simpl in Hins.
  destruct (assign_parent _ _ _) as [σ2|] eqn:Hassign; [|done].
  injection Hins as <-. by eapply tree_wf_link_new.
Qed.

Lemma tree_wf__set_parent s i p w s' :
  tree_wf s → i ≠ _head_index s →
  _set_parent s i p w = Some s' → tree_wf s'.
Proof.
  intros Hwf Hih Hsp. unfold _set_parent in Hsp.
  destruct (_nodes s !! i) as [ni|] eqn:Hi; [|done]. simpl in Hsp.
  assert (Hpi : parent_index ni ≠ _EMPTY_INDEX).
  { by rewrite (wf_parentless _ Hwf _ _ Hi). }
  destruct (N.eqb_spec (parent_index ni) _EMPTY_INDEX); [done|]. simpl in Hsp.
  destruct (wf_parent _ Hwf _ _ Hi Hpi) as (qn & Hq & _).
  rewrite (remove_child_eq _ _ _ _ Hi Hq) in Hsp. simpl in Hsp.
  destruct (_ !! p) as [pn|] eqn:Hp; [|done]. simpl in Hsp.
  destruct (bool_decide _); [|done].
  destruct (assign_parent _ _ _) as [σ3|] eqn:Hassign; [|done].
  injection Hsp as <-.
  eapply tree_wf_attach; [|exact Hp|exact Hassign].
  by apply detached_unlist.
Qed.

Lemma tree_wf_set_parent s key new_parent s' :
  tree_wf s → index s key ≠ Some (_head_index s) →
  set_parent s key new_parent = Some s' → tree_wf s'.
Proof.
  intros Hwf Hk Hsp. unfold set_parent in Hsp.
  destruct (index s key) as [i|]; [|done]. simpl in Hsp.
  destruct (index s new_parent) as [p|]; [|done]. simpl in Hsp.
  destruct (_nodes s !! p) as [pn|]; [|done]. simpl in Hsp.
  eapply tree_wf__set_parent; [done| |done]. congruence.
Qed.

Lemma tree_wf_erase s key s' :
  tree_wf s → erase s key = Some s' → tree_wf s'.
Proof.
  intros Hwf He. unfold erase in He.
  destruct (index s key) as [i|]; [|done]. simpl in He.
  destruct (N.eqb_spec i (_head_index s)) as [Heq|Hne].
  { injection He as <-. apply tree_wf_clear. }
  destruct (erase_subtree (_nodes s) i) as [σ2|] eqn:Hes; [|done].
  simpl in He.
  assert (Hi : is_Some (_nodes s !! i)).
  { unfold erase_subtree in Hes. destruct (_nodes s !! i); [by eexists|done]. }
  destruct Hi as [ni Hi].
  destruct (erase_subtree_spec s i ni Hwf Hi Hne)
    as (σ2' & V & Hes' & _ & _ & _ & _ & Hwf2).
  assert (σ2' = σ2) as -> by congruence.
  destruct (load_factor_below_MIN _).
  - apply rehash_inv in He as (Hu & Hh & _).
    by eapply tree_wf_unlinked; [| |exact Hwf2].
  - by injection He as <-.
Qed.

Lemma tree_wf_run ops s s' :
  tree_wf s → permitted s ops → run s ops = Some s' → tree_wf s'.
Proof.
  revert s. induction ops as [|o ops IH]; intros s Hwf Hperm Hrun.
  { by injection Hrun as <-. }
  simpl in Hrun, Hperm. destruct Hperm as [Ho Hperm].
  destruct (apply_operation s o) as [s1|] eqn:Hs1; [|done]. simpl in Hrun.
  apply (IH s1); [|by apply Hperm|done].
  destruct o as [k v|k v p|k|k p]; simpl in *.
  - by eapply tree_wf_insert.
  - by eapply tree_wf_insert_under.
  - by eapply tree_wf_erase.
  - by eapply tree_wf_set_parent.
Qed.

Lemma tree_wf_single_root s : tree_wf s → single_root s.
Proof.
  intros [W0 W1e W1 W2 W3 W4 W5]. split_and!.
  - intros i j ni nj Hi Hj Hpi Hpj.
    apply (W2 _ _ Hi) in Hpi. apply (W2 _ _ Hj) in Hpj. congruence.
  - intros i ni Hi Hpi. by apply (W2 _ _ Hi).
  - split; [|done]. intros He.
    destruct (decide (_head_index s = _EMPTY_INDEX)) as [|Hne]; [done|].
    destruct (W1 Hne) as [? Hl]. by rewrite He, lookup_empty in Hl.
Qed.

(** C1 (as amended): after any sequence of insert, erase and set_parent
    operations from the new map, in which set_parent is never given the
    key of the root as its target and insert with a parent key is never
    applied to a map without root, at most one record has no parent, it is
    the one the root identifier names, and the root identifier is the
    sentinel exactly when the map is empty. *)
Theorem single_root_invariant ops s' :
  permitted empty_tree ops → run empty_tree ops = Some s' → single_root s'.
Proof.
  intros Hperm Hrun. apply tree_wf_single_root.
  by eapply tree_wf_run; [apply tree_wf_empty|..].
Qed.

(** ** Erase *)

Lemma filter_all {A} (P : A → Prop) `{∀ x, Decision (P x)} (l : list A) :
  (∀ x, x ∈ l → P x) → filter P l = l.
Proof.
  induction l as [|x l IH]; intros Hl; [done|].
  rewrite filter_cons_True by (apply Hl; by left).
  f_equal. apply IH. intros y Hy. apply Hl. by right.
Qed.



(** Erase with a key that resolves to the root identifier leaves the
    empty map: no record, no root. *)
Lemma erase_at_root s key :
  index s key = Some (_head_index s) →
  ∃ s', erase s key = Some s' ∧ size s' = 0%nat ∧
        _head_index s' = _EMPTY_INDEX ∧ _nodes s' = ∅.
Proof.
  intros Hidx. exists (clear s). unfold erase. rewrite Hidx. simpl.
  by rewrite N.eqb_refl.
Qed.

(** ** Insert with a parent key *)

(** C4 (as amended): insert with a parent key adds the record for the key
    and registers it in the hash index before it resolves the parent key.
    When the parent key then resolves to no record, the store is indexed
    with the sentinel: there is no outcome, and no failure is signalled.
    When it resolves to the new record itself, the insert returns and the
    record is its own parent and its own only child. *)
Theorem insert_under_unresolved s key value parent i s1 :
  _nodes s !! _EMPTY_INDEX = None →
  _insert s key value = Some (i, s1) →
  (index s1 parent = Some _EMPTY_INDEX →
     insert_under s key value parent = None) ∧
  (index s1 parent = Some i →
     ∃ s' ni, insert_under s key value parent = Some s' ∧
              _nodes s' !! i = Some ni ∧ pair ni = (key, value) ∧
              parent_index ni = i ∧ childs ni = [i] ∧
              size s' = S (size s)).
Proof.
  intros HE Hins.
  destruct (_insert_inv _ _ _ _ _ Hins) as (Hi & HiE & _ & Hu & _).
  assert (Hsym : unlinked (<[i := fresh_node key value]> (_nodes s))
                 = unlinked (_nodes s1)) by done.
  split; intros Hidx; unfold insert_under; rewrite Hins; simpl;
    rewrite Hidx; simpl.
  - unfold push_child.
    rewrite (unlinked_lookup_None _ _ _EMPTY_INDEX Hsym); [done|].
    by rewrite lookup_insert_ne.
  - destruct (unlinked_lookup_eq _ (<[i := fresh_node key value]> (_nodes s))
                i (fresh_node key value) Hu)
      as (n1 & Hn1 & Hp & _ & Hc & _); [apply lookup_insert_eq|].
    unfold push_child. rewrite Hn1. simpl.
    unfold assign_parent. rewrite lookup_insert_eq. simpl.
    eexists _, _. split; [done|]. simpl. rewrite lookup_insert_eq.
    split; [done|]. simpl. rewrite Hp, Hc. split_and!; [done..|].
    unfold size, hash_tree_size. simpl.
    rewrite !map_size_insert_Some
      by (rewrite ?lookup_insert_eq; eauto).
    rewrite (unlinked_size_eq _ _ Hu).
    by rewrite map_size_insert_None.
Qed.

(** ** Insert *)

Lemma same_chain_data_trans σ1 σ2 σ3 :
  same_chain_data σ1 σ2 → same_chain_data σ2 σ3 → same_chain_data σ1 σ3.
Proof.
  intros H12 H23 j it Hj.
  destruct (H12 _ _ Hj) as (it2 & Hj2 & ? & ? & ?).
  destruct (H23 _ _ Hj2) as (it3 & Hj3 & ? & ? & ?).
  exists it3. split_and!; congruence.
Qed.

Lemma same_chain_data_update σ a it (f : node → node) :
  σ !! a = Some it →
  next_index (f it) = next_index it → pair (f it) = pair it →
  hash_value (f it) = hash_value it →
  same_chain_data σ (<[a := f it]> σ).
Proof.
  intros Ha Hn Hp Hh j itj Hj. destruct (decide (j = a)) as [->|Hne].
  - rewrite lookup_insert_eq. simplify_eq. by eexists.
  - rewrite lookup_insert_ne by done. by eexists.
Qed.

Lemma push_child_same σ a c σ' :
  push_child σ a c = Some σ' → same_chain_data σ σ' ∧ size σ' = size σ.
Proof.
  unfold push_child. intros Hp.
  destruct (σ !! a) as [it|] eqn:Ha; [|done]. injection Hp as <-.
  split; [|apply map_size_insert_Some; eauto].
  by apply (same_chain_data_update σ a it
              (λ nd, with_childs (childs nd ++ [c]) nd)).
Qed.

Lemma assign_parent_same σ i p σ' :
  assign_parent σ i p = Some σ' → same_chain_data σ σ' ∧ size σ' = size σ.
Proof.
  unfold assign_parent. intros Hp.
  destruct (σ !! i) as [it|] eqn:Ha; [|done]. injection Hp as <-.
  split; [|apply map_size_insert_Some; eauto].
  by apply (same_chain_data_update σ i it (with_parent_index p)).
Qed.

Lemma chain_same_data σ σ' i l :
  same_chain_data σ σ' → chain σ i l → chain σ' i l.
Proof.
  intros Hs. induction 1 as [|i it l Hi Hit Hc IH]; [constructor|].
  destruct (Hs _ _ Hit) as (it' & Hit' & Hn & _).
  econstructor; [done..|]. by rewrite Hn.
Qed.

Lemma index_same_data σ σ' tab h h' key r :
  same_chain_data σ σ' → (size σ ≤ size σ')%nat →
  index (mk_hash_tree σ tab h) key = Some r → r ≠ _EMPTY_INDEX →
  index (mk_hash_tree σ' tab h') key = Some r.
Proof.
  intros Hs Hsz Hidx Hr. unfold index, table_size in *. simpl in *.
  destruct (N.of_nat (length tab) =? 0); [done|].
  destruct (tab !! _) as [i0|]; [|done]. simpl in *.
  destruct (i0 =? _EMPTY_INDEX); [done|].
  eapply index_walk_stable; [|done..].
  intros j it Hj. destruct (Hs _ _ Hj) as (it' & ? & ? & ? & ?).
  exists it'. auto.
Qed.

Lemma wf_empty : wf empty_tree.
Proof.
  split_and!; [apply tree_wf_empty| |done].
  intros b i Hb. exists [].
  assert (i = _EMPTY_INDEX) as ->; [|constructor].
  destruct b as [|[|b]]; simpl in Hb; by simplify_eq.
Qed.

(** What [insert] does once [_insert] has returned. *)
Lemma insert_after__insert s key value i s1 :
  tree_wf s → _insert s key value = Some (i, s1) →
  ∃ s' ni,
    insert s key value = Some s' ∧
    _table s' = _table s1 ∧
    same_chain_data (_nodes s1) (_nodes s') ∧
    size s' = S (size s) ∧
    _nodes s' !! i = Some ni ∧ pair ni = (key, value) ∧
    (_nodes s = ∅ → _head_index s' = i ∧ parent_index ni = _EMPTY_INDEX) ∧
    (_nodes s ≠ ∅ →
       _head_index s' = _head_index s ∧
       parent_index ni = _head_index s ∧
       ∃ hd hd', _nodes s !! _head_index s = Some hd ∧
                 _nodes s' !! _head_index s = Some hd' ∧
                 childs hd' = childs hd ++ [i]).
Proof.
  intros Hwf Hins.
  destruct (_insert_inv _ _ _ _ _ Hins) as (Hi & HiE & Hh1 & Hu & _).
  set (τ := <[i := fresh_node key value]> (_nodes s)) in *.
  assert (Hsz1 : size (_nodes s1) = S (size (_nodes s))).
  { rewrite (unlinked_size_eq _ _ Hu). by apply map_size_insert_None. }
  destruct (unlinked_lookup_eq _ τ i (fresh_node key value) Hu)
    as (n1 & Hn1 & Hp1 & _ & Hc1 & Hpa1); [apply lookup_insert_eq|].
  simpl in Hp1, Hc1, Hpa1.
  unfold insert. rewrite Hins. simpl. rewrite Hh1.
  destruct (N.eqb_spec (_head_index s) _EMPTY_INDEX) as [He|Hne].
  - pose proof (wf_no_root _ Hwf He) as Hempty.
    eexists _, n1. split; [done|]. simpl. split_and!; try done.
    intros j it Hj. by exists it.
  - destruct (wf_root _ Hwf Hne) as [hd Hhd].
    assert (Hih : _head_index s ≠ i) by congruence.
    destruct (unlinked_lookup_eq _ τ (_head_index s) hd Hu)
      as (hd1 & Hhd1 & _ & _ & Hch1 & _).
    { unfold τ. by rewrite lookup_insert_ne. }
    unfold push_child. rewrite Hhd1. simpl.
    unfold assign_parent. rewrite lookup_insert_ne, Hn1 by done. simpl.
    eexists _, _. split; [done|]. simpl. split_and!.
    + done.
    + eapply same_chain_data_trans.
      * by apply (same_chain_data_update (_nodes s1) (_head_index s) hd1
                    (λ nd, with_childs (childs nd ++ [i]) nd)).
      * apply (same_chain_data_update _ i n1 (with_parent_index (_head_index s)));
          [|done..]. by rewrite lookup_insert_ne.
    + unfold size, hash_tree_size. simpl.
      rewrite !map_size_insert_Some; [done|by eauto|].
      rewrite lookup_insert_ne by done. by eauto.
    + apply lookup_insert_eq.
    + done.
    + intros Hempty. rewrite Hempty in Hhd. by rewrite lookup_empty in Hhd.
    + intros _. split_and!; [done..|].
      exists hd. eexists. split; [done|].
      rewrite lookup_insert_ne, lookup_insert_eq by done.
      split; [done|]. simpl. by rewrite Hch1.
Qed.


Lemma wf_insert s key value s' :
  wf s →
  (load_factor_above_MAX s = true → table_size s * 2 < size_t_range) →
  insert s key value = Some s' → wf s'.
Proof.
  intros (Hwf & Hok & Hts) Hsmall Hs'.
  destruct (_insert_spec s key value (wf_sentinel _ Hwf) Hok Hts Hsmall)
    as (i & s1 & Hins & Hok1 & Hts1).
  destruct (insert_after__insert s key value i s1 Hwf Hins)
    as (s'' & ni & Hs'' & Htab & Hsame & _).
  assert (s'' = s') as -> by congruence.
  split_and!.
  - by eapply tree_wf_insert.
  - intros b x Hb. rewrite Htab in Hb. destruct (Hok1 _ _ Hb) as [l Hl].
    exists l. by eapply chain_same_data.
  - unfold table_size in *. by rewrite Htab.
Qed.

Lemma insert_under_after__insert s key value parent i s1 p :
  _insert s key value = Some (i, s1) →
  index s1 parent = Some p → is_Some (_nodes s1 !! p) →
  ∃ s' ni,
    insert_under s key value parent = Some s' ∧
    _table s' = _table s1 ∧
    same_chain_data (_nodes s1) (_nodes s') ∧
    size s' = S (size s) ∧
    _nodes s' !! i = Some ni ∧ pair ni = (key, value).
Proof.
  intros Hins Hidx [pn Hp].
  destruct (_insert_inv _ _ _ _ _ Hins) as (Hi & HiE & Hh1 & Hu & _).
  assert (Hsz1 : size (_nodes s1) = S (size (_nodes s))).
  { rewrite (unlinked_size_eq _ _ Hu). by apply map_size_insert_None. }
  destruct (unlinked_lookup_eq _ (<[i := fresh_node key value]> (_nodes s))
              i (fresh_node key value) Hu)
    as (n1 & Hn1 & Hp1 & _); [apply lookup_insert_eq|].
  simpl in Hp1.
  unfold insert_under. rewrite Hins. simpl. rewrite Hidx. simpl.
  destruct (push_child (_nodes s1) p i) as [σ1|] eqn:Hpush.
  2:{ unfold push_child in Hpush. by rewrite Hp in Hpush. }
  destruct (push_child_same _ _ _ _ Hpush) as [Hs1 Hz1]. simpl.
  destruct (Hs1 _ _ Hn1) as (n2 & Hn2 & _ & Hp2 & _).
  unfold assign_parent. rewrite Hn2. simpl.
  eexists _, _. split; [done|]. simpl. split_and!.
  - done.
  - eapply same_chain_data_trans; [done|].
    by apply (same_chain_data_update σ1 i n2 (with_parent_index p)).
  - unfold size, hash_tree_size. simpl.
    rewrite map_size_insert_Some by eauto. congruence.
  - apply lookup_insert_eq.
  - simpl. congruence.
Qed.

(** ** Load factor *)

Lemma insert_size s key value s' :
  insert s key value = Some s' →
  size s' = S (size s) ∧
  table_size s' =
    (if load_factor_above_MAX s then wrap_size_t (table_size s * 2)
     else table_size s).
Proof.
  intros Hins. unfold insert in Hins.
  destruct (_insert s key value) as [[i s1]|] eqn:Hi; [|done]. simpl in Hins.
  destruct (_insert_inv _ _ _ _ _ Hi) as (Hnone & _ & _ & Hu & Hts).
  assert (Hsz1 : size (_nodes s1) = S (size (_nodes s))).
  { rewrite (unlinked_size_eq _ _ Hu). by apply map_size_insert_None. }
  destruct (_head_index s1 =? _EMPTY_INDEX).
  - by injection Hins as <-.
  - destruct (push_child _ _ _) as [σ1|] eqn:Hpush; [|done]. simpl in Hins.
    destruct (assign_parent _ _ _) as [σ2|] eqn:Hassign; [|done].
    injection Hins as <-.
    apply push_child_same in Hpush as [_ Hz1].
    apply assign_parent_same in Hassign as [_ Hz2].
    split; [|done]. unfold size, hash_tree_size. simpl. congruence.
Qed.

Lemma insert_under_size s key value parent s' :
  insert_under s key value parent = Some s' →
  size s' = S (size s) ∧
  table_size s' =
    (if load_factor_above_MAX s then wrap_size_t (table_size s * 2)
     else table_size s).
Proof.
  intros Hins. unfold insert_under in Hins.
  destruct (_insert s key value) as [[i s1]|] eqn:Hi; [|done]. simpl in Hins.
  destruct (_insert_inv _ _ _ _ _ Hi) as (Hnone & _ & _ & Hu & Hts).
  assert (Hsz1 : size (_nodes s1) = S (size (_nodes s))).
  { rewrite (unlinked_size_eq _ _ Hu). by apply map_size_insert_None. }
  destruct (index s1 parent) as [p|]; [|done]. simpl in Hins.
  destruct (push_child _ _ _) as [σ1|] eqn:Hpush; [|done]. simpl in Hins.
  destruct (assign_parent _ _ _) as [σ2|] eqn:Hassign; [|done].
  injection Hins as <-.
  apply push_child_same in Hpush as [_ Hz1].
  apply assign_parent_same in Hassign as [_ Hz2].
  split; [|done]. unfold size, hash_tree_size. simpl. congruence.
Qed.

Lemma load_after_growth (n t : N) :
  2 ≤ t → n ≤ t → 9 * t < 10 * n →
  2 * t ≤ 5 * (n + 1) ∧ 10 * (n + 1) ≤ 9 * (2 * t).
Proof. lia. Qed.

(** C5 (as amended): an insert that rehashes and returns, from a state
    with at least two buckets, no more records than buckets and a
    doubling of the table within size_t, has doubled the table and
    returns with MIN_LOAD <= load_factor() <= MAX_LOAD.  An erase that
    rehashes and returns, of a key that resolves to a slot other than the
    root identifier, from a state with at least two buckets, has halved
    the table once, to at least one bucket, and returns with
    load_factor() <= MAX_LOAD; nothing is promised about MIN_LOAD then,
    nor about calls that do not rehash. *)
Theorem load_factor_after_rehash :
  (∀ s key value s',
     2 ≤ table_size s → N.of_nat (size s) ≤ table_size s →
     table_size s * 2 < size_t_range →
     load_factor_above_MAX s = true →
     insert s key value = Some s' →
     table_size s' = 2 * table_size s ∧
     load_factor_at_least_MIN s' ∧ load_factor_at_most_MAX s') ∧
  (∀ s key value parent s',
     2 ≤ table_size s → N.of_nat (size s) ≤ table_size s →
     table_size s * 2 < size_t_range →
     load_factor_above_MAX s = true →
     insert_under s key value parent = Some s' →
     table_size s' = 2 * table_size s ∧
     load_factor_at_least_MIN s' ∧ load_factor_at_most_MAX s') ∧
  (∀ s key i σ2 s',
     2 ≤ table_size s →
     index s key = Some i → i ≠ _head_index s →
     erase_subtree (_nodes s) i = Some σ2 →
     load_factor_below_MIN (with_nodes σ2 s) = true →
     erase s key = Some s' →
     table_size s' = table_size s / 2 ∧ table_size s' ≠ 0 ∧
     load_factor_at_most_MAX s').
Proof.
  assert (Hgrow : ∀ s s' : hash_tree,
    2 ≤ table_size s → N.of_nat (size s) ≤ table_size s →
    table_size s * 2 < size_t_range →
    load_factor_above_MAX s = true →
    size s' = S (size s) →
    table_size s' = wrap_size_t (table_size s * 2) →
    table_size s' = 2 * table_size s ∧
    load_factor_at_least_MIN s' ∧ load_factor_at_most_MAX s').
  { intros s s' H2 Hle Hsmall Hload Hsz Hts.
    unfold wrap_size_t in Hts. rewrite N.mod_small in Hts by done.
    unfold load_factor_above_MAX in Hload.
    destruct (N.eqb_spec (table_size s) 0); [lia|].
    apply N.ltb_lt in Hload.
    unfold load_factor_at_least_MIN, load_factor_at_most_MAX.
    rewrite Hts, Hsz.
    pose proof (load_after_growth (N.of_nat (size s)) (table_size s) H2 Hle Hload).
    lia. }
  split_and!.
  - intros s key value s' H2 Hle Hsmall Hload Hins.
    apply insert_size in Hins as [Hsz Hts]. rewrite Hload in Hts.
    by apply (Hgrow s s').
  - intros s key value parent s' H2 Hle Hsmall Hload Hins.
    apply insert_under_size in Hins as [Hsz Hts]. rewrite Hload in Hts.
    by apply (Hgrow s s').
  - intros s key i σ2 s' H2 Hidx Hne Hes Hload He.
    unfold erase in He. rewrite Hidx in He. simpl in He.
    destruct (N.eqb_spec i (_head_index s)); [done|].
    rewrite Hes in He. simpl in He. rewrite Hload in He.
    apply rehash_inv in He as (Hu & _ & Hts).
    assert (Hts2 : table_size (with_nodes σ2 s) = table_size s) by done.
    rewrite Hts2 in Hts.
    unfold load_factor_below_MIN in Hload. rewrite Hts2 in Hload.
    destruct (N.eqb_spec (table_size s) 0); [done|].
    apply N.ltb_lt in Hload.
    assert (Hsz : size s' = size σ2).
    { unfold size at 1, hash_tree_size. by apply unlinked_size_eq. }
    unfold size at 1, hash_tree_size in Hload. simpl in Hload.
    unfold load_factor_at_most_MAX. rewrite Hts, Hsz.
    pose proof (N.Div0.div_mod (table_size s) 2) as Hdm.
    pose proof (N.mod_upper_bound (table_size s) 2 ltac:(lia)) as Hm.
    split_and!; [done|lia|lia].
Qed.

(** ** Stored keys stay found *)

Lemma insert_map_buckets s b i0 j nj s' :
  chains_ok s →
  _table s !! N.to_nat b = Some i0 →
  _nodes s !! j = Some nj → next_index nj = _EMPTY_INDEX →
  j ≠ _EMPTY_INDEX →
  (∀ l, chain (_nodes s) i0 l → j ∉ l) →
  insert_map s b j = Some s' →
  (∃ i1 l1, _table s' !! N.to_nat b = Some i1 ∧
            chain (_nodes s') i1 l1 ∧ j ∈ l1) ∧
  (∀ b' i1 l1 x, _table s !! b' = Some i1 → chain (_nodes s) i1 l1 →
     x ∈ l1 →
     ∃ i1' l1', _table s' !! b' = Some i1' ∧
                chain (_nodes s') i1' l1' ∧ x ∈ l1').
Proof.
  intros Hok Hb Hj Hnj HjE Hfresh. unfold insert_map. rewrite Hb. simpl.
  destruct (N.eqb_spec i0 _EMPTY_INDEX) as [->|Hi0].
  - intros [= <-]. simpl. split.
    + exists j, [j]. split_and!.
      * apply list_lookup_insert_eq. by eapply lookup_lt_Some.
      * econstructor; [done..|]. rewrite Hnj. constructor.
      * by left.
    + intros b' i1 l1 x Hb' Hc Hx.
      destruct (decide (b' = N.to_nat b)) as [->|Hne].
      * assert (i1 = _EMPTY_INDEX) as -> by congruence.
        apply chain_sentinel in Hc as ->. by apply elem_of_nil in Hx.
      * exists i1, l1. by rewrite list_lookup_insert_ne.
  - destruct (Hok _ _ Hb) as [l Hl].
    destruct (chain_tail_spec _ _ _ (size (_nodes s)) Hl Hi0)
      as (t & it & -> & Htl & Ht & Hnt); [by eapply chain_length|].
    simpl. rewrite Ht. simpl. intros [= <-]. simpl.
    assert (Hjt : j ≠ t) by (intros ->; by eapply Hfresh).
    split.
    + exists i0. eexists. split; [done|]. split.
      * by eapply chain_relink.
      * rewrite decide_True by done. apply elem_of_app. right. by left.
    + intros b' i1 l1 x Hb' Hc Hx. exists i1. eexists. split; [done|]. split.
      * by eapply chain_relink.
      * destruct (decide (t ∈ l1)); [|done]. apply elem_of_app. by left.
Qed.

Lemma in_bucket_insert_map s b j s' x :
  insert_map s b j = Some s' →
  (∀ b' i1 l1 x, _table s !! b' = Some i1 → chain (_nodes s) i1 l1 →
     x ∈ l1 →
     ∃ i1' l1', _table s' !! b' = Some i1' ∧
                chain (_nodes s') i1' l1' ∧ x ∈ l1') →
  in_bucket s x → in_bucket s' x.
Proof.
  intros Hm Hmono (nx & i1 & l1 & Hx & Hb & Hc & Hin).
  apply insert_map_inv in Hm as (Hu & _ & Hlen).
  destruct (unlinked_lookup_eq _ _ x nx Hu) as (nx' & Hx' & _ & Hh & _);
    [done|].
  destruct (Hmono _ _ _ _ Hb Hc Hin) as (i1' & l1' & Hb' & Hc' & Hin').
  exists nx', i1', l1'. unfold table_size. rewrite Hlen, Hh.
  by split_and!.
Qed.

Lemma rehash_loop_buckets todo s s' :
  chains_ok s → table_size s ≠ 0 → NoDup todo →
  (∀ j, j ∈ todo → j ≠ _EMPTY_INDEX ∧ ¬ in_chains s j ∧
     ∃ nj, _nodes s !! j = Some nj ∧ next_index nj = _EMPTY_INDEX) →
  rehash_loop s todo = Some s' →
  (∀ x, x ∈ todo → in_bucket s' x) ∧
  (∀ x, in_bucket s x → in_bucket s' x).
Proof.
  revert s. induction todo as [|j todo IH]; intros s Hok Hts Hnd Htodo Hr.
  { injection Hr as <-. split; [by intros ? ?%elem_of_nil|done]. }
  apply NoDup_cons in Hnd as [Hj Hnd].
  destruct (Htodo j) as (HjE & Hnc & nj & Hnj & Hnx); [by left|].
  simpl in Hr. rewrite Hnj in Hr. simpl in Hr.
  destruct (N.eqb_spec (table_size s) 0) as [|_]; [done|].
  set (b := hash_value nj mod table_size s) in *.
  assert (Hlt : (N.to_nat b < length (_table s))%nat).
  { pose proof (N.mod_lt (hash_value nj) (table_size s) Hts) as Hlt.
    unfold b, table_size in *. lia. }
  destruct (lookup_lt_is_Some_2 _ _ Hlt) as [i0 Hi0].
  assert (Hfresh : ∀ l, chain (_nodes s) i0 l → j ∉ l).
  { intros l Hl Hjl. apply Hnc. by exists (N.to_nat b), i0, l. }
  destruct (insert_map_spec s b i0 j nj) as (s1 & Hm & Hok1 & Hin1 & Hsame);
    [done..|].
  rewrite Hm in Hr. simpl in Hr.
  destruct (insert_map_buckets s b i0 j nj s1 Hok Hi0 Hnj Hnx HjE Hfresh Hm)
    as [Hjb Hmono].
  pose proof (insert_map_inv _ _ _ _ Hm) as (Hu & _ & Hlen).
  assert (Hts1 : table_size s1 = table_size s).
  { unfold table_size. by rewrite Hlen. }
  destruct (IH s1) as [Htodo' Hkeep']; [done|by rewrite Hts1|done| |done|].
  { intros j' Hj'. destruct (Htodo j') as (? & Hnc' & nj' & ? & ?); [by right|].
    split_and!; [done| |].
    - intros [->|?]%Hin1; [done|]. by apply Hnc'.
    - exists nj'. by rewrite Hsame. }
  assert (Hjin : in_bucket s1 j).
  { destruct Hjb as (i1 & l1 & Hb1 & Hc1 & Hjl).
    destruct (unlinked_lookup_eq _ _ j nj Hu) as (nj' & Hnj' & _ & Hh & _);
      [done|].
    exists nj', i1, l1. rewrite Hts1, Hh. by split_and!. }
  split.
  - intros x [->|Hx]%elem_of_cons; [by apply Hkeep'|by apply Htodo'].
  - intros x Hx. apply Hkeep'. by eapply in_bucket_insert_map.
Qed.

(** After a rehash every record is on the chain of its bucket. *)
Lemma rehash_buckets s n s' x :
  _nodes s !! _EMPTY_INDEX = None → n ≠ 0 →
  rehash s n = Some s' → is_Some (_nodes s !! x) → in_bucket s' x.
Proof.
  intros HE Hn Hr [nx Hx]. unfold rehash in Hr.
  eapply rehash_loop_buckets in Hr as [Hall _].
  - apply Hall, iteration_order_elem, elem_of_dom.
    rewrite lookup_unlinked, Hx. by eexists.
  - intros b i [-> _]%lookup_replicate. exists []. constructor.
  - unfold table_size. simpl. rewrite length_replicate. lia.
  - apply iteration_order_NoDup.
  - intros j Hj%iteration_order_elem%elem_of_dom. simpl.
    rewrite lookup_unlinked in Hj |- *.
    destruct (_nodes s !! j) as [nj|] eqn:Hnj; [|by destruct Hj].
    split_and!.
    + congruence.
    + intros (b & i & l & [-> _]%lookup_replicate & Hc & Hin). simpl in *.
      apply chain_sentinel in Hc as ->. by apply elem_of_nil in Hin.
    + by eexists.
Qed.

Lemma index_walk_finds σ h key i0 l x nx fuel :
  chain σ i0 l → x ∈ l → σ !! x = Some nx →
  key_matches nx h key = true → (length l ≤ fuel)%nat →
  ∃ r, index_walk σ h key fuel i0 = Some r ∧ r ≠ _EMPTY_INDEX.
Proof.
  intros Hc. revert fuel.
  induction Hc as [|i it l Hi Hit Hc IH]; intros fuel Hx Hnx Hk Hlen.
  { by apply elem_of_nil in Hx. }
  destruct fuel as [|fuel]; simpl in Hlen; [lia|].
  simpl. rewrite Hit. simpl.
  destruct (key_matches it h key) eqn:Hki.
  { destruct (next_index it =? _EMPTY_INDEX); by eexists. }
  assert (Hxl : x ∈ l).
  { apply elem_of_cons in Hx as [->|?]; [congruence|done]. }
  destruct (N.eqb_spec (next_index it) _EMPTY_INDEX) as [He|Hne].
  { rewrite He in Hc. apply chain_sentinel in Hc as ->.
    by apply elem_of_nil in Hxl. }
  apply IH; [done..|lia].
Qed.

Lemma index_in_bucket s key x nx :
  table_size s ≠ 0 → in_bucket s x → _nodes s !! x = Some nx →
  key_matches nx (hash_of key) key = true →
  ∃ r, index s key = Some r ∧ r ≠ _EMPTY_INDEX.
Proof.
  intros Hts (nx' & i0 & l & Hx & Hb & Hc & Hin) Hnx Hk.
  assert (nx' = nx) as -> by congruence.
  assert (Hh : hash_value nx = hash_of key).
  { unfold key_matches in Hk. apply andb_true_iff in Hk as [Hk _].
    by apply N.eqb_eq in Hk. }
  unfold index. destruct (N.eqb_spec (table_size s) 0); [done|].
  rewrite <- Hh, Hb. simpl.
  assert (Hi0 : i0 ≠ _EMPTY_INDEX).
  { intros ->. apply chain_sentinel in Hc as ->. by apply elem_of_nil in Hin. }
  destruct (N.eqb_spec i0 _EMPTY_INDEX); [done|].
  rewrite Hh. eapply index_walk_finds; [done..|]. by eapply chain_length.
Qed.

(** A key that resolved before [_insert] resolves after it, to a record
    that was there before. *)
Lemma _insert_keeps_stored s key value j s1 key' r :
  wf s →
  (load_factor_above_MAX s = true → table_size s * 2 < size_t_range) →
  _insert s key value = Some (j, s1) →
  index s key' = Some r → r ≠ _EMPTY_INDEX →
  ∃ r1, index s1 key' = Some r1 ∧ r1 ≠ _EMPTY_INDEX ∧
        is_Some (_nodes s1 !! r1) ∧
        (load_factor_above_MAX s = false → r1 = r).
Proof.
  intros (Hwf & Hok & Hts) Hsmall Hins Hidx Hr.
  assert (Hlive : ∀ r1, index s1 key' = Some r1 → r1 ≠ _EMPTY_INDEX →
                        is_Some (_nodes s1 !! r1)).
  { intros r1 Hr1 Hne. unfold index in Hr1.
    destruct (table_size s1 =? 0); [done|].
    destruct (_table s1 !! _) as [i0|]; [|done]. simpl in Hr1.
    destruct (i0 =? _EMPTY_INDEX); [by simplify_eq|].
    destruct (index_walk_found _ _ _ _ _ _ Hr1 Hne) as (? & ? & _).
    by eexists. }
  destruct (load_factor_above_MAX s) eqn:Hload.
  - assert (Hfound : ∃ nr, _nodes s !! r = Some nr ∧
                           key_matches nr (hash_of key') key' = true).
    { unfold index in Hidx. destruct (table_size s =? 0); [done|].
      destruct (_table s !! _) as [i0|]; [|done]. simpl in Hidx.
      destruct (i0 =? _EMPTY_INDEX); [by simplify_eq|].
      by eapply index_walk_found. }
    destruct Hfound as (nr & Hnr & Hk).
    pose proof (_insert_inv _ _ _ _ _ Hins) as (_ & _ & _ & _ & Hts1).
    rewrite Hload in Hts1.
    unfold _insert in Hins. rewrite Hload in Hins.
    destruct (rehash s _) as [s0|] eqn:Hre; [|done]. simpl in Hins.
    assert (Hw : wrap_size_t (table_size s * 2) ≠ 0).
    { unfold wrap_size_t. rewrite N.mod_small by auto. lia. }
    pose proof (rehash_buckets s _ s0 r (wf_sentinel _ Hwf) Hw Hre
                  ltac:(eauto)) as Hbucket.
    pose proof (rehash_inv _ _ _ Hre) as (Hu0 & _ & Hts0).
    destruct (unlinked_lookup_eq _ _ r nr Hu0 Hnr)
      as (nr0 & Hnr0 & Hp0 & Hh0 & _).
    destruct (index_in_bucket s0 key' r nr0) as (r1 & Hr1 & Hne1);
      [by rewrite Hts0|done|done| |].
    { unfold key_matches in *. by rewrite Hp0, Hh0. }
    destruct (table_size _ =? 0); [done|].
    destruct (insert_map _ _ _) as [s3|] eqn:Hm; [|done]. simpl in Hins.
    injection Hins as <- <-.
    assert (Hr1' : index s3 key' = Some r1).
    { eapply emplace_index_stable; [|exact Hm|done..].
      apply not_elem_of_dom, emplace_slot_fresh. }
    exists r1. split_and!; [done|done|by apply Hlive|done].
  - pose proof (_insert_index_stable _ _ _ _ _ _ _ Hload Hins Hidx Hr) as Hr1.
    exists r. split_and!; [done|done|by apply Hlive|done].
Qed.


(** ** Traversal *)

Lemma childs_of_lookup σ j nd : σ !! j = Some nd → childs_of σ j = childs nd.
Proof. intros Hj. unfold childs_of. by rewrite Hj. Qed.

Lemma child_of_childs_of σ a b : child_of σ a b ↔ b ∈ childs_of σ a.
Proof.
  unfold child_of, childs_of. destruct (σ !! a) as [nd|]; simpl.
  - split; [by intros (? & [= <-] & ?)|by eauto].
  - split; [by intros (? & ? & _)|by intros ?%elem_of_nil].
Qed.

(** A sequence that holds the root and the child vectors of its entries
    holds every record below the root. *)
Lemma bfs_closed σ hd l j :
  l = hd :: (l ≫= childs_of σ) → reach σ hd j → j ∈ l.
Proof.
  intros Hl. revert j. apply rtc_ind_r.
  - rewrite Hl. by left.
  - intros a b _ Hab%child_of_childs_of Ha. rewrite Hl. right.
    apply list_elem_of_bind. by exists a.
Qed.

Lemma covering_length σ l :
  NoDup l → (∀ j, is_Some (σ !! j) → j ∈ l) → (size σ ≤ length l)%nat.
Proof.
  intros Hnd Hcov.
  rewrite <- size_dom, <- (size_list_to_set (C := gset N) l Hnd).
  apply subseteq_size. intros j Hj%elem_of_dom.
  by apply elem_of_list_to_set, Hcov.
Qed.

(** While records are left, the visitation sequence is longer than the
    position. *)
Lemma bfs_progress s visit a :
  connected s → bfs_inv (_nodes s) (_head_index s) visit a →
  (a < size (_nodes s))%nat → (a < length visit)%nat.
Proof.
  intros Hconn (Heq & Hnd & Hlive) Ha.
  destruct (decide (a < length visit)%nat) as [|Hge]; [done|exfalso].
  rewrite take_ge in Heq by lia.
  assert (size (_nodes s) ≤ length visit)%nat; [|lia].
  apply covering_length; [done|]. intros j Hj. eapply bfs_closed; [done|]. by apply Hconn.
Qed.

Lemma bfs_step s visit a x nd :
  tree_wf s →
  bfs_inv (_nodes s) (_head_index s) visit a →
  visit !! a = Some x → _nodes s !! x = Some nd →
  bfs_inv (_nodes s) (_head_index s) (visit ++ childs nd) (S a).
Proof.
  intros Hwf (Heq & Hnd & Hlive) Hx Hnx.
  pose proof (lookup_lt_Some _ _ _ Hx) as Hlt.
  assert (Htake : take (S a) (visit ++ childs nd) = take a visit ++ [x]).
  { rewrite take_app_le by lia. by apply take_S_r. }
  split_and!.
  - rewrite Htake, bind_app. simpl. rewrite app_nil_r.
    rewrite (childs_of_lookup _ _ _ Hnx), app_comm_cons. by rewrite <- Heq.
  - apply NoDup_app. split_and!; [done| |by eapply wf_childs_NoDup].
    intros c Hc Hcx.
    destruct (wf_child _ Hwf _ _ _ Hnx Hcx) as (cn & Hcn & Hpc).
    rewrite Heq in Hc. apply elem_of_cons in Hc as [->|Hc].
    + assert (HxE : x = _EMPTY_INDEX).
      { rewrite <- Hpc. by apply (wf_parentless _ Hwf _ _ Hcn). }
      pose proof (wf_sentinel _ Hwf) as HE. congruence.
    + apply list_elem_of_bind in Hc as (y & Hcy%child_of_childs_of & Hy).
      destruct Hcy as (ny & Hny & Hcy).
      destruct (wf_child _ Hwf _ _ _ Hny Hcy) as (cn' & Hcn' & Hpc').
      assert (y = x) as -> by congruence.
      rewrite <- (take_drop_middle _ _ _ Hx) in Hnd.
      apply NoDup_app in Hnd as (_ & Hdisj & _).
      apply (Hdisj x Hy). by left.
  - intros c [Hc|Hc]%elem_of_app; [by apply Hlive|].
    destruct (wf_child _ Hwf _ _ _ Hnx Hc) as (cn & -> & _). by eexists.
Qed.

Lemma traverse_loop_spec s fuel visit a :
  tree_wf s → connected s → N.of_nat (size (_nodes s)) < size_t_range →
  bfs_inv (_nodes s) (_head_index s) visit a →
  (a + fuel = size (_nodes s))%nat →
  ∃ out vf,
    traverse_loop (_nodes s) (end_ s) fuel (mk_iterator visit (N.of_nat a))
      = Some out ∧
    bfs_inv (_nodes s) (_head_index s) vf (size (_nodes s)) ∧
    take a vf = take a visit ∧
    out.*1 = drop a vf ∧
    (∀ j v, (j, v) ∈ out →
       ∃ nd, _nodes s !! j = Some nd ∧ v = snd (pair nd)) ∧
    (∀ a', (a ≤ a')%nat → (a' < size (_nodes s))%nat →
       (a' ≤ length (take a' vf ≫= childs_of (_nodes s)))%nat).
Proof.
  intros Hwf Hconn Hsmall. revert visit a.
  induction fuel as [|fuel IH]; intros visit a Hinv Hfuel.
  - assert (a = size (_nodes s)) as -> by lia.
    exists [], visit. split_and!.
    + simpl. unfold iter_neq, end_. simpl.
      unfold size at 2, hash_tree_size. by rewrite N.eqb_refl.
    + done.
    + done.
    + simpl. symmetry. apply drop_ge.
      destruct Hinv as (_ & Hnd & Hlive). by apply NoDup_live_length.
    + by intros j v ?%elem_of_nil.
    + intros a' ? ?. lia.
  - assert (Ha : (a < size (_nodes s))%nat) by lia.
    pose proof (bfs_progress s visit a Hconn Hinv Ha) as Hlt.
    destruct (lookup_lt_is_Some_2 _ _ Hlt) as [x Hx].
    destruct Hinv as (Heq & Hnd & Hlive).
    destruct (Hlive x) as [nd Hnx]; [by eapply list_elem_of_lookup_2|].
    pose proof (bfs_step s visit a x nd Hwf (conj Heq (conj Hnd Hlive)) Hx Hnx)
      as Hinv'.
    destruct (IH (visit ++ childs nd) (S a) Hinv' ltac:(lia))
      as (out & vf & Hloop & Hinvf & Htake & Hout & Hval & Hahead).
    assert (Htake' : take a vf = take a visit).
    { assert (take a vf = take a (take (S a) vf)) as ->.
      { rewrite take_take. f_equal. lia. }
      rewrite Htake, take_take.
      replace (a `min` S a)%nat with a by lia. apply take_app_le. lia. }
    assert (Hvfx : vf !! a = Some x).
    { rewrite <- (lookup_take_lt _ (S a)) by lia. rewrite Htake.
      rewrite lookup_take_lt by lia. by rewrite lookup_app_l by lia. }
    exists ((x, snd (pair nd)) :: out), vf. split_and!.
    + simpl. unfold iter_neq at 1, end_ at 1. simpl.
      unfold size at 1, hash_tree_size.
      destruct (N.eqb_spec (N.of_nat a) (N.of_nat (size (_nodes s)))); [lia|].
      simpl. unfold current, deref, incr, current. simpl.
      rewrite Nat2N.id, Hx. simpl. rewrite Hnx. simpl.
      replace (wrap_size_t (N.of_nat a + 1)) with (N.of_nat (S a)).
      2:{ unfold wrap_size_t. rewrite N.mod_small; lia. }
      by rewrite Hloop.
    + done.
    + done.
    + rewrite fmap_cons, Hout. simpl. symmetry. by apply drop_S.
    + intros j v [[= -> ->]|Hin]%elem_of_cons; [by eauto|by apply Hval].
    + intros a' Hle Hlt'. destruct (decide (a' = a)) as [->|]; [|apply Hahead; lia].
      rewrite Htake'.
      assert (length visit = S (length (take a visit ≫= childs_of (_nodes s)))).
      { by rewrite Heq at 1. }
      lia.
Qed.

(** C8 (as amended): on a map whose links agree, whose records are all
    the root or below it and whose size is below 2^64, the loop from
    begin() to end() returns after size() steps, has dereferenced every
    record once, each with its stored value, and goes breadth first: the sequence of slots it visits is the root followed by
    the child vectors of the visited records in visiting order, so that a
    child comes after its parent and the children of a record come next
    to each other in the order of its child vector.  On the empty map
    begin() equals end(). *)
Theorem traverse_breadth_first s :
  tree_wf s → connected s → N.of_nat (size s) < size_t_range →
  ∃ out,
    traverse s = Some out ∧
    length out = size s ∧
    NoDup out.*1 ∧
    (∀ j, j ∈ out.*1 ↔ is_Some (_nodes s !! j)) ∧
    (∀ j v, (j, v) ∈ out →
       ∃ nd, _nodes s !! j = Some nd ∧ v = snd (pair nd)) ∧
    (_nodes s ≠ ∅ →
       out.*1 = _head_index s :: (out.*1 ≫= childs_of (_nodes s))) ∧
    (∀ a p c, out.*1 !! a = Some p → c ∈ childs_of (_nodes s) p →
       ∃ b, out.*1 !! b = Some c ∧ (a < b)%nat) ∧
    (∀ p, p ∈ out.*1 →
       ∃ l1 l2, out.*1 = l1 ++ childs_of (_nodes s) p ++ l2) ∧
    (_nodes s = ∅ → iter_neq (begin s) (end_ s) = false).
Proof.
  intros Hwf Hconn Hsmall.
  destruct (decide (_head_index s = _EMPTY_INDEX)) as [He|Hne].
  - pose proof (wf_no_root _ Hwf He) as Hempty.
    assert (Hsz : size (_nodes s) = 0%nat) by (by rewrite Hempty, map_size_empty).
    exists []. unfold traverse. unfold size at 1, hash_tree_size. rewrite Hsz.
    assert (Hstop : iter_neq (begin s) (end_ s) = false).
    { unfold iter_neq, begin, end_. simpl.
      unfold size, hash_tree_size. by rewrite Hsz. }
    simpl. rewrite Hstop. split_and!; try done.
    + constructor.
    + intros j. rewrite Hempty, lookup_empty. split.
      * by intros ?%elem_of_nil.
      * by intros [? ?].
    + by intros j v ?%elem_of_nil.
    + intros p ?%elem_of_nil. done.
  - destruct (wf_root _ Hwf Hne) as [hn Hhn].
    assert (Hinv0 : bfs_inv (_nodes s) (_head_index s) [_head_index s] 0).
    { split_and!; [done|apply NoDup_singleton|].
      intros x ->%list_elem_of_singleton. by eexists. }
    destruct (traverse_loop_spec s (size (_nodes s)) [_head_index s] 0
                Hwf Hconn Hsmall Hinv0 ltac:(lia))
      as (out & vf & Hloop & (Heq & Hnd & Hlive) & _ & Hout & Hval & Hahead).
    rewrite drop_0 in Hout.
    assert (Hlen : length vf = size (_nodes s)).
    { apply Nat.le_antisymm; [by apply NoDup_live_length|].
      destruct (decide (size (_nodes s) ≤ length vf)%nat) as [|Hlt]; [done|].
      rewrite take_ge in Heq by lia.
      apply covering_length; [done|]. intros j Hj.
      eapply bfs_closed; [done|]. by apply Hconn. }
    rewrite take_ge in Heq by lia.
    exists out. rewrite Hout. split_and!.
    + done.
    + change (size s) with (size (_nodes s)).
      rewrite <- Hlen, <- Hout. by rewrite length_fmap.
    + done.
    + intros j. split; [by apply Hlive|]. intros Hj.
      eapply bfs_closed; [done|]. by apply Hconn.
    + done.
    + done.
    + intros a p c Hp Hc.
      pose proof (lookup_lt_Some _ _ _ Hp) as Hlt. rewrite Hlen in Hlt.
      pose proof (Hahead a ltac:(lia) Hlt) as Hah.
      apply list_elem_of_split in Hc as (m1 & m2 & Hc).
      pose proof (take_drop_middle _ _ _ Hp) as Hmid.
      pose proof (f_equal (λ l, l ≫= childs_of (_nodes s)) Hmid) as Hb.
      simpl in Hb. rewrite bind_app, bind_cons, Hc in Hb.
      set (front := _head_index s ::
                      (take a vf ≫= childs_of (_nodes s)) ++ m1).
      assert (Hvf : vf = front ++ c ::
                (m2 ++ (drop (S a) vf ≫= childs_of (_nodes s)))).
      { etransitivity; [exact Heq|]. rewrite <- Hb. unfold front. simpl.
        f_equal. by rewrite <- !app_assoc. }
      exists (length front). split.
      * rewrite Hvf. by apply list_lookup_middle.
      * unfold front. simpl. rewrite length_app. lia.
    + intros p (l1 & l2 & Hp)%list_elem_of_split.
      exists (_head_index s :: (l1 ≫= childs_of (_nodes s))),
             (l2 ≫= childs_of (_nodes s)).
      etransitivity; [exact Heq|].
      pose proof (f_equal (λ l, l ≫= childs_of (_nodes s)) Hp) as Hb.
      simpl in Hb. rewrite bind_app, bind_cons in Hb. by rewrite Hb.
    + intros Hempty. rewrite Hempty in Hhn. by rewrite lookup_empty in Hhn.
Qed.

(** ** Lookup on maps whose records are all chained *)

Lemma index_walk_ends σ h key i0 l fuel :
  chain σ i0 l → i0 ≠ _EMPTY_INDEX → (length l ≤ fuel)%nat →
  ∃ r, index_walk σ h key fuel i0 = Some r.
Proof.
  intros Hc. revert fuel.
  induction Hc as [|i it l Hi Hit Hc IH]; intros fuel Hne Hlen; [done|].
  destruct fuel as [|fuel]; simpl in Hlen; [lia|].
  simpl. rewrite Hit. simpl.
  destruct (N.eqb_spec (next_index it) _EMPTY_INDEX) as [He|Hn];
    [by eexists|].
  destruct (key_matches it h key); [by eexists|].
  apply IH; [done|lia].
Qed.

Lemma bucket_of_hash s h :
  table_size s ≠ 0 →
  ∃ i0, _table s !! N.to_nat (h mod table_size s) = Some i0.
Proof.
  intros Hts. apply lookup_lt_is_Some_2.
  pose proof (N.mod_lt h (table_size s) Hts). unfold table_size in *. lia.
Qed.

Lemma index_ends s key :
  chains_ok s → table_size s ≠ 0 →
  ∃ r, index s key = Some r ∧
       (r ≠ _EMPTY_INDEX →
        ∃ nr, _nodes s !! r = Some nr ∧
              key_matches nr (hash_of key) key = true).
Proof.
  intros Hok Hts. unfold index.
  destruct (N.eqb_spec (table_size s) 0); [done|].
  destruct (bucket_of_hash s (hash_of key) Hts) as [i0 Hi0].
  rewrite Hi0. simpl.
  destruct (N.eqb_spec i0 _EMPTY_INDEX) as [->|Hne].
  { by eexists. }
  destruct (Hok _ _ Hi0) as [l Hl].
  destruct (index_walk_ends (_nodes s) (hash_of key) key i0 l
              (size (_nodes s)) Hl Hne) as [r Hr].
  { by eapply chain_length. }
  exists r. split; [done|]. intros HrE. by eapply index_walk_found.
Qed.

Lemma index_stored s key :
  chains_ok s → table_size s ≠ 0 → indexed s →
  ∃ r, index s key = Some r ∧
       (r ≠ _EMPTY_INDEX ↔ stored s key) ∧
       (r ≠ _EMPTY_INDEX →
        ∃ nr, _nodes s !! r = Some nr ∧
              key_matches nr (hash_of key) key = true).
Proof.
  intros Hok Hts Hidx.
  destruct (index_ends s key Hok Hts) as (r & Hr & Hfound).
  exists r. split_and!; [done| |done]. split.
  - intros (nr & Hnr & Hk)%Hfound. by exists r, nr.
  - intros (x & nx & Hx & Hk).
    destruct (index_in_bucket s key x nx) as (r' & Hr' & Hne);
      [done|by apply Hidx|done..|].
    congruence.
Qed.

Lemma same_chain_data_dom σ σ' x :
  same_chain_data σ σ' → size σ' = size σ →
  is_Some (σ' !! x) → is_Some (σ !! x).
Proof.
  intros Hsame Hsz Hx.
  assert (Hsub : dom σ ⊆ dom σ').
  { intros j [it Hj]%elem_of_dom. destruct (Hsame _ _ Hj) as (it' & Hj' & _).
    apply elem_of_dom. by eexists. }
  apply set_subseteq_size_eq in Hsub.
  - apply elem_of_dom. rewrite Hsub. by apply elem_of_dom.
  - rewrite !size_dom. lia.
Qed.

Lemma in_bucket_same_data s1 s' x :
  _table s' = _table s1 → same_chain_data (_nodes s1) (_nodes s') →
  in_bucket s1 x → in_bucket s' x.
Proof.
  intros Htab Hsame (nx & i0 & l & Hx & Hb & Hc & Hin).
  destruct (Hsame _ _ Hx) as (nx' & Hx' & _ & _ & Hh).
  exists nx', i0, l. unfold table_size in *. rewrite Htab, Hh.
  split_and!; [done..| |done]. by eapply chain_same_data.
Qed.

Lemma indexed_same_data s1 s' :
  _table s' = _table s1 → same_chain_data (_nodes s1) (_nodes s') →
  size (_nodes s') = size (_nodes s1) →
  indexed s1 → indexed s'.
Proof.
  intros Htab Hsame Hsz Hidx x Hx.
  eapply in_bucket_same_data; [done..|].
  apply Hidx. by eapply same_chain_data_dom.
Qed.

Lemma chains_ok_same_data s1 s' :
  _table s' = _table s1 → same_chain_data (_nodes s1) (_nodes s') →
  chains_ok s1 → chains_ok s'.
Proof.
  intros Htab Hsame Hok b x Hb. rewrite Htab in Hb.
  destruct (Hok _ _ Hb) as [l Hl]. exists l. by eapply chain_same_data.
Qed.

(** The new record of [_insert] goes on the chain of its bucket, and the
    records that were on their chains stay there. *)
Lemma emplace_indexed s0 key value j s3 :
  chains_ok s0 → indexed s0 → table_size s0 ≠ 0 →
  _nodes s0 !! j = None → j ≠ _EMPTY_INDEX →
  insert_map (with_nodes (<[j := fresh_node key value]> (_nodes s0)) s0)
    (hash_of key mod table_size s0) j = Some s3 →
  indexed s3.
Proof.
  intros Hok Hidx Hts Hj HjE Hm.
  set (s2 := with_nodes (<[j := fresh_node key value]> (_nodes s0)) s0) in *.
  set (b := hash_of key mod table_size s0) in *.
  assert (Hok2 : chains_ok s2).
  { intros b' x Hb'. simpl in *. destruct (Hok _ _ Hb') as [l Hl].
    exists l. by apply chain_insert_fresh. }
  destruct (bucket_of_hash s0 (hash_of key) Hts) as [i0 Hi0]. fold b in Hi0.
  assert (Hfresh : ∀ l, chain (_nodes s2) i0 l → j ∉ l).
  { intros l Hl Hil. simpl in *. destruct (Hok _ _ Hi0) as [l' Hl'].
    pose proof (chain_insert_fresh _ _ _ j (fresh_node key value) Hl' Hj)
      as Hl''.
    rewrite (chain_functional _ _ _ _ Hl Hl'') in Hil.
    destruct (chain_live _ _ _ _ Hl' Hil) as [_ [? ?]]. congruence. }
  assert (Hj2 : _nodes s2 !! j = Some (fresh_node key value)).
  { simpl. apply lookup_insert_eq. }
  destruct (insert_map_buckets s2 b i0 j (fresh_node key value) s3
              Hok2 Hi0 Hj2 eq_refl HjE Hfresh Hm) as [Hjb Hmono].
  pose proof (insert_map_inv _ _ _ _ Hm) as (Hu & _ & Hlen).
  assert (Hts3 : table_size s3 = table_size s0).
  { unfold table_size. by rewrite Hlen. }
  intros x [nx Hx].
  destruct (unlinked_lookup_eq (_nodes s2) (_nodes s3) x nx (eq_sym Hu) Hx)
    as (nx2 & Hx2 & _ & Hh & _).
  destruct (decide (x = j)) as [->|Hxj].
  - destruct Hjb as (i1 & l1 & Hb1 & Hc1 & Hjl).
    assert (nx2 = fresh_node key value) as -> by congruence.
    exists nx, i1, l1. rewrite Hts3, <- Hh. by split_and!.
  - eapply in_bucket_insert_map; [exact Hm|exact Hmono|].
    simpl in Hx2. rewrite lookup_insert_ne in Hx2 by done.
    destruct (Hidx x) as (nx0 & i1 & l1 & Hx0 & Hb1 & Hc1 & Hin1);
      [by eexists|].
    exists nx0, i1, l1. split_and!; [|done| |done].
    + simpl. by rewrite lookup_insert_ne.
    + simpl. by apply chain_insert_fresh.
Qed.

Lemma _insert_indexed s key value j s1 :
  wf s → indexed s →
  (load_factor_above_MAX s = true → table_size s * 2 < size_t_range) →
  _insert s key value = Some (j, s1) →
  chains_ok s1 ∧ table_size s1 ≠ 0 ∧ indexed s1.
Proof.
  intros (Hwf & Hok & Hts) Hidx Hsmall Hins.
  destruct (_insert_spec s key value (wf_sentinel _ Hwf) Hok Hts Hsmall)
    as (j' & s1' & Hins' & Hok1 & Hts1).
  assert (j' = j ∧ s1' = s1) as [-> ->] by (split; congruence).
  split_and!; [done..|]. clear Hins'.
  unfold _insert in Hins.
  assert (H0 : ∃ s0, (if load_factor_above_MAX s
                      then rehash s (wrap_size_t (table_size s * 2))
                      else Some s) = Some s0 ∧
                     chains_ok s0 ∧ table_size s0 ≠ 0 ∧ indexed s0).
  { destruct (load_factor_above_MAX s); [|by eauto].
    assert (Hw : wrap_size_t (table_size s * 2) ≠ 0).
    { unfold wrap_size_t. rewrite N.mod_small by auto. lia. }
    destruct (rehash_spec s (wrap_size_t (table_size s * 2)))
      as (s0 & Hr & Hok0); [by apply wf_sentinel|by left|].
    exists s0. split_and!; [done|done| |].
    - apply rehash_inv in Hr as (_ & _ & ->). done.
    - intros x Hx. eapply rehash_buckets; [by apply wf_sentinel|exact Hw|done|].
      apply rehash_inv in Hr as (Hu & _ & _). destruct Hx as [nx Hx].
      destruct (unlinked_lookup_eq _ _ x nx (eq_sym Hu) Hx) as (? & ? & _).
      by eexists. }
  destruct H0 as (s0 & Hs0 & Hok0 & Hts0 & Hidx0).
  rewrite Hs0 in Hins. simpl in Hins.
  unfold table_size at 1 in Hins. simpl in Hins. fold (table_size s0) in Hins.
  destruct (N.eqb_spec (table_size s0) 0); [done|].
  destruct (insert_map _ _ _) as [s3|] eqn:Hm; [|done]. simpl in Hins.
  injection Hins as <- <-.
  eapply emplace_indexed; [done..| | |exact Hm].
  - apply not_elem_of_dom, emplace_slot_fresh.
  - apply emplace_slot_valid.
Qed.

(** A key that resolves to no record resolves, after [_insert] of a pair
    with that key, to the new record. *)
Lemma _insert_resolves_new s key value j s1 :
  wf s → indexed s →
  (load_factor_above_MAX s = true → table_size s * 2 < size_t_range) →
  keyeq key key = true →
  index s key = Some _EMPTY_INDEX →
  _insert s key value = Some (j, s1) →
  index s1 key = Some j.
Proof.
  intros Hwfs Hidx Hsmall Hrefl Habs Hins.
  pose proof Hwfs as (Hwf & Hok & Hts).
  destruct (_insert_indexed s key value j s1 Hwfs Hidx Hsmall Hins)
    as (Hok1 & Hts1 & Hidx1).
  destruct (_insert_inv _ _ _ _ _ Hins) as (Hj & HjE & _ & Hu & _).
  destruct (unlinked_lookup_eq _ (<[j := fresh_node key value]> (_nodes s))
              j (fresh_node key value) Hu)
    as (nj & Hnj & Hpj & Hhj & _); [apply lookup_insert_eq|].
  destruct (index_stored s1 key Hok1 Hts1 Hidx1) as (r & Hr & Hiff & Hfound).
  assert (HrE : r ≠ _EMPTY_INDEX).
  { apply Hiff. exists j, nj. split; [done|]. unfold key_matches.
    rewrite Hpj, Hhj. simpl. by rewrite N.eqb_refl. }
  destruct (decide (r = j)) as [->|Hrj]; [done|]. exfalso.
  destruct (Hfound HrE) as (nr & Hnr & Hk).
  destruct (unlinked_lookup_eq _ _ r nr (eq_sym Hu) Hnr)
    as (nr0 & Hnr0 & Hp0 & Hh0 & _).
  rewrite lookup_insert_ne in Hnr0 by done.
  destruct (index_in_bucket s key r nr0) as (r' & Hr' & Hne);
    [done|apply Hidx; by eexists|done| |congruence].
  unfold key_matches in *. by rewrite Hp0, Hh0.
Qed.


Lemma index_found s key r :
  index s key = Some r → r ≠ _EMPTY_INDEX →
  ∃ nr, _nodes s !! r = Some nr ∧
        key_matches nr (hash_of key) key = true.
Proof.
  intros Hr Hne. unfold index in Hr.
  destruct (table_size s =? 0); [done|].
  destruct (_table s !! _) as [i0|]; [|done]. simpl in Hr.
  destruct (i0 =? _EMPTY_INDEX); [by simplify_eq|].
  by eapply index_walk_found.
Qed.

Lemma _insert_size s key value j s1 :
  _insert s key value = Some (j, s1) →
  size (_nodes s1) = S (size (_nodes s)).
Proof.
  intros Hins.
  destruct (_insert_inv _ _ _ _ _ Hins) as (Hj & _ & _ & Hu & _).
  rewrite (unlinked_size_eq _ _ Hu). by apply map_size_insert_None.
Qed.

Lemma _insert_old_record s key value j s1 x nx1 :
  _insert s key value = Some (j, s1) →
  _nodes s1 !! x = Some nx1 → x ≠ j →
  ∃ nx, _nodes s !! x = Some nx ∧ pair nx = pair nx1 ∧
        hash_value nx = hash_value nx1 ∧ childs nx = childs nx1 ∧
        parent_index nx = parent_index nx1.
Proof.
  intros Hins Hx Hxj.
  destruct (_insert_inv _ _ _ _ _ Hins) as (_ & _ & _ & Hu & _).
  destruct (unlinked_lookup_eq _ _ x nx1 (eq_sym Hu) Hx)
    as (nx & Hnx & ?).
  rewrite lookup_insert_ne in Hnx by done. by exists nx.
Qed.

Lemma _insert_new_record s key value j s1 :
  _insert s key value = Some (j, s1) →
  ∃ nj, _nodes s1 !! j = Some nj ∧ pair nj = (key, value) ∧
        hash_value nj = hash_of key ∧ childs nj = [] ∧
        parent_index nj = _EMPTY_INDEX.
Proof.
  intros Hins.
  destruct (_insert_inv _ _ _ _ _ Hins) as (_ & _ & _ & Hu & _).
  destruct (unlinked_lookup_eq _ (<[j := fresh_node key value]> (_nodes s))
              j (fresh_node key value) Hu)
    as (nj & ? & ? & ? & ? & ?); [apply lookup_insert_eq|].
  by exists nj.
Qed.

(** A key that resolved before [_insert] resolves after it, to a record
    that was there before and has the hash and the key. *)
Lemma _insert_keeps_old s key value j s1 key' r :
  wf s →
  (load_factor_above_MAX s = true → table_size s * 2 < size_t_range) →
  _insert s key value = Some (j, s1) →
  index s key' = Some r → r ≠ _EMPTY_INDEX →
  ∃ r1 nr, index s1 key' = Some r1 ∧ r1 ≠ _EMPTY_INDEX ∧ r1 ≠ j ∧
           _nodes s !! r1 = Some nr ∧
           key_matches nr (hash_of key') key' = true ∧
           (load_factor_above_MAX s = false → r1 = r).
Proof.
  intros (Hwf & Hok & Hts) Hsmall Hins Hidx Hr.
  destruct (index_found _ _ _ Hidx Hr) as (nr & Hnr & Hk).
  pose proof (_insert_inv _ _ _ _ _ Hins) as (Hj & _ & _ & _ & _).
  destruct (load_factor_above_MAX s) eqn:Hload.
  - unfold _insert in Hins. rewrite Hload in Hins.
    destruct (rehash s _) as [s0|] eqn:Hre; [|done]. simpl in Hins.
    assert (Hw : wrap_size_t (table_size s * 2) ≠ 0).
    { unfold wrap_size_t. rewrite N.mod_small by auto. lia. }
    pose proof (rehash_buckets s _ s0 r (wf_sentinel _ Hwf) Hw Hre
                  ltac:(eauto)) as Hbucket.
    pose proof (rehash_inv _ _ _ Hre) as (Hu0 & _ & Hts0).
    destruct (unlinked_lookup_eq _ _ r nr Hu0 Hnr)
      as (nr0 & Hnr0 & Hp0 & Hh0 & _).
    destruct (index_in_bucket s0 key' r nr0) as (r1 & Hr1 & Hne1);
      [by rewrite Hts0|done|done| |].
    { unfold key_matches in *. by rewrite Hp0, Hh0. }
    destruct (index_found _ _ _ Hr1 Hne1) as (n1 & Hn1 & Hk1).
    destruct (unlinked_lookup_eq _ _ r1 n1 (eq_sym Hu0) Hn1)
      as (n1' & Hn1' & Hp1 & Hh1 & _).
    destruct (table_size _ =? 0); [done|].
    destruct (insert_map _ _ _) as [s3|] eqn:Hm; [|done]. simpl in Hins.
    injection Hins as <- <-.
    assert (Hfresh : _nodes s0 !! emplace_slot (dom (_nodes s0)) = None).
    { apply not_elem_of_dom, emplace_slot_fresh. }
    assert (Hr1' : index s3 key' = Some r1).
    { eapply emplace_index_stable; [exact Hfresh|exact Hm|done..]. }
    exists r1, n1'. split_and!; [done|done|congruence|done| |done].
    unfold key_matches in *. by rewrite Hp1, Hh1.
  - pose proof (_insert_index_stable _ _ _ _ _ _ _ Hload Hins Hidx Hr) as Hr1.
    exists r, nr. split_and!; [done|done|congruence|done..].
Qed.

(** Lookup after the linking that follows [_insert]. *)
Lemma linked_index s key value j s1 s' key' r :
  _insert s key value = Some (j, s1) →
  _table s' = _table s1 → same_chain_data (_nodes s1) (_nodes s') →
  size s' = S (size s) →
  index s1 key' = Some r → r ≠ _EMPTY_INDEX →
  index s' key' = Some r.
Proof.
  intros Hins Htab Hsame Hsz Hidx Hr.
  pose proof (_insert_size _ _ _ _ _ Hins) as Hsz1.
  destruct s' as [σ' tab' h'], s1 as [σ1 tab1 h1]. simpl in *. subst tab'.
  eapply index_same_data; [exact Hsame| |exact Hidx|done].
  unfold size, hash_tree_size in Hsz. simpl in Hsz. lia.
Qed.

Lemma at_key_found s key r nr :
  index s key = Some r → _nodes s !! r = Some nr →
  at_key s key = Some (snd (pair nr)).
Proof. intros Hr Hnr. unfold at_key. rewrite Hr. simpl. by rewrite Hnr. Qed.

(** [insert] and [insert] with a parent key, seen from [_insert]: the
    linking leaves the table and the chain data alone. *)
Lemma insert_link s key value s' :
  tree_wf s → insert s key value = Some s' →
  ∃ j s1, _insert s key value = Some (j, s1) ∧
          _table s' = _table s1 ∧
          same_chain_data (_nodes s1) (_nodes s') ∧
          size s' = S (size s).
Proof.
  intros Hwf Hs'.
  destruct (_insert s key value) as [[j s1]|] eqn:Hins.
  2:{ unfold insert in Hs'. by rewrite Hins in Hs'. }
  destruct (insert_after__insert s key value j s1 Hwf Hins)
    as (s'' & nj & Hs'' & Htab & Hsame & Hsz & _).
  assert (s'' = s') as -> by congruence. by exists j, s1.
Qed.

Lemma insert_under_link s key value parent s' :
  insert_under s key value parent = Some s' →
  ∃ j s1 p, _insert s key value = Some (j, s1) ∧
            index s1 parent = Some p ∧ is_Some (_nodes s1 !! p) ∧
            _table s' = _table s1 ∧
            same_chain_data (_nodes s1) (_nodes s') ∧
            size s' = S (size s).
Proof.
  intros Hs'. pose proof Hs' as Hs0. unfold insert_under in Hs0.
  destruct (_insert s key value) as [[j s1]|] eqn:Hins; [|done].
  simpl in Hs0.
  destruct (index s1 parent) as [p|] eqn:Hp; [|done]. simpl in Hs0.
  assert (Hlive : is_Some (_nodes s1 !! p)).
  { unfold push_child in Hs0. destruct (_nodes s1 !! p); [by eexists|done]. }
  destruct (insert_under_after__insert s key value parent j s1 p Hins Hp Hlive)
    as (s'' & nj & Hs'' & Htab & Hsame & Hsz & _).
  assert (s'' = s') as -> by congruence. by exists j, s1, p.
Qed.

Lemma wf_insert_under s key value parent s' :
  wf s →
  (load_factor_above_MAX s = true → table_size s * 2 < size_t_range) →
  _head_index s ≠ _EMPTY_INDEX →
  insert_under s key value parent = Some s' → wf s'.
Proof.
  intros (Hwf & Hok & Hts) Hsmall Hhd Hs'.
  destruct (insert_under_link _ _ _ _ _ Hs')
    as (j & s1 & p & Hins & _ & _ & Htab & Hsame & _).
  destruct (_insert_spec s key value (wf_sentinel _ Hwf) Hok Hts Hsmall)
    as (j' & s1' & Hins' & Hok1 & Hts1).
  assert (s1' = s1) as -> by congruence.
  split_and!.
  - by eapply tree_wf_insert_under.
  - by eapply chains_ok_same_data.
  - unfold table_size in *. by rewrite Htab.
Qed.

Lemma indexed_insert s key value s' :
  wf s → indexed s →
  (load_factor_above_MAX s = true → table_size s * 2 < size_t_range) →
  insert s key value = Some s' → indexed s'.
Proof.
  intros Hwfs Hidx Hsmall Hs'.
  destruct (insert_link _ _ _ _ (proj1 Hwfs) Hs')
    as (j & s1 & Hins & Htab & Hsame & Hsz).
  destruct (_insert_indexed _ _ _ _ _ Hwfs Hidx Hsmall Hins) as (_ & _ & Hidx1).
  eapply indexed_same_data; [done..| |done].
  rewrite (_insert_size _ _ _ _ _ Hins). exact Hsz.
Qed.

Lemma indexed_insert_under s key value parent s' :
  wf s → indexed s →
  (load_factor_above_MAX s = true → table_size s * 2 < size_t_range) →
  insert_under s key value parent = Some s' → indexed s'.
Proof.
  intros Hwfs Hidx Hsmall Hs'.
  destruct (insert_under_link _ _ _ _ _ Hs')
    as (j & s1 & p & Hins & _ & _ & Htab & Hsame & Hsz).
  destruct (_insert_indexed _ _ _ _ _ Hwfs Hidx Hsmall Hins) as (_ & _ & Hidx1).
  eapply indexed_same_data; [done..| |done].
  rewrite (_insert_size _ _ _ _ _ Hins). exact Hsz.
Qed.

Lemma insert_returns s key value :
  wf s →
  (load_factor_above_MAX s = true → table_size s * 2 < size_t_range) →
  ∃ s', insert s key value = Some s'.
Proof.
  intros (Hwf & Hok & Hts) Hsmall.
  destruct (_insert_spec s key value (wf_sentinel _ Hwf) Hok Hts Hsmall)
    as (j & s1 & Hins & _).
  destruct (insert_after__insert s key value j s1 Hwf Hins)
    as (s' & nj & Hs' & _).
  by exists s'.
Qed.

Lemma insert_under_returns s key value parent p :
  wf s →
  (load_factor_above_MAX s = true → table_size s * 2 < size_t_range) →
  index s parent = Some p → p ≠ _EMPTY_INDEX →
  _head_index s ≠ _EMPTY_INDEX ∧
  ∃ s', insert_under s key value parent = Some s'.
Proof.
  intros Hwfs Hsmall Hpar HpE. pose proof Hwfs as (Hwf & Hok & Hts).
  split.
  { destruct (index_found _ _ _ Hpar HpE) as (pn & Hpn & _).
    intros He. by rewrite (wf_no_root _ Hwf He), lookup_empty in Hpn. }
  destruct (_insert_spec s key value (wf_sentinel _ Hwf) Hok Hts Hsmall)
    as (j & s1 & Hins & _).
  destruct (_insert_keeps_stored s key value j s1 parent p
              Hwfs Hsmall Hins Hpar HpE) as (p1 & Hpar1 & _ & Hp1 & _).
  destruct (insert_under_after__insert s key value parent j s1 p1
              Hins Hpar1 Hp1) as (s' & nj & Hs' & _).
  by exists s'.
Qed.

(** X2: a key that is not stored is found after its insert: lookup
    resolves to the new slot and [at] returns the value.  So it is for
    insert with a parent key that is stored. *)
Theorem insert_then_lookup s key value :
  wf s → indexed s →
  (load_factor_above_MAX s = true → table_size s * 2 < size_t_range) →
  keyeq key key = true →
  index s key = Some _EMPTY_INDEX →
  (∃ s' j,
     insert s key value = Some s' ∧ _nodes s !! j = None ∧
     index s' key = Some j ∧ at_key s' key = Some value ∧
     lookup_succeeds s' key = true) ∧
  (∀ parent p,
     index s parent = Some p → p ≠ _EMPTY_INDEX →
     ∃ s' j,
       insert_under s key value parent = Some s' ∧ _nodes s !! j = None ∧
       index s' key = Some j ∧ at_key s' key = Some value ∧
       lookup_succeeds s' key = true).
Proof.
  intros Hwfs Hidx Hsmall Hrefl Habs. pose proof Hwfs as (Hwf & Hok & Hts).
  destruct (_insert_spec s key value (wf_sentinel _ Hwf) Hok Hts Hsmall)
    as (j & s1 & Hins & _).
  destruct (_insert_inv _ _ _ _ _ Hins) as (Hj & HjE & _).
  pose proof (_insert_resolves_new _ _ _ _ _ Hwfs Hidx Hsmall Hrefl Habs Hins)
    as Hj1.
  assert (Hfinal : ∀ s' nj, _table s' = _table s1 →
    same_chain_data (_nodes s1) (_nodes s') → size s' = S (size s) →
    _nodes s' !! j = Some nj → pair nj = (key, value) →
    index s' key = Some j ∧ at_key s' key = Some value ∧
    lookup_succeeds s' key = true).
  { intros s' nj Htab Hsame Hsz Hnj Hpj.
    pose proof (linked_index _ _ _ _ _ _ _ _ Hins Htab Hsame Hsz Hj1 HjE)
      as Hj'.
    split_and!; [done| |].
    - rewrite (at_key_found _ _ _ _ Hj' Hnj). by rewrite Hpj.
    - unfold lookup_succeeds. rewrite Hj'.
      by destruct (N.eqb_spec j _EMPTY_INDEX). }
  split.
  - destruct (insert_after__insert s key value j s1 Hwf Hins)
      as (s' & nj & Hs' & Htab & Hsame & Hsz & Hnj & Hpj & _).
    exists s', j. split_and!; [done..| | |]; by eapply Hfinal.
  - intros parent p Hpar HpE.
    destruct (_insert_keeps_stored s key value j s1 parent p
                Hwfs Hsmall Hins Hpar HpE) as (p1 & Hpar1 & _ & Hp1 & _).
    destruct (insert_under_after__insert s key value parent j s1 p1
                Hins Hpar1 Hp1)
      as (s' & nj & Hs' & Htab & Hsame & Hsz & Hnj & Hpj).
    exists s', j. split_and!; [done..| | |]; by eapply Hfinal.
Qed.

(** X3: on a map whose links agree, whose bucket chains end and which
    has a bucket, and when a doubling of the table stays within size_t,
    an insert leaves the lookup of a key alone that resolves to a record
    and that no other record matches: whatever key goes in, with or
    without rehash, the insert returns, and the key resolves to the same
    slot as before and [at] returns the same value.  So it is for insert
    with a parent key that resolves to a record. *)
Theorem insert_keeps_other_keys s key value key' r :
  wf s →
  (load_factor_above_MAX s = true → table_size s * 2 < size_t_range) →
  index s key' = Some r → r ≠ _EMPTY_INDEX →
  (∀ x nx, _nodes s !! x = Some nx →
     key_matches nx (hash_of key') key' = true → x = r) →
  (∃ s', insert s key value = Some s' ∧
         index s' key' = Some r ∧ at_key s' key' = at_key s key') ∧
  (∀ parent p, index s parent = Some p → p ≠ _EMPTY_INDEX →
     ∃ s', insert_under s key value parent = Some s' ∧
           index s' key' = Some r ∧ at_key s' key' = at_key s key').
Proof.
  intros Hwfs Hsmall Hidx Hr Huniq.
  destruct (index_found _ _ _ Hidx Hr) as (nr & Hnr & _).
  assert (Hfinal : ∀ j s1 s', _insert s key value = Some (j, s1) →
    _table s' = _table s1 →
    same_chain_data (_nodes s1) (_nodes s') → size s' = S (size s) →
    index s' key' = Some r ∧ at_key s' key' = at_key s key').
  { intros j s1 s' Hins Htab Hsame Hsz.
    destruct (_insert_keeps_old _ _ _ _ _ _ _ Hwfs Hsmall Hins Hidx Hr)
      as (r1 & n1 & Hr1 & Hne1 & Hrj & Hn1 & Hk1 & _).
    assert (r1 = r) as -> by (by eapply Huniq).
    pose proof (linked_index _ _ _ _ _ _ _ _ Hins Htab Hsame Hsz Hr1 Hr)
      as Hr'.
    split; [done|].
    destruct (_insert_inv _ _ _ _ _ Hins) as (_ & _ & _ & Hu & _).
    destruct (unlinked_lookup_eq _ (<[j := fresh_node key value]> (_nodes s))
                r nr Hu) as (nr1 & Hnr1 & Hp1 & _).
    { by rewrite lookup_insert_ne. }
    destruct (Hsame _ _ Hnr1) as (nr' & Hnr' & _ & Hp' & _).
    rewrite (at_key_found _ _ _ _ Hr' Hnr'), (at_key_found _ _ _ _ Hidx Hnr).
    by rewrite Hp', Hp1. }
  split.
  - destruct (insert_returns s key value Hwfs Hsmall) as [s' Hs'].
    exists s'. split; [done|].
    destruct (insert_link _ _ _ _ (proj1 Hwfs) Hs')
      as (j & s1 & Hins & Htab & Hsame & Hsz).
    by eapply Hfinal.
  - intros parent p Hpar HpE.
    destruct (insert_under_returns s key value parent p Hwfs Hsmall Hpar HpE)
      as [_ [s' Hs']].
    exists s'. split; [done|].
    destruct (insert_under_link _ _ _ _ _ Hs')
      as (j & s1 & p1 & Hins & _ & _ & Htab & Hsame & Hsz).
    by eapply Hfinal.
Qed.


(** ** Records below the root *)

Lemma child_of_grow σ σ' a b :
  (∀ x nx, σ !! x = Some nx →
     ∃ nx', σ' !! x = Some nx' ∧ ∀ c, c ∈ childs nx → c ∈ childs nx') →
  child_of σ a b → child_of σ' a b.
Proof.
  intros Hgrow (na & Ha & Hb).
  destruct (Hgrow _ _ Ha) as (na' & Ha' & Hsub).
  exists na'. split; [done|]. by apply Hsub.
Qed.

Lemma reach_grow σ σ' a b :
  (∀ x nx, σ !! x = Some nx →
     ∃ nx', σ' !! x = Some nx' ∧ ∀ c, c ∈ childs nx → c ∈ childs nx') →
  reach σ a b → reach σ' a b.
Proof.
  intros Hgrow. apply rtc_subrel. intros x y. by apply child_of_grow.
Qed.

Lemma reach_unlinked σ σ' a b :
  unlinked σ = unlinked σ' → reach σ a b → reach σ' a b.
Proof.
  intros Hu. apply reach_grow. intros x nx Hx.
  destruct (unlinked_lookup_eq σ' σ x nx (eq_sym Hu) Hx)
    as (nx' & Hx' & _ & _ & Hc & _).
  exists nx'. split; [done|]. by rewrite Hc.
Qed.

Lemma connected_unlinked s s' :
  unlinked (_nodes s) = unlinked (_nodes s') →
  _head_index s = _head_index s' →
  connected s → connected s'.
Proof.
  intros Hu Hh Hconn x [nx Hx].
  destruct (unlinked_lookup_eq _ _ x nx Hu Hx) as (nx0 & Hx0 & _).
  rewrite <- Hh. eapply reach_unlinked; [done|]. apply Hconn. by eexists.
Qed.

(** The store after the linking that follows [_insert], record by
    record. *)
Lemma link_new_tree s key value j s1 p σ1 σ2 :
  _insert s key value = Some (j, s1) →
  push_child (_nodes s1) p j = Some σ1 →
  assign_parent σ1 j p = Some σ2 →
  (∀ x nx, _nodes s !! x = Some nx →
     ∃ nx', σ2 !! x = Some nx' ∧ pair nx' = pair nx ∧
            hash_value nx' = hash_value nx ∧
            parent_index nx' = parent_index nx ∧
            childs nx' =
              if decide (x = p) then childs nx ++ [j] else childs nx) ∧
  (∃ nj, σ2 !! j = Some nj ∧ pair nj = (key, value) ∧
         parent_index nj = p ∧
         childs nj = if decide (j = p) then [j] else []) ∧
  (∀ x, is_Some (σ2 !! x) → x = j ∨ is_Some (_nodes s !! x)).
Proof.
  intros Hins Hpush Hassign.
  destruct (_insert_inv _ _ _ _ _ Hins) as (Hj & HjE & _ & Hu & _).
  destruct (_insert_new_record _ _ _ _ _ Hins)
    as (nj1 & Hnj1 & Hpj1 & _ & Hcj1 & Hpaj1).
  unfold push_child in Hpush.
  destruct (_nodes s1 !! p) as [pn1|] eqn:Hp1; [|done].
  injection Hpush as <-.
  unfold assign_parent in Hassign.
  destruct (_ !! j) as [it|] eqn:Hit; [|done].
  injection Hassign as <-.
  split_and!.
  - intros x nx Hx.
    assert (Hxj : x ≠ j) by congruence.
    destruct (unlinked_lookup_eq _ (<[j := fresh_node key value]> (_nodes s))
                x nx Hu) as (nx1 & Hx1 & Hpx & Hhx & Hcx & Hpax).
    { by rewrite lookup_insert_ne. }
    rewrite lookup_insert_ne by done.
    destruct (decide (x = p)) as [->|Hxp].
    + rewrite lookup_insert_eq. eexists. split; [done|]. simpl.
      assert (pn1 = nx1) as -> by congruence. by rewrite Hcx.
    + rewrite lookup_insert_ne by done. by exists nx1.
  - rewrite lookup_insert_eq. eexists. split; [done|]. simpl.
    destruct (decide (j = p)) as [<-|Hjp].
    + rewrite lookup_insert_eq in Hit. injection Hit as <-. simpl.
      assert (pn1 = nj1) as -> by congruence.
      split_and!; [done..|]. by rewrite Hcj1.
    + rewrite lookup_insert_ne in Hit by done.
      assert (it = nj1) as -> by congruence. done.
  - intros x Hx. destruct (decide (x = j)) as [|Hxj]; [by left|right].
    rewrite lookup_insert_ne in Hx by done.
    assert (Hx1 : is_Some (_nodes s1 !! x)).
    { destruct (decide (x = p)) as [->|Hxp]; [by eexists|].
      by rewrite lookup_insert_ne in Hx. }
    destruct Hx1 as [nx1 Hx1].
    destruct (_insert_old_record _ _ _ _ _ _ _ Hins Hx1 Hxj) as (nx & ? & _).
    by eexists.
Qed.

Lemma connected_link_new s key value j s1 p σ1 σ2 :
  connected s → is_Some (_nodes s !! p) →
  _insert s key value = Some (j, s1) →
  push_child (_nodes s1) p j = Some σ1 →
  assign_parent σ1 j p = Some σ2 →
  connected (with_nodes σ2 s1).
Proof.
  intros Hconn [pn Hp] Hins Hpush Hassign.
  destruct (_insert_inv _ _ _ _ _ Hins) as (Hj & _ & Hh & _).
  destruct (link_new_tree _ _ _ _ _ _ _ _ Hins Hpush Hassign)
    as (Hold & _ & Hdom).
  assert (Hgrow : ∀ x nx, _nodes s !! x = Some nx →
    ∃ nx', σ2 !! x = Some nx' ∧ ∀ c, c ∈ childs nx → c ∈ childs nx').
  { intros x nx Hx. destruct (Hold _ _ Hx) as (nx' & Hx' & _ & _ & _ & Hc).
    exists nx'. split; [done|]. intros c Hcx. rewrite Hc.
    destruct (decide (x = p)); [|done]. apply elem_of_app. by left. }
  intros x Hx. simpl in *. rewrite Hh.
  destruct (Hdom x Hx) as [->|Hx0].
  - eapply rtc_r.
    + eapply reach_grow; [exact Hgrow|]. apply Hconn. by eexists.
    + destruct (Hold _ _ Hp) as (pn' & Hp' & _ & _ & _ & Hc).
      exists pn'. split; [done|]. rewrite Hc, decide_True by done.
      apply elem_of_app. right. by left.
  - eapply reach_grow; [exact Hgrow|]. by apply Hconn.
Qed.

Lemma connected_insert s key value s' :
  tree_wf s → connected s → insert s key value = Some s' → connected s'.
Proof.
  intros Hwf Hconn Hs'. unfold insert in Hs'.
  destruct (_insert s key value) as [[j s1]|] eqn:Hins; [|done].
  simpl in Hs'.
  destruct (_insert_inv _ _ _ _ _ Hins) as (Hj & _ & Hh & _).
  rewrite Hh in Hs'.
  destruct (N.eqb_spec (_head_index s) _EMPTY_INDEX) as [He|Hne].
  - injection Hs' as <-. intros x [nx Hx]. simpl in *.
    destruct (decide (x = j)) as [->|Hxj]; [apply rtc_refl|].
    destruct (_insert_old_record _ _ _ _ _ _ _ Hins Hx Hxj) as (? & Hx0 & _).
    by rewrite (wf_no_root _ Hwf He), lookup_empty in Hx0.
  - destruct (push_child _ _ _) as [σ1|] eqn:Hpush; [|done]. simpl in Hs'.
    destruct (assign_parent _ _ _) as [σ2|] eqn:Hassign; [|done].
    injection Hs' as <-.
    eapply connected_link_new; [done|by apply wf_root|done..].
Qed.

(** The parent that [insert] with a parent key finds is a record that
    was there before, when the new key is not the parent key. *)
Lemma insert_under_parent_old s key value parent s' :
  tree_wf s → keyeq key parent = false →
  insert_under s key value parent = Some s' →
  ∃ j s1 p σ1 σ2,
    _insert s key value = Some (j, s1) ∧ index s1 parent = Some p ∧
    push_child (_nodes s1) p j = Some σ1 ∧
    assign_parent σ1 j p = Some σ2 ∧ s' = with_nodes σ2 s1 ∧
    p ≠ j ∧ is_Some (_nodes s !! p).
Proof.
  intros Hwf Hkey Hs'. unfold insert_under in Hs'.
  destruct (_insert s key value) as [[j s1]|] eqn:Hins; [|done].
  simpl in Hs'.
  destruct (index s1 parent) as [p|] eqn:Hp; [|done]. simpl in Hs'.
  destruct (push_child _ _ _) as [σ1|] eqn:Hpush; [|done]. simpl in Hs'.
  destruct (assign_parent _ _ _) as [σ2|] eqn:Hassign; [|done].
  injection Hs' as <-.
  destruct (_insert_inv _ _ _ _ _ Hins) as (Hj & HjE & _ & Hu & _).
  assert (Hp1 : ∃ pn1, _nodes s1 !! p = Some pn1).
  { unfold push_child in Hpush.
    destruct (_nodes s1 !! p); [by eexists|done]. }
  destruct Hp1 as [pn1 Hp1].
  assert (Hpj : p ≠ j).
  { intros ->.
    assert (HpE : j ≠ _EMPTY_INDEX) by done.
    destruct (index_found _ _ _ Hp HpE) as (nr & Hnr & Hk).
    destruct (_insert_new_record _ _ _ _ _ Hins) as (nj & Hnj & Hpr & _).
    assert (nr = nj) as -> by congruence.
    unfold key_matches in Hk. rewrite Hpr in Hk. simpl in Hk.
    rewrite Hkey in Hk. by rewrite andb_false_r in Hk. }
  exists j, s1, p, σ1, σ2. split_and!; [done..|].
  destruct (_insert_old_record _ _ _ _ _ _ _ Hins Hp1 Hpj) as (? & ? & _).
  by eexists.
Qed.

Lemma connected_insert_under s key value parent s' :
  tree_wf s → connected s → keyeq key parent = false →
  insert_under s key value parent = Some s' →
  _head_index s ≠ _EMPTY_INDEX ∧ connected s'.
Proof.
  intros Hwf Hconn Hkey Hs'.
  destruct (insert_under_parent_old _ _ _ _ _ Hwf Hkey Hs')
    as (j & s1 & p & σ1 & σ2 & Hins & _ & Hpush & Hassign & -> & _ & Hp).
  split.
  - intros He. destruct Hp as [pn Hp].
    by rewrite (wf_no_root _ Hwf He), lookup_empty in Hp.
  - by eapply connected_link_new.
Qed.

Lemma connected_erase s key s' :
  tree_wf s → connected s → erase s key = Some s' → connected s'.
Proof.
  intros Hwf Hconn Hs'. unfold erase in Hs'.
  destruct (index s key) as [i|]; [|done]. simpl in Hs'.
  destruct (N.eqb_spec i (_head_index s)) as [Heq|Hne].
  { injection Hs' as <-. intros x [nx Hx]. simpl in Hx.
    by rewrite lookup_empty in Hx. }
  destruct (erase_subtree (_nodes s) i) as [σ2|] eqn:Hsub; [|done].
  simpl in Hs'.
  assert (Hi : ∃ ni, _nodes s !! i = Some ni).
  { unfold erase_subtree in Hsub.
    destruct (_nodes s !! i); [by eexists|done]. }
  destruct Hi as [ni Hi].
  destruct (erase_subtree_spec s i ni Hwf Hi Hne)
    as (σ2' & V & Hsub' & _ & HV & Hσ2 & _ & _).
  assert (σ2' = σ2) as -> by congruence.
  assert (Hc2 : connected (with_nodes σ2 s)).
  { intros x [nx Hx]. simpl in *.
    assert (HxV : x ∉ V).
    { intros HxV. by rewrite Hσ2, decide_True in Hx. }
    assert (Hx0 : is_Some (_nodes s !! x)).
    { rewrite Hσ2, decide_False in Hx by done.
      destruct (_nodes s !! x); [by eexists|done]. }
    revert HxV. generalize (Hconn x Hx0). generalize x.
    apply (rtc_ind_r (λ z, z ∉ V → reach σ2 (_head_index s) z)).
    { intros _. apply rtc_refl. }
    intros y z Hhy Hyz IH HzV.
    assert (HyV : y ∉ V).
    { intros HyV. apply HzV, HV. eapply rtc_r; [by apply HV|done]. }
    eapply rtc_r; [by apply IH|].
    destruct Hyz as (ny & Hy & Hz).
    assert (Hzi : z ≠ i).
    { intros ->. apply HzV, HV, rtc_refl. }
    eexists. split.
    - rewrite Hσ2, decide_False, Hy by done. done.
    - destruct (decide (y = parent_index ni)); [|done].
      simpl. by apply list_elem_of_filter. }
  destruct (load_factor_below_MIN _); [|by injection Hs' as <-].
  apply rehash_inv in Hs' as (Hu & Hh & _).
  eapply (connected_unlinked (with_nodes σ2 s)); [by rewrite Hu| |done].
  by rewrite Hh.
Qed.

Lemma connected_empty : connected empty_tree.
Proof. intros x [nx Hx]. simpl in Hx. by rewrite lookup_empty in Hx. Qed.

Lemma connected_run ops s s' :
  tree_wf s → connected s → Forall plain_operation ops →
  run s ops = Some s' → tree_wf s' ∧ connected s'.
Proof.
  revert s. induction ops as [|o ops IH]; intros s Hwf Hconn Hops Hrun.
  { by injection Hrun as <-. }
  apply Forall_cons in Hops as [Ho Hops]. simpl in Hrun.
  destruct (apply_operation s o) as [s1|] eqn:Hstep; [|done].
  simpl in Hrun.
  assert (tree_wf s1 ∧ connected s1) as [Hwf1 Hconn1]; [|by eapply IH].
  destruct o as [key value|key value parent|key|key new_parent];
    simpl in Hstep, Ho.
  - split; [by eapply tree_wf_insert|by eapply connected_insert].
  - destruct (connected_insert_under _ _ _ _ _ Hwf Hconn Ho Hstep)
      as [Hhd ?].
    split; [by eapply tree_wf_insert_under|done].
  - split; [by eapply tree_wf_erase|by eapply connected_erase].
  - done.
Qed.

(** The loop over a map whose records are below the root. *)
Lemma traverse_connected s :
  tree_wf s → connected s → N.of_nat (size s) < size_t_range →
  ∃ out, traverse s = Some out ∧ length out = size s ∧
         NoDup out.*1 ∧
         (∀ j, j ∈ out.*1 ↔ is_Some (_nodes s !! j)).
Proof.
  intros Hwf Hconn Hsmall.
  destruct (decide (_head_index s = _EMPTY_INDEX)) as [He|Hne].
  - pose proof (wf_no_root _ Hwf He) as Hempty.
    assert (Hsz : size (_nodes s) = 0%nat)
      by (by rewrite Hempty, map_size_empty).
    exists []. unfold traverse. unfold size at 1, hash_tree_size. rewrite Hsz.
    assert (Hstop : iter_neq (begin s) (end_ s) = false).
    { unfold iter_neq, begin, end_. simpl.
      unfold size, hash_tree_size. by rewrite Hsz. }
    simpl. rewrite Hstop. split_and!; try done.
    + constructor.
    + intros j. rewrite Hempty, lookup_empty. split.
      * by intros ?%elem_of_nil.
      * by intros [? ?].
  - destruct (wf_root _ Hwf Hne) as [hn Hhn].
    assert (Hinv0 : bfs_inv (_nodes s) (_head_index s) [_head_index s] 0).
    { split_and!; [done|apply NoDup_singleton|].
      intros x ->%list_elem_of_singleton. by eexists. }
    destruct (traverse_loop_spec s (size (_nodes s)) [_head_index s] 0
                Hwf Hconn Hsmall Hinv0 ltac:(lia))
      as (out & vf & Hloop & (Heq & Hnd & Hlive) & _ & Hout & _).
    rewrite drop_0 in Hout.
    assert (Hlen : length vf = size (_nodes s)).
    { apply Nat.le_antisymm; [by apply NoDup_live_length|].
      destruct (decide (size (_nodes s) ≤ length vf)%nat) as [|Hlt]; [done|].
      rewrite take_ge in Heq by lia.
      apply covering_length; [done|]. intros j Hj.
      eapply bfs_closed; [done|]. by apply Hconn. }
    rewrite take_ge in Heq by lia.
    exists out. rewrite Hout. split_and!.
    + done.
    + change (size s) with (size (_nodes s)).
      rewrite <- Hlen, <- Hout. by rewrite length_fmap.
    + done.
    + intros j. split; [by apply Hlive|]. intros Hj.
      eapply bfs_closed; [done|]. by apply Hconn.
Qed.

(** X5: after any sequence of inserts and erases on a new map that runs
    without undefined behaviour, in which no record goes below its own
    key, every record is the root or below it, and the loop from begin()
    to end() returns after size() steps with every record visited
    once. *)
Theorem traversal_after_inserts_and_erases ops s' :
  Forall plain_operation ops →
  run empty_tree ops = Some s' →
  N.of_nat (size s') < size_t_range →
  connected s' ∧
  ∃ out, traverse s' = Some out ∧ length out = size s' ∧
         NoDup out.*1 ∧
         (∀ j, j ∈ out.*1 ↔ is_Some (_nodes s' !! j)).
Proof.
  intros Hops Hrun Hsmall.
  destruct (connected_run ops empty_tree s' tree_wf_empty connected_empty
              Hops Hrun) as [Hwf Hconn].
  split; [done|]. by apply traverse_connected.
Qed.

(** ** The traversal needs every record below the root *)

Lemma NoDup_live_covers (σ : store) l j :
  NoDup l → (∀ x, x ∈ l → is_Some (σ !! x)) → (size σ ≤ length l)%nat →
  is_Some (σ !! j) → j ∈ l.
Proof.
  intros Hnd Hlive Hlen Hj.
  destruct (decide (j ∈ l)) as [|Hnj]; [done|]. exfalso.
  assert (Hle : (length l ≤ size (delete j σ))%nat).
  { apply NoDup_live_length; [done|]. intros x Hx.
    rewrite lookup_delete_ne; [by apply Hlive|]. by intros ->. }
  rewrite map_size_delete_Some in Hle by done.
  pose proof (map_size_ne_0_lookup_2 σ j Hj). lia.
Qed.

Lemma traverse_loop_reaches s fuel visit a out :
  tree_wf s → N.of_nat (size (_nodes s)) < size_t_range →
  bfs_inv (_nodes s) (_head_index s) visit a →
  (∀ x, x ∈ visit → reach (_nodes s) (_head_index s) x) →
  (a + fuel = size (_nodes s))%nat →
  traverse_loop (_nodes s) (end_ s) fuel (mk_iterator visit (N.of_nat a))
    = Some out →
  ∃ vf, NoDup vf ∧
        (∀ x, x ∈ vf → is_Some (_nodes s !! x) ∧
                       reach (_nodes s) (_head_index s) x) ∧
        (length visit ≤ length vf)%nat ∧
        (fuel ≠ 0%nat → (size (_nodes s) ≤ length vf)%nat).
Proof.
  intros Hwf Hsmall. revert visit a out.
  induction fuel as [|fuel IH]; intros visit a out Hinv Hreach Hfuel Hloop.
  - exists visit. destruct Hinv as (_ & Hnd & Hlive).
    split_and!; [done| |done|done].
    intros x Hx. split; [by apply Hlive|by apply Hreach].
  - assert (Ha : (a < size (_nodes s))%nat) by lia.
    simpl in Hloop. unfold iter_neq at 1, end_ at 1 in Hloop.
    simpl in Hloop. unfold size at 1, hash_tree_size in Hloop.
    destruct (N.eqb_spec (N.of_nat a) (N.of_nat (size (_nodes s))));
      [lia|].
    simpl in Hloop. unfold current, deref, incr, current in Hloop.
    simpl in Hloop. rewrite Nat2N.id in Hloop.
    destruct (visit !! a) as [x|] eqn:Hx; [|done]. simpl in Hloop.
    destruct (_nodes s !! x) as [nd|] eqn:Hnx; [|done]. simpl in Hloop.
    replace (wrap_size_t (N.of_nat a + 1)) with (N.of_nat (S a)) in Hloop.
    2:{ unfold wrap_size_t. rewrite N.mod_small; lia. }
    destruct (traverse_loop _ _ fuel _) as [rest|] eqn:Hrest; [|done].
    pose proof (bfs_step s visit a x nd Hwf Hinv Hx Hnx) as Hinv'.
    destruct (IH (visit ++ childs nd) (S a) rest Hinv')
      as (vf & Hnd & Hall & Hlen & Hfull); [|lia|done|].
    { intros c [Hc|Hc]%elem_of_app; [by apply Hreach|].
      eapply rtc_r; [apply Hreach; by eapply list_elem_of_lookup_2|].
      by exists nd. }
    rewrite length_app in Hlen.
    exists vf. split_and!; [done|done|lia|].
    intros _. destruct fuel as [|fuel]; [|apply Hfull; lia].
    apply lookup_lt_Some in Hx. lia.
Qed.

Lemma traverse_connected_inv s out :
  tree_wf s → N.of_nat (size s) < size_t_range →
  traverse s = Some out → connected s.
Proof.
  intros Hwf Hsmall Ht x Hx.
  assert (Hne : _head_index s ≠ _EMPTY_INDEX).
  { intros He. rewrite (wf_no_root _ Hwf He), lookup_empty in Hx.
    by destruct Hx. }
  destruct (wf_root _ Hwf Hne) as [hn Hhn].
  assert (Hinv0 : bfs_inv (_nodes s) (_head_index s) [_head_index s] 0).
  { split_and!; [done|apply NoDup_singleton|].
    intros y ->%list_elem_of_singleton. by eexists. }
  destruct (traverse_loop_reaches s (size (_nodes s)) [_head_index s] 0 out
              Hwf Hsmall Hinv0) as (vf & Hnd & Hall & _ & Hfull);
    [|lia|exact Ht|].
  { intros y ->%list_elem_of_singleton. apply rtc_refl. }
  apply Hall. eapply NoDup_live_covers; [done| | |done].
  - intros y Hy. by apply Hall.
  - apply Hfull. by eapply map_size_ne_0_lookup_2.
Qed.

(** X6: the loop from begin() to end() returns only on a map whose
    records are all the root or below it; with a record that the root does
    not reach it runs into a position that the visitation sequence does
    not have. *)
Theorem traverse_needs_connected s :
  tree_wf s → N.of_nat (size s) < size_t_range →
  is_Some (traverse s) ↔ connected s.
Proof.
  intros Hwf Hsmall. split.
  - intros [out Hout]. by eapply traverse_connected_inv.
  - intros Hconn.
    destruct (traverse_connected s Hwf Hconn Hsmall) as (out & Hout & _).
    by eexists.
Qed.

(** ** [set_parent] *)

Lemma childs_attach_end (c : N) (nd : node) :
  childs (attach_child (length (childs nd)) c nd) = childs nd ++ [c].
Proof. simpl. by rewrite take_ge, drop_ge by lia. Qed.

(** The store after [_set_parent] with a new parent other than the old
    one, record by record. *)
Lemma _set_parent_tree s i p ni pn :
  tree_wf s → i ≠ _head_index s →
  _nodes s !! i = Some ni → _nodes s !! p = Some pn →
  p ≠ parent_index ni →
  ∃ s', _set_parent s i p (length (childs pn)) = Some s' ∧
        _table s' = _table s ∧ _head_index s' = _head_index s ∧
        size s' = size s ∧
        (∀ x, _nodes s !! x = None → _nodes s' !! x = None) ∧
        (∀ x nx, _nodes s !! x = Some nx →
           ∃ nx', _nodes s' !! x = Some nx' ∧ pair nx' = pair nx ∧
                  hash_value nx' = hash_value nx ∧
                  next_index nx' = next_index nx ∧
                  parent_index nx' =
                    (if decide (x = i) then p else parent_index nx) ∧
                  childs nx' =
                    (if decide (x = p) then childs nx ++ [i]
                     else if decide (x = parent_index ni)
                          then filter (λ c, c ≠ i) (childs nx)
                          else childs nx)).
Proof.
  intros Hwf Hih Hi Hp Hpq. set (q := parent_index ni) in *.
  assert (HqE : q ≠ _EMPTY_INDEX).
  { unfold q. by rewrite (wf_parentless _ Hwf _ _ Hi). }
  destruct (wf_parent _ Hwf _ _ Hi HqE) as (qn & Hq & _). fold q in Hq.
  unfold _set_parent. rewrite Hi. simpl. fold q.
  destruct (N.eqb_spec q _EMPTY_INDEX); [done|]. simpl.
  rewrite (remove_child_eq _ _ _ _ Hi Hq). simpl. fold q.
  rewrite lookup_insert_ne, Hp by done. simpl.
  rewrite bool_decide_eq_true_2 by done.
  set (σ1 := <[q := without_child i qn]> (_nodes s)).
  set (σ2 := <[p := attach_child (length (childs pn)) i pn]> σ1).
  assert (H2 : ∀ x nx, _nodes s !! x = Some nx →
    ∃ nx2, σ2 !! x = Some nx2 ∧ pair nx2 = pair nx ∧
           hash_value nx2 = hash_value nx ∧
           next_index nx2 = next_index nx ∧
           parent_index nx2 = parent_index nx ∧
           childs nx2 =
             (if decide (x = p) then childs nx ++ [i]
              else if decide (x = q)
                   then filter (λ c, c ≠ i) (childs nx)
                   else childs nx)).
  { intros x nx Hx. unfold σ2, σ1.
    destruct (decide (x = p)) as [->|Hxp].
    - rewrite lookup_insert_eq. eexists. split; [done|].
      assert (nx = pn) as -> by congruence.
      split_and!; [done..|]. apply childs_attach_end.
    - rewrite lookup_insert_ne by done.
      destruct (decide (x = q)) as [->|Hxq].
      + rewrite lookup_insert_eq. eexists. split; [done|].
        assert (nx = qn) as -> by congruence. done.
      + rewrite lookup_insert_ne by done. by exists nx. }
  destruct (H2 _ _ Hi) as (it2 & Hit2 & Hpi2 & Hh2 & Hn2 & Hpa2 & Hc2).
  unfold assign_parent. fold σ1. fold σ2. rewrite Hit2. simpl.
  eexists. split; [done|]. simpl. split_and!; [done|done| | |].
  - unfold size, hash_tree_size. simpl.
    rewrite map_size_insert_Some by eauto.
    unfold σ2. rewrite map_size_insert_Some.
    2:{ unfold σ1. rewrite lookup_insert_ne by done. by eauto. }
    unfold σ1. rewrite map_size_insert_Some by eauto. done.
  - intros x Hx.
    rewrite lookup_insert_ne by congruence. unfold σ2.
    rewrite lookup_insert_ne by congruence. unfold σ1.
    by rewrite lookup_insert_ne by congruence.
  - intros x nx Hx. destruct (decide (x = i)) as [->|Hxi].
    + rewrite lookup_insert_eq. eexists. split; [done|]. simpl.
      assert (nx = ni) as -> by congruence. done.
    + rewrite lookup_insert_ne by done. by apply H2.
Qed.

Lemma set_parent_tree s key new_parent i p ni pn :
  tree_wf s → index s key = Some i → i ≠ _head_index s →
  _nodes s !! i = Some ni →
  index s new_parent = Some p → _nodes s !! p = Some pn →
  p ≠ parent_index ni →
  ∃ s', set_parent s key new_parent = Some s' ∧
        _table s' = _table s ∧ _head_index s' = _head_index s ∧
        size s' = size s ∧
        (∀ x, _nodes s !! x = None → _nodes s' !! x = None) ∧
        (∀ x nx, _nodes s !! x = Some nx →
           ∃ nx', _nodes s' !! x = Some nx' ∧ pair nx' = pair nx ∧
                  hash_value nx' = hash_value nx ∧
                  next_index nx' = next_index nx ∧
                  parent_index nx' =
                    (if decide (x = i) then p else parent_index nx) ∧
                  childs nx' =
                    (if decide (x = p) then childs nx ++ [i]
                     else if decide (x = parent_index ni)
                          then filter (λ c, c ≠ i) (childs nx)
                          else childs nx)).
Proof.
  intros Hwf Hidx Hih Hi Hpar Hp Hpq.
  unfold set_parent. rewrite Hidx. simpl. rewrite Hpar. simpl.
  rewrite Hp. simpl. by apply _set_parent_tree.
Qed.

Lemma set_parent_same_parent s key new_parent i ni :
  tree_wf s → index s key = Some i → i ≠ _head_index s →
  _nodes s !! i = Some ni →
  index s new_parent = Some (parent_index ni) →
  set_parent s key new_parent = None.
Proof.
  intros Hwf Hidx Hih Hi Hpar. set (q := parent_index ni) in *.
  assert (HqE : q ≠ _EMPTY_INDEX).
  { unfold q. by rewrite (wf_parentless _ Hwf _ _ Hi). }
  destruct (wf_parent _ Hwf _ _ Hi HqE) as (qn & Hq & Hiq). fold q in Hq.
  unfold set_parent. rewrite Hidx. simpl. rewrite Hpar. simpl.
  rewrite Hq. simpl.
  unfold _set_parent. rewrite Hi. simpl. fold q.
  destruct (N.eqb_spec q _EMPTY_INDEX); [done|]. simpl.
  rewrite (remove_child_eq _ _ _ _ Hi Hq). simpl. fold q.
  rewrite lookup_insert_eq. simpl.
  rewrite bool_decide_eq_false_2; [done|].
  pose proof (length_filter_lt (λ x, x ≠ i) (childs qn) i Hiq) as Hlt.
  specialize (Hlt ltac:(naive_solver)). lia.
Qed.




Lemma set_parent_edges s' s i p ni :
  tree_wf s → _nodes s !! i = Some ni → p ≠ parent_index ni →
  (∀ x, _nodes s !! x = None → _nodes s' !! x = None) →
  (∀ x nx, _nodes s !! x = Some nx →
     ∃ nx', _nodes s' !! x = Some nx' ∧
            childs nx' =
              (if decide (x = p) then childs nx ++ [i]
               else if decide (x = parent_index ni)
                    then filter (λ c, c ≠ i) (childs nx)
                    else childs nx)) →
  ∀ a b, child_of (_nodes s') a b →
         child_of (_nodes s) a b ∧ b ≠ i ∨ a = p ∧ b = i.
Proof.
  intros Hwf Hi Hpq Hnone Hsome a b (na' & Ha' & Hb).
  destruct (_nodes s !! a) as [na|] eqn:Ha.
  2:{ by rewrite (Hnone _ Ha) in Ha'. }
  destruct (Hsome _ _ Ha) as (na'' & Ha'' & Hc).
  assert (na'' = na') as -> by congruence. rewrite Hc in Hb.
  assert (Hown : b ∈ childs na → b = i → a = parent_index ni).
  { intros Hbn ->. destruct (wf_child _ Hwf _ _ _ Ha Hbn) as (cn & Hcn & <-).
    congruence. }
  destruct (decide (a = p)) as [->|Hap].
  - apply elem_of_app in Hb as [Hb|Hb%list_elem_of_singleton]; [|by right].
    left. split; [by exists na|]. intros Hbi. by apply Hpq, Hown.
  - destruct (decide (a = parent_index ni)) as [Haq|Haq].
    + apply list_elem_of_filter in Hb as [Hbi Hb]. left.
      split; [by exists na|done].
    + left. split; [by exists na|]. intros Hbi. by apply Haq, Hown.
Qed.

Lemma set_parent_detaches s key new_parent i p ni s' :
  tree_wf s → index s key = Some i → i ≠ _head_index s →
  _nodes s !! i = Some ni →
  index s new_parent = Some p → reach (_nodes s) i p →
  set_parent s key new_parent = Some s' →
  is_Some (_nodes s' !! i) ∧ ¬ reach (_nodes s') (_head_index s') i.
Proof.
  intros Hwf Hidx Hih Hi Hpar Hip Hs'.
  assert (Hpq : p ≠ parent_index ni).
  { intros ->.
    by rewrite (set_parent_same_parent s key new_parent i ni) in Hs'. }
  assert (Hp : ∃ pn, _nodes s !! p = Some pn).
  { unfold set_parent in Hs'. rewrite Hidx in Hs'. simpl in Hs'.
    rewrite Hpar in Hs'. simpl in Hs'.
    destruct (_nodes s !! p); [by eexists|done]. }
  destruct Hp as [pn Hp].
  destruct (set_parent_tree s key new_parent i p ni pn)
    as (s'' & Hs'' & _ & Hhd & _ & Hnone & Hsome); [done..|].
  assert (s'' = s') as -> by congruence.
  split.
  { destruct (Hsome _ _ Hi) as (ni' & ? & _). by eexists. }
  assert (Hedges : ∀ a b, child_of (_nodes s') a b →
            child_of (_nodes s) a b ∧ b ≠ i ∨ a = p ∧ b = i).
  { eapply set_parent_edges; [done..|]. intros x nx Hx.
    destruct (Hsome _ _ Hx) as (nx' & ? & _ & _ & _ & _ & ?).
    by exists nx'. }
  assert (Hback : ∀ x, reach (_nodes s') x i → reach (_nodes s) i x).
  { apply (rtc_ind_l (λ x, reach (_nodes s) i x)); [apply rtc_refl|].
    intros x y Hxy _ IH.
    destruct (Hedges _ _ Hxy) as [[Hxy0 Hyi]|[-> ->]]; [|done].
    apply rtc_inv_r in IH as [->|(y' & Hiy' & Hy'y)]; [done|].
    destruct Hxy0 as (nx & Hx & Hyx). destruct Hy'y as (ny' & Hy' & Hyy').
    destruct (wf_child _ Hwf _ _ _ Hx Hyx) as (cn & Hcn & Hpx).
    destruct (wf_child _ Hwf _ _ _ Hy' Hyy') as (cn' & Hcn' & Hpy').
    assert (x = y') as -> by congruence. done. }
  rewrite Hhd. intros Hreach%Hback.
  apply rtc_inv_r in Hreach as [->|(y & _ & ny & Hy & Hhy)]; [done|].
  destruct (wf_child _ Hwf _ _ _ Hy Hhy) as (hn & Hhn & Hph).
  assert (HyE : y = _EMPTY_INDEX).
  { rewrite <- Hph. by apply (wf_parentless _ Hwf _ _ Hhn). }
  pose proof (wf_sentinel _ Hwf) as HE. congruence.
Qed.

Lemma reach_live s a b :
  tree_wf s → reach (_nodes s) a b → is_Some (_nodes s !! a) →
  is_Some (_nodes s !! b).
Proof.
  intros Hwf Hr Ha.
  apply rtc_inv_r in Hr as [<-|(y & _ & ny & Hy & Hb)]; [done|].
  destruct (wf_child _ Hwf _ _ _ Hy Hb) as (cn & Hcn & _). by eexists.
Qed.

(** X9: on a map whose links agree, [set_parent] for a record other
    than the root, with a new parent that is the record itself or below
    it and is not its present parent, returns and cuts the record off the
    root: the record stays in the store, the root does not reach it, and
    the loop from begin() to end() is undefined. *)
Theorem set_parent_below_itself s key new_parent i p ni :
  tree_wf s → index s key = Some i → i ≠ _head_index s →
  _nodes s !! i = Some ni →
  index s new_parent = Some p → reach (_nodes s) i p →
  p ≠ parent_index ni →
  N.of_nat (size s) < size_t_range →
  ∃ s', set_parent s key new_parent = Some s' ∧
        size s' = size s ∧
        is_Some (_nodes s' !! i) ∧
        ¬ reach (_nodes s') (_head_index s') i ∧
        traverse s' = None.
Proof.
  intros Hwf Hidx Hih Hi Hpar Hip Hpq Hsmall.
  destruct (reach_live s i p Hwf Hip) as [pn Hp]; [by eexists|].
  destruct (set_parent_tree s key new_parent i p ni pn)
    as (s' & Hs' & _ & _ & Hsz & _); [done..|].
  destruct (set_parent_detaches s key new_parent i p ni s')
    as [Hlive Hcut]; [done..|].
  assert (Hwf' : tree_wf s').
  { eapply tree_wf_set_parent; [done| |done]. congruence. }
  exists s'. split_and!; [done..|].
  destruct (traverse s') as [out|] eqn:Ht; [|done]. exfalso.
  apply Hcut. eapply (traverse_connected_inv s' out); [done| |done..].
  by rewrite Hsz.
Qed.

(** ** Erase and the bucket chains *)

(** A walk that ended at a slot ends nowhere once the slot holds no
    record, whatever else has gone from the store. *)
Lemma index_walk_stale σ σ' h key fuel fuel' i0 i :
  (∀ x nx', σ' !! x = Some nx' →
     ∃ nx, σ !! x = Some nx ∧ pair nx = pair nx' ∧
           hash_value nx = hash_value nx' ∧
           next_index nx = next_index nx') →
  σ' !! i = None → i ≠ _EMPTY_INDEX →
  index_walk σ h key fuel i0 = Some i →
  index_walk σ' h key fuel' i0 = None.
Proof.
  intros Hsurv Hdead HiE. revert fuel' i0.
  induction fuel as [|fuel IH]; intros fuel' i0 Hwalk; [done|].
  destruct fuel' as [|fuel']; [done|]. simpl in *.
  destruct (σ' !! i0) as [nx'|] eqn:Hx'; [|done]. simpl.
  destruct (Hsurv _ _ Hx') as (nx & Hx & Hp & Hh & Hn).
  rewrite Hx in Hwalk. simpl in Hwalk.
  assert (Hk : key_matches nx' h key = key_matches nx h key).
  { unfold key_matches. by rewrite Hp, Hh. }
  rewrite Hk, <- Hn.
  destruct (next_index nx =? _EMPTY_INDEX).
  - destruct (key_matches nx h key); injection Hwalk as <-; congruence.
  - destruct (key_matches nx h key); [injection Hwalk as <-; congruence|].
    by apply IH.
Qed.

Lemma erase_subtree_survivors (σ : store) i σ2 :
  erase_subtree σ i = Some σ2 →
  σ2 !! i = None ∧
  ∀ x nx2, σ2 !! x = Some nx2 →
    ∃ nx, σ !! x = Some nx ∧ pair nx = pair nx2 ∧
          hash_value nx = hash_value nx2 ∧
          next_index nx = next_index nx2.
Proof.
  unfold erase_subtree. intros Hsub.
  destruct (σ !! i) as [ni|] eqn:Hi; [|done]. simpl in Hsub.
  destruct (if negb (parent_index ni =? _EMPTY_INDEX)
            then remove_child σ i else Some σ) as [σ1|] eqn:H1; [|done].
  simpl in Hsub.
  destruct (cascade_inv _ _ _ _ Hsub) as (V & _ & _ & Hq & _ & _ & Hσ2 & _).
  assert (H1' : ∀ x nx1, σ1 !! x = Some nx1 →
    ∃ nx, σ !! x = Some nx ∧ pair nx = pair nx1 ∧
          hash_value nx = hash_value nx1 ∧
          next_index nx = next_index nx1).
  { destruct (negb _); [|injection H1 as <-; by eauto].
    unfold remove_child in H1. rewrite Hi in H1. simpl in H1.
    destruct (σ !! parent_index ni) as [pn|] eqn:Hp; [|done].
    injection H1 as <-. intros x nx1 Hx.
    destruct (decide (x = parent_index ni)) as [->|Hne].
    - rewrite lookup_insert_eq in Hx. injection Hx as <-. by exists pn.
    - rewrite lookup_insert_ne in Hx by done. by eauto. }
  split.
  - rewrite Hσ2, decide_True; [done|]. apply Hq. by left.
  - intros x nx2 Hx. rewrite Hσ2 in Hx.
    destruct (decide (x ∈ V)); [done|]. by apply H1'.
Qed.

(** X10: erase of a record other than the root, without shrink, leaves
    the slot on its bucket chain: the next lookup of the key walks into
    the erased slot, and [at], [erase] and [set_parent] with that key are
    undefined. *)
Theorem erase_then_lookup_undefined s key i s' :
  index s key = Some i → i ≠ _EMPTY_INDEX → i ≠ _head_index s →
  erase s key = Some s' → table_size s' = table_size s →
  index s' key = None ∧ at_key s' key = None ∧ erase s' key = None ∧
  (∀ k, set_parent s' key k = None ∧ set_parent s' k key = None).
Proof.
  intros Hidx HiE Hih He Hts.
  assert (Hts0 : table_size s ≠ 0).
  { intros H0. unfold index in Hidx. by rewrite H0 in Hidx. }
  unfold erase in He. rewrite Hidx in He. simpl in He.
  destruct (N.eqb_spec i (_head_index s)); [done|].
  destruct (erase_subtree (_nodes s) i) as [σ2|] eqn:Hsub; [|done].
  simpl in He.
  assert (s' = with_nodes σ2 s) as ->.
  { destruct (load_factor_below_MIN _); [|by injection He].
    apply rehash_inv in He as (_ & _ & Hn). exfalso.
    rewrite Hn in Hts. change (table_size (with_nodes σ2 s))
      with (table_size s) in Hts.
    pose proof (N.div_lt (table_size s) 2). lia. }
  destruct (erase_subtree_survivors _ _ _ Hsub) as [Hdead Hsurv].
  assert (Hnone : index (with_nodes σ2 s) key = None).
  { unfold index in *.
    change (table_size (with_nodes σ2 s)) with (table_size s).
    destruct (table_size s =? 0); [done|]. simpl.
    destruct (_table s !! _) as [i0|]; [|done]. simpl in *.
    destruct (N.eqb_spec i0 _EMPTY_INDEX); [congruence|].
    by eapply index_walk_stale. }
  split_and!; [done| | |].
  - unfold at_key. by rewrite Hnone.
  - unfold erase. by rewrite Hnone.
  - intros k. unfold set_parent. rewrite Hnone. split; [done|].
    destruct (index _ k); simpl; done.
Qed.

(** X11: erase with a key that resolves to no record, the sentinel
    slot holding no record: when the root identifier is the sentinel the
    call goes through clear(); otherwise it indexes the store with the
    sentinel. *)
Theorem erase_absent_key s key :
  _nodes s !! _EMPTY_INDEX = None →
  index s key = Some _EMPTY_INDEX →
  (_head_index s = _EMPTY_INDEX → erase s key = Some (clear s)) ∧
  (_head_index s ≠ _EMPTY_INDEX → erase s key = None).
Proof.
  intros HE Hidx. unfold erase. rewrite Hidx. cbn [mbind option_bind].
  destruct (N.eqb_spec _EMPTY_INDEX (_head_index s)) as [Heq|Hne].
  - split; [done|]. intros Hh. by destruct Hh.
  - split; [intros Hh; by destruct Hne|]. intros _.
    unfold erase_subtree. by rewrite HE.
Qed.


(** X13: the map that clear() leaves has no bucket: the loop over it
    ends at once, and every operation that takes a key is undefined, the
    inserts included. *)
Theorem clear_leaves_unusable_map s key value parent :
  size (clear s) = 0%nat ∧ table_size (clear s) = 0 ∧
  traverse (clear s) = Some [] ∧
  index (clear s) key = None ∧ at_key (clear s) key = None ∧
  insert (clear s) key value = None ∧
  insert_under (clear s) key value parent = None ∧
  erase (clear s) key = None ∧
  set_parent (clear s) key parent = None ∧
  subscript (clear s) key value = None.
Proof. by split_and!. Qed.

Lemma erase_nonroot s key i s' :
  tree_wf s → index s key = Some i → i ≠ _head_index s →
  erase s key = Some s' →
  ∃ σ2, erase_subtree (_nodes s) i = Some σ2 ∧
        tree_wf (with_nodes σ2 s) ∧ (1 ≤ size σ2)%nat ∧
        (load_factor_below_MIN (with_nodes σ2 s) = false ∧
           s' = with_nodes σ2 s
         ∨ load_factor_below_MIN (with_nodes σ2 s) = true ∧
           rehash (with_nodes σ2 s) (table_size s / 2) = Some s' ∧
           3 ≤ table_size s / 2).
Proof.
  intros Hwf Hidx Hih He. unfold erase in He. rewrite Hidx in He.
  simpl in He. destruct (N.eqb_spec i (_head_index s)); [done|].
  destruct (erase_subtree (_nodes s) i) as [σ2|] eqn:Hsub; [|done].
  simpl in He.
  assert (Hi : ∃ ni, _nodes s !! i = Some ni).
  { unfold erase_subtree in Hsub.
    destruct (_nodes s !! i); [by eexists|done]. }
  destruct Hi as [ni Hi].
  destruct (erase_subtree_spec s i ni Hwf Hi Hih)
    as (σ2' & V & Hsub' & _ & _ & _ & _ & Hwf2).
  assert (σ2' = σ2) as -> by congruence.
  assert (Hhd : _head_index s ≠ _EMPTY_INDEX).
  { intros Hh. by rewrite (wf_no_root _ Hwf Hh), lookup_empty in Hi. }
  assert (Hsz : (1 ≤ size σ2)%nat).
  { pose proof (wf_root _ Hwf2 Hhd) as Hroot. simpl in Hroot.
    pose proof (map_size_ne_0_lookup_2 σ2 _ Hroot). lia. }
  exists σ2. split_and!; [done..|].
  destruct (load_factor_below_MIN _) eqn:Hload; [right|left].
  - split_and!; [done..|].
    unfold load_factor_below_MIN in Hload.
    change (table_size (with_nodes σ2 s)) with (table_size s) in Hload.
    change (size (with_nodes σ2 s)) with (size σ2) in Hload.
    destruct (table_size s =? 0); [done|].
    apply N.ltb_lt in Hload.
    apply N.div_le_lower_bound; lia.
  - split; [done|]. by injection He.
Qed.

(** X14: on a map whose links agree, an erase that returns, of a key
    that resolves to a slot other than the root identifier, leaves the
    root identifier and the root record in place and the bucket table in
    place: the table keeps its length, or it is halved to no less than
    three buckets. *)
Theorem erase_keeps_buckets s key i s' :
  tree_wf s → index s key = Some i → i ≠ _head_index s →
  erase s key = Some s' →
  _head_index s' = _head_index s ∧
  is_Some (_nodes s' !! _head_index s) ∧
  (table_size s' = table_size s ∨
   table_size s' = table_size s / 2 ∧ 3 ≤ table_size s').
Proof.
  intros Hwf Hidx Hih He.
  destruct (erase_nonroot _ _ _ _ Hwf Hidx Hih He)
    as (σ2 & Hsub & Hwf2 & Hsz & [[_ ->]|(_ & Hre & Hn)]).
  - assert (Hhd : _head_index s ≠ _EMPTY_INDEX).
    { intros Hh. pose proof (wf_no_root _ Hwf2 Hh) as He2. simpl in He2.
      rewrite He2, map_size_empty in Hsz. lia. }
    split_and!; [done| |by left]. by apply (wf_root _ Hwf2).
  - assert (Hhd : _head_index s ≠ _EMPTY_INDEX).
    { intros Hh. pose proof (wf_no_root _ Hwf2 Hh) as He2. simpl in He2.
      rewrite He2, map_size_empty in Hsz. lia. }
    pose proof (rehash_inv _ _ _ Hre) as (Hu & Hh & Hts).
    split_and!; [done| |right; by rewrite Hts].
    destruct (wf_root _ Hwf2 Hhd) as [hn Hhn]. simpl in Hhn.
    destruct (unlinked_lookup_eq _ _ _ hn Hu Hhn) as (hn' & ? & _).
    by eexists.
Qed.

(** X15: on a map whose links agree, an erase that returns and changes
    the length of the table, of a key that resolves to a slot other than
    the root identifier, rebuilds the chains: the map it returns has
    links that agree, chains that end, a bucket, and every record on the
    chain of the bucket of its hash. *)
Theorem erase_with_shrink_reindexes s key i s' :
  tree_wf s → index s key = Some i → i ≠ _head_index s →
  erase s key = Some s' → table_size s' ≠ table_size s →
  wf s' ∧ indexed s'.
Proof.
  intros Hwf Hidx Hih He Hts.
  destruct (erase_nonroot _ _ _ _ Hwf Hidx Hih He)
    as (σ2 & Hsub & Hwf2 & Hsz & [[_ ->]|(_ & Hre & Hn)]); [done|].
  assert (Hn0 : table_size s / 2 ≠ 0) by lia.
  destruct (rehash_spec (with_nodes σ2 s) (table_size s / 2))
    as (s'' & Hre' & Hok); [by apply (wf_sentinel _ Hwf2)|by left|].
  assert (s'' = s') as -> by congruence.
  pose proof (rehash_inv _ _ _ Hre) as (Hu & Hh & Hts').
  split; [split_and!|].
  - eapply tree_wf_erase; [exact Hwf|exact He].
  - done.
  - by rewrite Hts'.
  - intros x [nx Hx].
    eapply rehash_buckets;
      [by apply (wf_sentinel _ Hwf2)|exact Hn0|exact Hre|].
    destruct (unlinked_lookup_eq _ _ x nx (eq_sym Hu) Hx) as (? & ? & _).
    by eexists.
Qed.

(** The walk of [insert_map] along a chain that held an erased slot:
    it walks into a slot without record, or it stops at the new record,
    which has taken the place of an erased one. *)
Lemma chain_tail_stale σ σ2 h key fuel fuel' i0 i j (nd : node) :
  (∀ x nx2, σ2 !! x = Some nx2 →
     ∃ nx, σ !! x = Some nx ∧ pair nx = pair nx2 ∧
           hash_value nx = hash_value nx2 ∧
           next_index nx = next_index nx2) →
  σ2 !! i = None → i ≠ _EMPTY_INDEX → next_index nd = _EMPTY_INDEX →
  index_walk σ h key fuel i0 = Some i →
  chain_tail (<[j := nd]> σ2) fuel' i0 = None ∨
  chain_tail (<[j := nd]> σ2) fuel' i0 = Some j.
Proof.
  intros Hsurv Hdead HiE Hnd. revert fuel' i0.
  induction fuel as [|fuel IH]; intros fuel' i0 Hwalk; [done|].
  destruct fuel' as [|fuel']; [by left|]. simpl in *.
  destruct (decide (i0 = j)) as [->|Hij].
  { rewrite lookup_insert_eq. simpl. rewrite Hnd, N.eqb_refl. by right. }
  rewrite lookup_insert_ne by done.
  destruct (σ2 !! i0) as [nx2|] eqn:Hx2; [|by left]. simpl.
  destruct (Hsurv _ _ Hx2) as (nx & Hx & _ & _ & Hn).
  rewrite Hx in Hwalk. simpl in Hwalk. rewrite <- Hn.
  destruct (next_index nx =? _EMPTY_INDEX).
  - destruct (key_matches nx h key); injection Hwalk as <-; congruence.
  - destruct (key_matches nx h key); [injection Hwalk as <-; congruence|].
    by apply IH.
Qed.

(** X16: erase of a record other than the root, without shrink, then
    insert of the same key, without rehash: the walk to the end of the
    bucket chain runs into the erased slot.  The insert is undefined, or,
    when the store has given the new record a slot on that chain, it
    returns a map in which the chain link of the new record names the
    record itself. *)
Theorem erase_then_insert_corrupts s key value i s' :
  index s key = Some i → i ≠ _EMPTY_INDEX → i ≠ _head_index s →
  erase s key = Some s' → table_size s' = table_size s →
  load_factor_above_MAX s' = false →
  insert s' key value = None ∨
  ∃ s'' j nj, insert s' key value = Some s'' ∧
              _nodes s' !! j = None ∧
              _nodes s'' !! j = Some nj ∧ pair nj = (key, value) ∧
              next_index nj = j.
Proof.
  intros Hidx HiE Hih He Hts Hload.
  assert (Hts0 : table_size s ≠ 0).
  { intros H0. unfold index in Hidx. by rewrite H0 in Hidx. }
  unfold erase in He. rewrite Hidx in He. simpl in He.
  destruct (N.eqb_spec i (_head_index s)); [done|].
  destruct (erase_subtree (_nodes s) i) as [σ2|] eqn:Hsub; [|done].
  simpl in He.
  assert (s' = with_nodes σ2 s) as ->.
  { destruct (load_factor_below_MIN _); [|by injection He].
    apply rehash_inv in He as (_ & _ & Hn). exfalso.
    rewrite Hn in Hts. change (table_size (with_nodes σ2 s))
      with (table_size s) in Hts.
    pose proof (N.div_lt (table_size s) 2). lia. }
  destruct (erase_subtree_survivors _ _ _ Hsub) as [Hdead Hsurv].
  set (j := emplace_slot (dom σ2)).
  assert (Hj : σ2 !! j = None).
  { apply not_elem_of_dom, emplace_slot_fresh. }
  destruct (insert (with_nodes σ2 s) key value) as [s''|] eqn:Hins;
    [right|by left].
  unfold insert, _insert in Hins. rewrite Hload in Hins.
  cbn [mbind option_bind] in Hins.
  change (_nodes (with_nodes σ2 s)) with σ2 in Hins. fold j in Hins.
  change (table_size (with_nodes _ (with_nodes σ2 s)))
    with (table_size s) in Hins.
  destruct (N.eqb_spec (table_size s) 0); [done|].
  set (s2 := with_nodes (<[j := fresh_node key value]> σ2)
               (with_nodes σ2 s)) in *.
  destruct (insert_map s2 _ j) as [s3|] eqn:Hm; [|done].
  cbn [mbind option_bind] in Hins.
  assert (H3 : ∃ n3, _nodes s3 !! j = Some n3 ∧ pair n3 = (key, value) ∧
                     next_index n3 = j).
  { unfold insert_map in Hm. unfold index in Hidx.
    destruct (N.eqb_spec (table_size s) 0); [done|].
    change (_table s2) with (_table s) in Hm.
    destruct (_table s !! _) as [i0|]; [|done].
    cbn [mbind option_bind] in Hm, Hidx.
    destruct (N.eqb_spec i0 _EMPTY_INDEX); [congruence|].
    change (_nodes s2) with (<[j := fresh_node key value]> σ2) in Hm.
    destruct (chain_tail_stale (_nodes s) σ2 (hash_of key) key
                (size (_nodes s))
                (size (<[j := fresh_node key value]> σ2)) i0 i j
                (fresh_node key value) Hsurv Hdead HiE eq_refl Hidx)
      as [Ht|Ht]; rewrite Ht in Hm; [done|].
    cbn [mbind option_bind] in Hm. rewrite lookup_insert_eq in Hm.
    cbn [mbind option_bind] in Hm. injection Hm as <-. simpl.
    rewrite lookup_insert_eq. by eexists. }
  destruct H3 as (n3 & Hn3 & Hp3 & Hx3).
  assert (Hfin : ∀ σ', same_chain_data (_nodes s3) σ' →
            ∃ nj, σ' !! j = Some nj ∧ pair nj = (key, value) ∧
                  next_index nj = j).
  { intros σ' Hsame. destruct (Hsame _ _ Hn3) as (nj & Hnj & Hx & Hp & _).
    exists nj. split_and!; [done|congruence|congruence]. }
  destruct (_head_index s3 =? _EMPTY_INDEX).
  - injection Hins as <-. simpl.
    eexists _, j, n3. by split_and!.
  - destruct (push_child _ _ _) as [σ1|] eqn:Hpush; [|done].
    cbn [mbind option_bind] in Hins.
    destruct (assign_parent _ _ _) as [σ4|] eqn:Hassign; [|done].
    injection Hins as <-. simpl.
    destruct (Hfin σ4) as (nj & Hnj & Hpj & Hxj).
    { eapply same_chain_data_trans;
        [by eapply push_child_same|by eapply assign_parent_same]. }
    eexists _, j, nj. by split_and!.
Qed.

(** ** Insert followed by lookup, erase and [operator[]] *)

Lemma insert_resolves_new s key value :
  wf s → indexed s →
  (load_factor_above_MAX s = true → table_size s * 2 < size_t_range) →
  keyeq key key = true →
  index s key = Some _EMPTY_INDEX →
  ∃ s' j nj,
    insert s key value = Some s' ∧ _nodes s !! j = None ∧
    j ≠ _EMPTY_INDEX ∧ index s' key = Some j ∧
    _nodes s' !! j = Some nj ∧ pair nj = (key, value) ∧
    size s' = S (size s).
Proof.
  intros Hwfs Hidx Hsmall Hrefl Habs. pose proof Hwfs as (Hwf & Hok & Hts).
  destruct (_insert_spec s key value (wf_sentinel _ Hwf) Hok Hts Hsmall)
    as (j & s1 & Hins & _).
  destruct (_insert_inv _ _ _ _ _ Hins) as (Hj & HjE & _).
  pose proof (_insert_resolves_new _ _ _ _ _ Hwfs Hidx Hsmall Hrefl Habs Hins)
    as Hj1.
  destruct (insert_after__insert s key value j s1 Hwf Hins)
    as (s' & nj & Hs' & Htab & Hsame & Hsz & Hnj & Hpj & _).
  exists s', j, nj. split_and!; [done..| |done|done|done].
  by eapply linked_index.
Qed.

Lemma insert_unfold s key value s' :
  _head_index s ≠ _EMPTY_INDEX → insert s key value = Some s' →
  ∃ j s1 σ1 σ2,
    _insert s key value = Some (j, s1) ∧
    push_child (_nodes s1) (_head_index s) j = Some σ1 ∧
    assign_parent σ1 j (_head_index s) = Some σ2 ∧
    s' = with_nodes σ2 s1.
Proof.
  intros Hhd Hs'. unfold insert in Hs'.
  destruct (_insert s key value) as [[j s1]|] eqn:Hins; [|done].
  simpl in Hs'.
  destruct (_insert_inv _ _ _ _ _ Hins) as (_ & _ & Hh & _).
  rewrite Hh in Hs'.
  destruct (N.eqb_spec (_head_index s) _EMPTY_INDEX); [done|].
  destruct (push_child _ _ _) as [σ1|] eqn:Hpush; [|done]. simpl in Hs'.
  destruct (assign_parent _ _ _) as [σ2|] eqn:Hassign; [|done].
  injection Hs' as <-. by exists j, s1, σ1, σ2.
Qed.

Lemma node_eq_unlinked (nd nd' : node) :
  pair nd = pair nd' → hash_value nd = hash_value nd' →
  childs nd = childs nd' → parent_index nd = parent_index nd' →
  with_next_index _EMPTY_INDEX nd = with_next_index _EMPTY_INDEX nd'.
Proof.
  destruct nd, nd'. simpl. intros -> -> -> ->. done.
Qed.

(** X17: on a map whose links agree, whose bucket chains end, which
    has a bucket and every record on the chain of the bucket of its hash,
    with a key equality that holds of the key and itself, and when a
    doubling of the table stays within size_t: insert of a key that
    resolves to no record, followed by erase of that key, returns and
    gives back the records and the tree that were there: the store holds
    the same pairs with the same parent and child links, the root is the
    same, and so is the size.  (On the map without records the erase goes
    through clear().) *)
Theorem insert_then_erase_restores s key value :
  wf s → indexed s →
  (load_factor_above_MAX s = true → table_size s * 2 < size_t_range) →
  keyeq key key = true →
  index s key = Some _EMPTY_INDEX →
  ∃ s1 s2, insert s key value = Some s1 ∧ erase s1 key = Some s2 ∧
           unlinked (_nodes s2) = unlinked (_nodes s) ∧
           _head_index s2 = _head_index s ∧ size s2 = size s.
Proof.
  intros Hwfs Hidx Hsmall Hrefl Habs.
  pose proof Hwfs as (Hwf & Hok & Hts).
  destruct (insert_resolves_new s key value Hwfs Hidx Hsmall Hrefl Habs)
    as (s1 & j & nj & Hs1 & Hj & HjE & Hj1 & Hnj & Hpj & Hsz1).
  exists s1. cut (∃ s2, erase s1 key = Some s2 ∧
        unlinked (_nodes s2) = unlinked (_nodes s) ∧
        _head_index s2 = _head_index s ∧ size s2 = size s).
  { intros (s2 & ?). by exists s2. }
  assert (Hfin : ∀ s2, unlinked (_nodes s2) = unlinked (_nodes s) →
            size s2 = size s).
  { intros s2 Hu. by apply unlinked_size_eq. }
  destruct (decide (_head_index s = _EMPTY_INDEX)) as [He|Hne].
  { pose proof (wf_no_root _ Hwf He) as Hempty.
    assert (Hh1 : _head_index s1 = j).
    { unfold insert in Hs1.
      destruct (_insert s key value) as [[j' s0]|] eqn:Hins; [|done].
      simpl in Hs1.
      destruct (_insert_inv _ _ _ _ _ Hins) as (_ & _ & Hh & _).
      rewrite Hh in Hs1.
      destruct (N.eqb_spec (_head_index s) _EMPTY_INDEX); [|done].
      injection Hs1 as <-. simpl.
      simpl in Hnj. destruct (decide (j' = j)) as [|Hne]; [done|].
      destruct (_insert_old_record _ _ _ _ _ _ _ Hins Hnj ltac:(done))
        as (? & Hx & _).
      by rewrite Hempty, lookup_empty in Hx. }
    exists (clear s1). unfold erase. rewrite Hj1. cbn [mbind option_bind].
    rewrite Hh1, N.eqb_refl.
    assert (Hu : unlinked (_nodes (clear s1)) = unlinked (_nodes s)).
    { simpl. by rewrite Hempty. }
    split_and!; [done|done|by rewrite He|by apply Hfin]. }
  destruct (insert_unfold _ _ _ _ Hne Hs1)
    as (j' & s0 & σ1 & σ2 & Hins & Hpush & Hassign & ->).
  destruct (_insert_inv _ _ _ _ _ Hins) as (Hj' & _ & Hh0 & _).
  destruct (link_new_tree _ _ _ _ _ _ _ _ Hins Hpush Hassign)
    as (Hold & (nj' & Hnj' & _ & Hpaj & Hcj) & Hdom).
  assert (j' = j) as ->.
  { destruct (decide (j' = j)) as [|Hjj]; [done|]. exfalso.
    simpl in Hnj. destruct (Hdom j) as [|[? Hc]]; [by eexists|done|].
    congruence. }
  simpl in Hnj. assert (nj' = nj) as -> by congruence.
  destruct (wf_root _ Hwf Hne) as [hd Hhd].
  assert (Hjh : j ≠ _head_index s) by congruence.
  rewrite decide_False in Hcj by done.
  assert (Hwf1 : tree_wf (with_nodes σ2 s0)) by (by eapply tree_wf_insert).
  destruct (erase_subtree_spec (with_nodes σ2 s0) j nj Hwf1 Hnj)
    as (σe & V & Hsub & _ & HV & Hσe & _ & Hwfe).
  { simpl. by rewrite Hh0. }
  simpl in Hsub, HV, Hσe.
  assert (HVj : ∀ x, x ∈ V ↔ x = j).
  { intros x. rewrite HV. split; [|intros ->; apply rtc_refl].
    intros [->|(y & (nj' & Hnj'' & Hy) & _)]%rtc_inv; [done|].
    assert (nj' = nj) as -> by congruence.
    rewrite Hcj in Hy. by apply elem_of_nil in Hy. }
  assert (Hu : unlinked σe = unlinked (_nodes s)).
  { apply map_eq. intros x. rewrite !lookup_unlinked, Hσe.
    destruct (decide (x ∈ V)) as [Hx|Hx].
    { apply HVj in Hx as ->. by rewrite Hj. }
    assert (Hxj : x ≠ j) by (intros ->; by apply Hx, HVj).
    destruct (_nodes s !! x) as [nx|] eqn:Hnx.
    - destruct (Hold _ _ Hnx) as (nx' & Hnx' & Hp & Hh & Hpa & Hc).
      rewrite Hnx'. simpl. f_equal. rewrite Hpaj.
      destruct (decide (x = _head_index s)) as [->|Hxh].
      + apply node_eq_unlinked; simpl; [done..| |done].
        rewrite Hc, filter_app, filter_cons_False, filter_nil, app_nil_r
          by (intros Hc'; by apply Hc').
        apply filter_all. intros c Hcx ->.
        destruct (wf_child _ Hwf _ _ _ Hnx Hcx) as (? & ? & _). congruence.
      + apply node_eq_unlinked; [done..| |done]. by rewrite Hc.
    - destruct (σ2 !! x) as [nx'|] eqn:Hnx'; [|done]. exfalso.
      destruct (Hdom x) as [|[? ?]]; [by eexists|done|congruence]. }
  assert (Hroot : (1 ≤ size σe)%nat).
  { rewrite (unlinked_size_eq _ _ Hu).
    pose proof (map_size_ne_0_lookup_2 (_nodes s) _ (mk_is_Some _ _ Hhd)).
    lia. }
  unfold erase. rewrite Hj1. cbn [mbind option_bind].
  change (_head_index (with_nodes σ2 s0)) with (_head_index s0).
  rewrite Hh0. destruct (N.eqb_spec j (_head_index s)); [done|].
  change (_nodes (with_nodes σ2 s0)) with σ2. rewrite Hsub.
  cbn [mbind option_bind].
  destruct (load_factor_below_MIN _) eqn:Hload.
  - assert (Hn : table_size (with_nodes σe (with_nodes σ2 s0)) / 2 ≠ 0).
    { unfold load_factor_below_MIN in Hload.
      change (size (with_nodes σe (with_nodes σ2 s0))) with (size σe)
        in Hload.
      destruct (table_size _ =? 0); [done|]. apply N.ltb_lt in Hload.
      assert (3 ≤ table_size (with_nodes σe (with_nodes σ2 s0)) / 2);
        [apply N.div_le_lower_bound; lia|lia]. }
    destruct (rehash_spec (with_nodes σe (with_nodes σ2 s0)) _
                (wf_sentinel _ Hwfe) (or_introl Hn)) as (s2 & Hre & _).
    exists s2. split; [done|].
    apply rehash_inv in Hre as (Hu2 & Hh2 & _). simpl in Hu2, Hh2.
    assert (Hu' : unlinked (_nodes s2) = unlinked (_nodes s))
      by congruence.
    split_and!; [done|congruence|by apply Hfin].
  - eexists. split; [done|]. simpl.
    split_and!; [done..|]. by apply (Hfin (with_nodes σe (with_nodes σ2 s0))).
Qed.

(** X18: [operator[]]: with a key that resolves to a record it returns
    the value of that record and leaves the map as it is; with a key that
    resolves to none, on a map whose links agree, whose bucket chains
    end, which has a bucket and every record on the chain of the bucket
    of its hash, with a key equality that holds of the key and itself,
    and when a doubling of the table stays within size_t, it inserts the
    key with the default value, as [insert] does, and returns that value;
    the size has grown by one. *)
Theorem subscript_inserts_default s key dflt :
  (∀ i nd, index s key = Some i → i ≠ _EMPTY_INDEX →
     _nodes s !! i = Some nd →
     subscript s key dflt = Some (snd (pair nd), s)) ∧
  (wf s → indexed s →
   (load_factor_above_MAX s = true → table_size s * 2 < size_t_range) →
   keyeq key key = true →
   index s key = Some _EMPTY_INDEX →
     ∃ s', insert s key dflt = Some s' ∧
           subscript s key dflt = Some (dflt, s') ∧
           size s' = S (size s) ∧ at_key s' key = Some dflt).
Proof.
  split.
  - intros i nd Hi HiE Hnd. unfold subscript. rewrite Hi.
    cbn [mbind option_bind].
    destruct (N.eqb_spec i _EMPTY_INDEX); [done|]. by rewrite Hnd.
  - intros Hwfs Hidx Hsmall Hrefl Habs.
    destruct (insert_resolves_new s key dflt Hwfs Hidx Hsmall Hrefl Habs)
      as (s' & j & nj & Hs' & _ & _ & Hj & Hnj & Hpj & Hsz).
    exists s'. split_and!; [done| |done|].
    + unfold subscript. rewrite Habs. cbn [mbind option_bind].
      rewrite N.eqb_refl, Hs'. cbn [mbind option_bind].
      rewrite Hj. cbn [mbind option_bind]. rewrite Hnj. simpl.
      by rewrite Hpj.
    + rewrite (at_key_found _ _ _ _ Hj Hnj). by rewrite Hpj.
Qed.

(** X19: [rehash] to a table with buckets ends, whatever state the
    chains were in; it keeps the records with their pairs and tree links
    and the root, and leaves every record on the chain of the bucket of
    its hash.  [rehash] to no bucket takes a hash modulo zero when there
    is a record. *)
Theorem rehash_rebuilds_index s n :
  _nodes s !! _EMPTY_INDEX = None →
  (n ≠ 0 →
   ∃ s', rehash s n = Some s' ∧ table_size s' = n ∧
         _head_index s' = _head_index s ∧
         unlinked (_nodes s') = unlinked (_nodes s) ∧
         chains_ok s' ∧ indexed s') ∧
  (_nodes s ≠ ∅ → rehash s 0 = None).
Proof.
  intros HE. split.
  - intros Hn.
    destruct (rehash_spec s n HE (or_introl Hn)) as (s' & Hre & Hok).
    pose proof (rehash_inv _ _ _ Hre) as (Hu & Hh & Hts).
    exists s'. split_and!; [done..|].
    intros x [nx Hx]. eapply rehash_buckets; [done..|].
    destruct (unlinked_lookup_eq _ _ x nx (eq_sym Hu) Hx) as (? & ? & _).
    by eexists.
  - intros Hne. apply map_choose in Hne as (i & ni & Hi).
    unfold rehash.
    destruct (iteration_order (dom (unlinked (_nodes s)))) as [|j l] eqn:Hl.
    + assert (Hin : i ∈ iteration_order (dom (unlinked (_nodes s)))).
      { apply iteration_order_elem. rewrite dom_unlinked.
        apply elem_of_dom. by eexists. }
      rewrite Hl in Hin. by apply elem_of_nil in Hin.
    + assert (Hj : j ∈ dom (unlinked (_nodes s))).
      { apply iteration_order_elem. rewrite Hl. by left. }
      apply elem_of_dom in Hj as [nj Hj]. simpl. rewrite Hj. done.
Qed.

Lemma insert_under_unfold s key value parent s' :
  insert_under s key value parent = Some s' →
  ∃ j s1 p σ1 σ2,
    _insert s key value = Some (j, s1) ∧ index s1 parent = Some p ∧
    push_child (_nodes s1) p j = Some σ1 ∧
    assign_parent σ1 j p = Some σ2 ∧ s' = with_nodes σ2 s1.
Proof.
  intros Hs'. unfold insert_under in Hs'.
  destruct (_insert s key value) as [[j s1]|] eqn:Hins; [|done].
  simpl in Hs'.
  destruct (index s1 parent) as [p|] eqn:Hp; [|done]. simpl in Hs'.
  destruct (push_child _ _ _) as [σ1|] eqn:Hpush; [|done]. simpl in Hs'.
  destruct (assign_parent _ _ _) as [σ2|] eqn:Hassign; [|done].
  injection Hs' as <-. by exists j, s1, p, σ1, σ2.
Qed.

(** X20: on a map whose links agree, whose bucket chains end and which
    has a bucket, and when a doubling of the table stays within size_t,
    insert with a parent key that resolves to a record returns a map with
    one record more; the new record holds the pair, has no children, names as
    its parent a record that was there before and has the parent key (the
    one the key resolved to, when the call does not rehash), and is the
    last entry of that record's child vector; the root and all other
    records are as before. *)
Theorem insert_under_appends s key value parent p :
  wf s →
  (load_factor_above_MAX s = true → table_size s * 2 < size_t_range) →
  index s parent = Some p → p ≠ _EMPTY_INDEX →
  ∃ s' j p' pn nj pn',
    insert_under s key value parent = Some s' ∧
    _nodes s !! j = None ∧
    _nodes s !! p' = Some pn ∧
    key_matches pn (hash_of parent) parent = true ∧
    (load_factor_above_MAX s = false → p' = p) ∧
    _nodes s' !! j = Some nj ∧ pair nj = (key, value) ∧
    parent_index nj = p' ∧ childs nj = [] ∧
    _nodes s' !! p' = Some pn' ∧ pair pn' = pair pn ∧
    childs pn' = childs pn ++ [j] ∧
    _head_index s' = _head_index s ∧ size s' = S (size s) ∧
    (∀ x nx, _nodes s !! x = Some nx → x ≠ p' →
       ∃ nx', _nodes s' !! x = Some nx' ∧ pair nx' = pair nx ∧
              parent_index nx' = parent_index nx ∧
              childs nx' = childs nx).
Proof.
  intros Hwfs Hsmall Hpar HpE. pose proof Hwfs as (Hwf & Hok & Hts).
  destruct (_insert_spec s key value (wf_sentinel _ Hwf) Hok Hts Hsmall)
    as (j & s1 & Hins & _).
  destruct (_insert_inv _ _ _ _ _ Hins) as (Hj & HjE & Hh1 & Hu & _).
  destruct (_insert_keeps_old _ _ _ _ _ _ _ Hwfs Hsmall Hins Hpar HpE)
    as (p' & pn & Hpar1 & Hp'E & Hp'j & Hpn & Hk & Hsame).
  assert (Hp1 : is_Some (_nodes s1 !! p')).
  { destruct (unlinked_lookup_eq _
                (<[j := fresh_node key value]> (_nodes s)) p' pn Hu)
      as (? & ? & _); [by rewrite lookup_insert_ne|by eexists]. }
  destruct (insert_under_after__insert s key value parent j s1 p'
              Hins Hpar1 Hp1) as (s' & nj0 & Hs' & _ & _ & Hsz & _).
  destruct (insert_under_unfold _ _ _ _ _ Hs')
    as (j' & s1' & p'' & σ1 & σ2 & Hins' & Hpar' & Hpush & Hassign & ->).
  assert (j' = j ∧ s1' = s1) as [-> ->] by (split; congruence).
  assert (p'' = p') as -> by congruence.
  destruct (link_new_tree _ _ _ _ _ _ _ _ Hins Hpush Hassign)
    as (Hold & (nj & Hnj & Hpj & Hpaj & Hcj) & _).
  rewrite decide_False in Hcj by done.
  destruct (Hold _ _ Hpn) as (pn' & Hpn' & Hpp & _ & _ & Hcp).
  rewrite decide_True in Hcp by done.
  exists (with_nodes σ2 s1), j, p', pn, nj, pn'.
  split_and!; try done.
  intros x nx Hx Hxp.
  destruct (Hold _ _ Hx) as (nx' & Hx' & ? & _ & ? & Hc).
  rewrite decide_False in Hc by done. by exists nx'.
Qed.

(** X21: after any permitted sequence of operations on a new map that
    runs without undefined behaviour, the links agree: the sentinel names
    no record; every entry of a child vector is a record that names the
    holder as its parent; every record with a parent is in the child
    vector of that parent; no child vector has an entry twice. *)
Theorem links_agree_invariant ops s' :
  permitted empty_tree ops → run empty_tree ops = Some s' →
  _nodes s' !! _EMPTY_INDEX = None ∧
  (∀ i nd c, _nodes s' !! i = Some nd → c ∈ childs nd →
     ∃ cn, _nodes s' !! c = Some cn ∧ parent_index cn = i) ∧
  (∀ i nd, _nodes s' !! i = Some nd → parent_index nd ≠ _EMPTY_INDEX →
     ∃ pn, _nodes s' !! parent_index nd = Some pn ∧ i ∈ childs pn) ∧
  (∀ i nd, _nodes s' !! i = Some nd → NoDup (childs nd)).
Proof.
  intros Hperm Hrun.
  pose proof (tree_wf_run ops empty_tree s' tree_wf_empty Hperm Hrun) as Hwf.
  split_and!.
  - by apply wf_sentinel.
  - by apply wf_child.
  - by apply wf_parent.
  - by apply wf_childs_NoDup.
Qed.

(** ** Programs of inserts *)

Lemma stored_insert s key value s' k :
  tree_wf s → insert s key value = Some s' →
  (stored s k → stored s' k) ∧ (keyeq key key = true → stored s' key).
Proof.
  intros Hwf Hs'.
  destruct (insert_link _ _ _ _ Hwf Hs')
    as (j & s1 & Hins & _ & Hsame & _).
  destruct (_insert_inv _ _ _ _ _ Hins) as (Hj & _ & _ & Hu & _).
  split.
  - intros (x & nx & Hx & Hk).
    destruct (unlinked_lookup_eq _
                (<[j := fresh_node key value]> (_nodes s)) x nx Hu)
      as (nx1 & Hx1 & Hp1 & Hh1 & _).
    { rewrite lookup_insert_ne; [done|congruence]. }
    destruct (Hsame _ _ Hx1) as (nx' & Hx' & _ & Hp' & Hh').
    exists x, nx'. split; [done|]. unfold key_matches in *.
    by rewrite Hp', Hh', Hp1, Hh1.
  - intros Hrefl.
    destruct (_insert_new_record _ _ _ _ _ Hins) as (nj & Hnj & Hp & Hh & _).
    destruct (Hsame _ _ Hnj) as (nj' & Hnj' & _ & Hp' & Hh').
    exists j, nj'. split; [done|]. unfold key_matches.
    rewrite Hp', Hh', Hp, Hh. simpl. by rewrite N.eqb_refl.
Qed.

Lemma inserts_run (kvs : list (K * T)) s :
  wf s → indexed s → connected s →
  9 * table_size s ≤ 20 * N.of_nat (size s) + 18 →
  N.of_nat (size s + length kvs) < 1152921504606846976 →
  ∃ s', run s ((λ kv, Insert kv.1 kv.2) <$> kvs) = Some s' ∧
        size s' = (size s + length kvs)%nat ∧
        wf s' ∧ indexed s' ∧ connected s' ∧
        (∀ k, stored s k → stored s' k) ∧
        ((∀ k, keyeq k k = true) → ∀ kv, kv ∈ kvs → stored s' kv.1).
Proof.
  revert s. induction kvs as [|[key value] kvs IH];
    intros s Hwfs Hidx Hconn Hbound Hlen.
  { exists s. simpl. split_and!; [done|lia|done..|].
    intros _ kv Hkv. by apply elem_of_nil in Hkv. }
  pose proof Hwfs as (Hwf & Hok & Hts).
  assert (Hsmall : load_factor_above_MAX s = true →
                   table_size s * 2 < size_t_range).
  { intros _. unfold size_t_range. simpl in Hlen. lia. }
  destruct (_insert_spec s key value (wf_sentinel _ Hwf) Hok Hts Hsmall)
    as (j & s0 & Hins & _).
  destruct (insert_after__insert s key value j s0 Hwf Hins)
    as (s1 & nj & Hs1 & _).
  pose proof (insert_size _ _ _ _ Hs1) as [Hsz1 Hts1].
  assert (Hbound1 : 9 * table_size s1 ≤ 20 * N.of_nat (size s1) + 18).
  { rewrite Hts1, Hsz1.
    destruct (load_factor_above_MAX s) eqn:Hload; [|lia].
    unfold wrap_size_t. rewrite N.mod_small by (by apply Hsmall).
    unfold load_factor_above_MAX in Hload.
    destruct (N.eqb_spec (table_size s) 0); [done|].
    apply N.ltb_lt in Hload. lia. }
  destruct (IH s1) as (s' & Hrun & Hsz & Hwf' & Hidx' & Hconn' & Hkeep & Hall).
  - by eapply wf_insert.
  - by eapply indexed_insert.
  - by eapply connected_insert.
  - done.
  - rewrite Hsz1. simpl in Hlen. lia.
  - destruct (stored_insert s key value s1 key Hwf Hs1) as [_ Hnew].
    exists s'. simpl. rewrite Hs1. simpl.
    split_and!; [done|rewrite Hsz, Hsz1; lia|done..| |].
    + intros k Hk. apply Hkeep.
      by apply (stored_insert s key value s1 k Hwf Hs1).
    + intros Hrefl kv [->|Hkv]%elem_of_cons; [|by apply Hall].
      simpl. apply Hkeep, Hnew, Hrefl.
Qed.

(** X22: a program of inserts on a new map never meets undefined
    behaviour (up to 2^60 records): it returns a map with one record per
    insert whose links agree, whose chains end, with every record on the
    chain of its bucket and below the root; and with a reflexive key
    equality the lookup of every inserted key succeeds. *)
Theorem inserts_never_undefined (kvs : list (K * T)) :
  N.of_nat (length kvs) < 1152921504606846976 →
  ∃ s', run empty_tree ((λ kv, Insert kv.1 kv.2) <$> kvs) = Some s' ∧
        size s' = length kvs ∧
        wf s' ∧ indexed s' ∧ connected s' ∧
        ((∀ k, keyeq k k = true) →
         ∀ kv, kv ∈ kvs → lookup_succeeds s' kv.1 = true).
Proof.
  intros Hlen.
  destruct (inserts_run kvs empty_tree)
    as (s' & Hrun & Hsz & Hwf' & Hidx' & Hconn' & _ & Hall).
  - apply wf_empty.
  - intros x [nx Hx]. simpl in Hx. by rewrite lookup_empty in Hx.
  - apply connected_empty.
  - vm_compute. by intros [=].
  - done.
  - exists s'. split_and!; [done..|].
    intros Hrefl kv Hkv. destruct Hwf' as (_ & Hok & Hts).
    destruct (index_stored s' kv.1 Hok Hts Hidx') as (r & Hr & Hiff & _).
    unfold lookup_succeeds. rewrite Hr.
    destruct (N.eqb_spec r _EMPTY_INDEX) as [->|]; [|done].
    exfalso. by apply (proj2 Hiff (Hall Hrefl kv Hkv)).
Qed.

Lemma index_wf_run ops s s' :
  wf s → indexed s →
  9 * table_size s ≤ 20 * N.of_nat (size s) + 18 →
  N.of_nat (size s + length ops) < 1152921504606846976 →
  Forall insert_operation ops → permitted s ops →
  run s ops = Some s' → wf s' ∧ indexed s'.
Proof.
  revert s. induction ops as [|o ops IH];
    intros s Hwfs Hidx Hbound Hlen Hops Hperm Hrun.
  { by injection Hrun as <-. }
  apply Forall_cons in Hops as [Ho Hops]. simpl in Hrun, Hperm.
  destruct Hperm as [Hpo Hperm].
  destruct (apply_operation s o) as [s1|] eqn:Hstep; [|done].
  simpl in Hrun.
  assert (Hsmall : load_factor_above_MAX s = true →
                   table_size s * 2 < size_t_range).
  { intros _. unfold size_t_range. simpl in Hlen. lia. }
  assert (Hstepped : wf s1 ∧ indexed s1 ∧ size s1 = S (size s) ∧
            table_size s1 =
              (if load_factor_above_MAX s
               then wrap_size_t (table_size s * 2) else table_size s)).
  { destruct o as [key value|key value parent|key|key new_parent];
      simpl in Hstep, Ho, Hpo; [| |done..].
    - pose proof (insert_size _ _ _ _ Hstep) as [? ?].
      split_and!; [by eapply wf_insert|by eapply indexed_insert|done..].
    - pose proof (insert_under_size _ _ _ _ _ Hstep) as [? ?].
      split_and!;
        [by eapply wf_insert_under|by eapply indexed_insert_under|done..]. }
  destruct Hstepped as (Hwf1 & Hidx1 & Hsz1 & Hts1).
  apply (IH s1); [done..| | |done|by apply Hperm|done].
  - rewrite Hts1, Hsz1.
    destruct (load_factor_above_MAX s) eqn:Hload; [|lia].
    unfold wrap_size_t. rewrite N.mod_small by (by apply Hsmall).
    unfold load_factor_above_MAX in Hload. destruct Hwfs as (_ & _ & Hts).
    destruct (N.eqb_spec (table_size s) 0); [done|].
    apply N.ltb_lt in Hload. lia.
  - rewrite Hsz1. simpl in Hlen. lia.
Qed.

Lemma indexed_empty : indexed empty_tree.
Proof. intros x [nx Hx]. simpl in Hx. by rewrite lookup_empty in Hx. Qed.

(** ** Erase by key *)


(** C3 (as amended): erase with a key that resolves to the root
    identifier leaves the empty map: no record, no root.  On a map whose
    links agree, whose bucket chains end, which has a bucket and every
    record on the chain of the bucket of its hash, a key resolves to the
    root identifier when the root record has the hash of the key and a
    key that the key equality accepts and no other record has: erase with
    that key then leaves the empty map. *)
Theorem erase_root_clears s key :
  (index s key = Some (_head_index s) →
   ∃ s', erase s key = Some s' ∧ size s' = 0%nat ∧
         _head_index s' = _EMPTY_INDEX ∧ _nodes s' = ∅) ∧
  (wf s → indexed s →
   ∀ hn, _nodes s !! _head_index s = Some hn →
   hash_value hn = hash_of key → keyeq (fst (pair hn)) key = true →
   (∀ x nx, _nodes s !! x = Some nx → hash_value nx = hash_of key →
            keyeq (fst (pair nx)) key = true → x = _head_index s) →
   index s key = Some (_head_index s) ∧
   ∃ s', erase s key = Some s' ∧ size s' = 0%nat ∧
         _head_index s' = _EMPTY_INDEX ∧ _nodes s' = ∅).
Proof.
  split; [apply erase_at_root|].
  intros (Hwf & Hok & Hts) Hidx hn Hhn Hh Hk Huniq.
  destruct (index_stored s key Hok Hts Hidx) as (r & Hr & Hiff & Hfound).
  assert (HrE : r ≠ _EMPTY_INDEX).
  { apply Hiff. exists (_head_index s), hn. split; [done|].
    unfold key_matches. by rewrite Hh, N.eqb_refl, Hk. }
  destruct (Hfound HrE) as (nr & Hnr & Hkr).
  unfold key_matches in Hkr. apply andb_true_iff in Hkr as [Hhr Hkr].
  apply N.eqb_eq in Hhr.
  assert (r = _head_index s) as -> by (by eapply Huniq).
  split; [done|]. by apply erase_at_root.
Qed.

End hash_tree.

Arguments hash_tree : clear implicits.
Arguments mk_hash_tree {K T}.
Arguments empty_tree {K T}.
Arguments operation : clear implicits.
Arguments Insert {K T}.
Arguments InsertUnder {K T}.
Arguments Erase {K T}.
Arguments SetParent {K T}.

(** ** A slot store that reuses the lowest free slot *)

Fixpoint first_free (d : gset N) (fuel : nat) (i : N) : N :=
  match fuel with
  | O => i
  | S fuel' =>
      if bool_decide (i ∈ d) then first_free d fuel' (N.succ i) else i
  end.

Definition lowest_free (d : gset N) : N :=
  let d' := d ∪ {[_EMPTY_INDEX]} in first_free d' (size d') 0.

Definition ascending (d : gset N) : list N :=
  merge_sort N.le (elements d).


Lemma first_free_range (d : gset N) fuel i :
  first_free d fuel i ∉ d ∨
  (∀ j, i ≤ j → j < i + N.of_nat (S fuel) → j ∈ d).
Proof.
  revert i; induction fuel as [|fuel IH]; intros i; simpl.
  - destruct (decide (i ∈ d)) as [Hi|Hi]; [right|by left].
    intros j ? ?. by replace j with i by lia.
  - case_bool_decide as Hi; [|by left].
    destruct (IH (N.succ i)) as [?|Hall]; [by left|right].
    intros j ? ?. destruct (decide (j = i)) as [->|]; [done|].
    apply Hall; lia.
Qed.

Lemma first_free_fresh (d : gset N) : first_free d (size d) 0 ∉ d.
Proof.
  destruct (first_free_range d (size d) 0) as [?|Hall]; [done|].
  exfalso.
  assert (Hsub : list_to_set (C := gset N) (N.of_nat <$> seq 0 (S (size d))) ⊆ d).
  { intros j (n & -> & Hn)%elem_of_list_to_set%list_elem_of_fmap.
    apply elem_of_seq in Hn. apply Hall; lia. }
  apply subseteq_size in Hsub.
  rewrite size_list_to_set in Hsub
    by (apply (NoDup_fmap_2 _), NoDup_seq).
  rewrite length_fmap, length_seq in Hsub. lia.
Qed.

#[export] Program Instance lowest_free_store : SlotStore := {|
  emplace_slot := lowest_free;
  iteration_order := ascending
|}.
Next Obligation.
  intros d Hin. unfold lowest_free in Hin.
  apply (first_free_fresh (d ∪ {[_EMPTY_INDEX]})). set_solver.
Qed.
Next Obligation.
  intros d Heq. unfold lowest_free in Heq.
  apply (first_free_fresh (d ∪ {[_EMPTY_INDEX]})). rewrite Heq. set_solver.
Qed.
Next Obligation.
  intros d. unfold ascending. rewrite merge_sort_Permutation.
  apply NoDup_elements.
Qed.
Next Obligation.
  intros d i. unfold ascending. rewrite merge_sort_Permutation.
  apply elem_of_elements.
Qed.


(** ** A map from numbers to numbers

    Keys and values are numbers, the hash of a key is the key, and the
    store reuses the lowest free slot and iterates by ascending slot. *)

Definition hash_id (k : N) : N := k.

Definition demo_ops : list (operation N N) :=
  [Insert 1 10; Insert 2 20; InsertUnder 3 30 2; Insert 4 40].

(** Key 1 at slot 0 is the root, keys 2 and 4 at slots 1 and 3 are its
    children, key 3 at slot 2 is the child of key 2. *)
Definition demo_tree : hash_tree N N :=
  Eval vm_compute in default empty_tree (run hash_id N.eqb empty_tree demo_ops).

Definition two_records : hash_tree N N :=
  Eval vm_compute in
    default empty_tree
      (run hash_id N.eqb empty_tree [Insert 1 10; Insert 2 20]).

Ltac permitted_steps :=
  repeat (split;
          [ first [ exact I | vm_compute; discriminate ]
          | let s' := fresh "s'" in
            let Hs := fresh "Hs" in
            intros s' Hs; vm_compute in Hs; injection Hs as <- ]);
  try exact I.

Lemma demo_tree_wf : tree_wf demo_tree.
Proof.
  apply (tree_wf_run hash_id N.eqb demo_ops empty_tree).
  - apply tree_wf_empty.
  - unfold demo_ops. cbn [permitted permitted_operation]. permitted_steps.
  - vm_compute. reflexivity.
Qed.

Lemma demo_tree_connected : connected demo_tree.
Proof.
  intros j Hj%elem_of_dom.
  assert (Hdom : dom (_nodes demo_tree) = list_to_set [0; 1; 2; 3]).
  { vm_compute. reflexivity. }
  rewrite Hdom in Hj. clear Hdom.
  assert (H01 : child_of (_nodes demo_tree) 0 1).
  { eexists. split; [vm_compute; reflexivity|]. simpl. set_solver. }
  assert (H03 : child_of (_nodes demo_tree) 0 3).
  { eexists. split; [vm_compute; reflexivity|]. simpl. set_solver. }
  assert (H12 : child_of (_nodes demo_tree) 1 2).
  { eexists. split; [vm_compute; reflexivity|]. simpl. set_solver. }
  change (_head_index demo_tree) with 0.
  apply elem_of_list_to_set in Hj.
  repeat (apply elem_of_cons in Hj as [->|Hj]).
  - apply rtc_refl.
  - by apply rtc_once.
  - eapply rtc_l; [exact H01|]. by apply rtc_once.
  - by apply rtc_once.
  - by apply elem_of_nil in Hj.
Qed.


Lemma demo_tree_index : wf demo_tree ∧ indexed demo_tree.
Proof.
  apply (index_wf_run hash_id N.eqb demo_ops empty_tree demo_tree).
  - apply wf_empty.
  - apply indexed_empty.
  - vm_compute. by intros [=].
  - vm_compute. reflexivity.
  - unfold demo_ops. repeat constructor.
  - unfold demo_ops. cbn [permitted permitted_operation]. permitted_steps.
  - vm_compute. reflexivity.
Qed.

Lemma two_records_index : wf two_records ∧ indexed two_records.
Proof.
  apply (index_wf_run hash_id N.eqb [Insert 1 10; Insert 2 20]
           empty_tree two_records).
  - apply wf_empty.
  - apply indexed_empty.
  - vm_compute. by intros [=].
  - vm_compute. reflexivity.
  - repeat constructor.
  - cbn [permitted permitted_operation]. permitted_steps.
  - vm_compute. reflexivity.
Qed.


Definition one_record : hash_tree N N :=
  Eval vm_compute in
    default empty_tree (run hash_id N.eqb empty_tree [Insert 1 10]).

Lemma one_record_wf : wf one_record.
Proof.
  eapply (wf_insert hash_id empty_tree 1 10);
    [apply wf_empty|intros _|]; vm_compute; reflexivity.
Qed.

(** The root at slot 0, key 2 at slot 1 below it, and seven records below
    key 2: nine records in sixteen buckets. *)
Definition nine_records : hash_tree N N :=
  Eval vm_compute in
    default empty_tree
      (run hash_id N.eqb empty_tree
         [Insert 1 10; InsertUnder 2 20 1; InsertUnder 3 30 2;
          InsertUnder 4 40 2; InsertUnder 5 50 2; InsertUnder 6 60 2;
          InsertUnder 7 70 2; InsertUnder 8 80 2; InsertUnder 9 90 2]).

(** *** C1 *)

Lemma single_root_invariant_witness :
  ∃ s', run hash_id N.eqb empty_tree
          [Insert 1 10; Insert 2 20; InsertUnder 3 30 2; SetParent 3 1;
           Erase 2] = Some s' ∧
        single_root s'.
Proof.
  eexists. split; [vm_compute; reflexivity|].
  eapply (single_root_invariant hash_id N.eqb
            [Insert 1 10; Insert 2 20; InsertUnder 3 30 2; SetParent 3 1;
             Erase 2]).
  - cbn [permitted permitted_operation]. permitted_steps.
  - vm_compute. reflexivity.
Defined.

(** C1 fails as stated: with the key of the root as the target of
    set_parent, the root becomes a child of its own child; erasing that
    child removes the root with it, and the map is empty while the root
    identifier still names slot 0. *)
Lemma single_root_fails_after_root_reparent :
  ∃ s', run hash_id N.eqb empty_tree
          [Insert 1 10; Insert 2 20; SetParent 1 2; Erase 2] = Some s' ∧
        _nodes s' = ∅ ∧ _head_index s' = 0 ∧ ¬ single_root s'.
Proof.
  eexists. split; [vm_compute; reflexivity|]. split; [reflexivity|].
  split; [reflexivity|]. intros (_ & _ & [Hempty _]).
  specialize (Hempty eq_refl). vm_compute in Hempty. discriminate.
Qed.

(** *** C2 *)



(** *** C3 *)

Lemma erase_root_clears_witness :
  index hash_id N.eqb demo_tree 1 = Some (_head_index demo_tree) ∧
  ∃ s', erase hash_id N.eqb demo_tree 1 = Some s' ∧ size s' = 0%nat ∧
        _head_index s' = _EMPTY_INDEX ∧ _nodes s' = ∅.
Proof.
  eapply (proj2 (erase_root_clears hash_id N.eqb demo_tree 1)
            (proj1 demo_tree_index) (proj2 demo_tree_index)).
  - vm_compute. reflexivity.
  - vm_compute. reflexivity.
  - vm_compute. reflexivity.
  - intros x nx Hx Hh Hk.
    assert (Hdom : x ∈ dom (_nodes demo_tree)).
    { apply elem_of_dom. by eexists. }
    assert (Hd : dom (_nodes demo_tree) = list_to_set [0; 1; 2; 3]).
    { vm_compute. reflexivity. }
    rewrite Hd in Hdom. apply elem_of_list_to_set in Hdom.
    repeat (apply elem_of_cons in Hdom as [->|Hdom]).
    + reflexivity.
    + vm_compute in Hx. injection Hx as <-. vm_compute in Hh.
      discriminate.
    + vm_compute in Hx. injection Hx as <-. vm_compute in Hh.
      discriminate.
    + vm_compute in Hx. injection Hx as <-. vm_compute in Hh.
      discriminate.
    + apply elem_of_nil in Hdom. destruct Hdom.
Defined.

(** C3 fails as stated: insert of key 2 below key 2 on the new map
    leaves a record at slot 0 and no root; insert of key 2 again makes the
    record at slot 1 the root.  The root's key is 2, the lookup of key 2
    resolves to slot 0, the first on the chain, and erase of key 2 removes
    that record: the root stays. *)
Lemma erase_root_key_keeps_root :
  ∃ s hn s',
    run hash_id N.eqb empty_tree [InsertUnder 2 20 2; Insert 2 21]
      = Some s ∧
    _nodes s !! _head_index s = Some hn ∧ pair hn = (2, 21) ∧
    erase hash_id N.eqb s 2 = Some s' ∧
    size s' = 1%nat ∧ _head_index s' = _head_index s ∧
    _nodes s' !! _head_index s = Some hn.
Proof.
  eexists _, _, _. split; [vm_compute; reflexivity|].
  split; [vm_compute; reflexivity|]. split; [reflexivity|].
  split; [vm_compute; reflexivity|].
  split; [vm_compute; reflexivity|]. split; vm_compute; reflexivity.
Qed.

(** *** C4 *)

Lemma insert_under_unresolved_witness :
  insert_under hash_id N.eqb empty_tree 1 10 7 = None ∧
  ∃ s' ni, insert_under hash_id N.eqb empty_tree 1 10 1 = Some s' ∧
           _nodes s' !! 0 = Some ni ∧ parent_index ni = 0 ∧ childs ni = [0].
Proof.
  split.
  - edestruct (insert_under_unresolved hash_id N.eqb empty_tree 1 10 7)
      as [Hnone _]; [vm_compute; reflexivity|vm_compute; reflexivity|].
    apply Hnone. vm_compute. reflexivity.
  - edestruct (insert_under_unresolved hash_id N.eqb empty_tree 1 10 1)
      as [_ Hself]; [vm_compute; reflexivity|vm_compute; reflexivity|].
    destruct Hself as (s' & ni & H1 & H2 & _ & H4 & H5 & _);
      [vm_compute; reflexivity|].
    exists s', ni. auto.
Defined.

(** C4 fails as stated: key 1 resolves to no record of the new map, yet
    insert of key 1 with parent key 1 returns, and the map holds a
    record. *)
Lemma insert_under_absent_parent_inserts :
  lookup_succeeds hash_id N.eqb (@empty_tree N N) 1 = false ∧
  ∃ s', insert_under hash_id N.eqb empty_tree 1 10 1 = Some s' ∧
        size s' = 1%nat.
Proof.
  split; [vm_compute; reflexivity|].
  eexists. split; vm_compute; reflexivity.
Qed.

(** *** C5 *)

Lemma load_factor_after_rehash_witness :
  (∃ s', insert hash_id two_records 3 30 = Some s' ∧
         table_size s' = 2 * table_size two_records ∧
         load_factor_at_least_MIN s' ∧ load_factor_at_most_MAX s') ∧
  (∃ s', erase hash_id N.eqb nine_records 2 = Some s' ∧
         table_size s' = table_size nine_records / 2 ∧
         load_factor_at_most_MAX s').
Proof.
  split.
  - eexists. split; [vm_compute; reflexivity|].
    apply (proj1 (load_factor_after_rehash hash_id N.eqb) two_records 3 30);
      vm_compute; first [reflexivity|discriminate].
  - edestruct (proj2 (proj2 (load_factor_after_rehash hash_id N.eqb))
                 nine_records 2 1) as (H1 & _ & H3);
      [vm_compute; discriminate|vm_compute; reflexivity
      |vm_compute; discriminate|vm_compute; reflexivity
      |vm_compute; reflexivity|vm_compute; reflexivity|].
    eexists. split; [vm_compute; reflexivity|]. split; assumption.
Defined.

(** C5 fails as stated: erasing key 2 of the nine records leaves one
    record; the erase rehashes, from sixteen buckets to eight, and returns
    with a load factor of 1/8, below MIN_LOAD.  And the second insert on
    the new map does not rehash and returns with two records in two
    buckets, a load factor of 1, above MAX_LOAD. *)
Lemma load_factor_below_MIN_after_erase :
  ∃ s', erase hash_id N.eqb nine_records 2 = Some s' ∧
        table_size nine_records = 16 ∧ table_size s' = 8 ∧
        size s' = 1%nat ∧ ¬ load_factor_at_least_MIN s' ∧
        run hash_id N.eqb empty_tree [Insert 1 10; Insert 2 20]
          = Some two_records ∧
        table_size two_records = 2 ∧ size two_records = 2%nat ∧
        ¬ load_factor_at_most_MAX two_records.
Proof.
  eexists. split; [vm_compute; reflexivity|].
  split; [reflexivity|]. split; [reflexivity|]. split; [reflexivity|].
  split; [intros Hmin; vm_compute in Hmin; by apply Hmin|].
  split; [vm_compute; reflexivity|]. split; [reflexivity|].
  split; [reflexivity|].
  intros Hmax. vm_compute in Hmax. by apply Hmax.
Qed.

(** *** C6 *)

(** C6, the code at the failing input: erasing the only record, the root,
    goes through clear(), which leaves a table of no bucket; the next
    insert takes the hash modulo zero. *)
Lemma erase_root_leaves_no_bucket :
  ∃ s, run hash_id N.eqb empty_tree [Insert 1 10; Erase 1] = Some s ∧
       table_size s = 0 ∧ insert hash_id s 2 20 = None.
Proof.
  eexists. split; [vm_compute; reflexivity|]. split; reflexivity.
Qed.

(** *** C7 *)



(** *** C8 *)

Lemma traverse_breadth_first_witness :
  ∃ out, traverse demo_tree = Some out ∧
         length out = size demo_tree ∧ NoDup out.*1.
Proof.
  destruct (traverse_breadth_first demo_tree demo_tree_wf demo_tree_connected)
    as (out & H1 & H2 & H3 & _); [vm_compute; reflexivity|].
  exists out. auto.
Defined.

(** C8 fails as stated: insert of key 2 below key 2 on the map with
    the one record of key 1 returns a map of two records; the record of
    key 2 is its own parent, the root does not reach it, and the loop from
    begin() asks for the second entry of a visitation sequence that has
    one. *)
Lemma traverse_undefined_off_root :
  ∃ s, run hash_id N.eqb empty_tree [Insert 1 10; InsertUnder 2 20 2]
         = Some s ∧
       size s = 2%nat ∧ traverse s = None.
Proof.
  eexists. split; [vm_compute; reflexivity|].
  split; vm_compute; reflexivity.
Qed.

(** *** C9 *)

(** C9, the code at the failing input: [contains] calls [index] without
    the key, so its answer cannot depend on the key; on the map of the four
    records the lookup succeeds for key 1 and fails for key 7, and whatever
    one answer a test gives for both, it is wrong for one of them. *)
Lemma lookup_depends_on_key :
  ∀ answer : bool,
    ∃ key, answer ≠ lookup_succeeds hash_id N.eqb demo_tree key.
Proof.
  intros [|]; [exists 7|exists 1]; vm_compute; discriminate.
Qed.

(** *** C10 *)



(** ** The further properties on the maps of numbers *)

Lemma nine_records_tree_wf : tree_wf nine_records.
Proof.
  apply (tree_wf_run hash_id N.eqb
           [Insert 1 10; InsertUnder 2 20 1; InsertUnder 3 30 2;
            InsertUnder 4 40 2; InsertUnder 5 50 2; InsertUnder 6 60 2;
            InsertUnder 7 70 2; InsertUnder 8 80 2; InsertUnder 9 90 2]
           empty_tree).
  - apply tree_wf_empty.
  - cbn [permitted permitted_operation]. permitted_steps.
  - vm_compute. reflexivity.
Qed.


Lemma insert_then_lookup_witness :
  ∃ s' j, insert hash_id demo_tree 5 50 = Some s' ∧
          index hash_id N.eqb s' 5 = Some j ∧
          at_key hash_id N.eqb s' 5 = Some 50.
Proof.
  destruct (insert_then_lookup hash_id N.eqb demo_tree 5 50
              (proj1 demo_tree_index) (proj2 demo_tree_index))
    as [(s' & j & H1 & _ & H3 & H4 & _) _];
    [intros _; vm_compute; reflexivity|reflexivity
    |vm_compute; reflexivity|].
  exists s', j. auto.
Defined.

Lemma insert_keeps_other_keys_witness :
  ∃ s', insert hash_id two_records 3 30 = Some s' ∧
        index hash_id N.eqb s' 2 = Some 1 ∧
        at_key hash_id N.eqb s' 2 = at_key hash_id N.eqb two_records 2.
Proof.
  apply (insert_keeps_other_keys hash_id N.eqb two_records 3 30 2 1
           (proj1 two_records_index)).
  - intros _. vm_compute. reflexivity.
  - vm_compute. reflexivity.
  - vm_compute. discriminate.
  - intros x nx Hx Hk.
    assert (Hdom : x ∈ dom (_nodes two_records)).
    { apply elem_of_dom. by eexists. }
    assert (Hd : dom (_nodes two_records) = list_to_set [0; 1]).
    { vm_compute. reflexivity. }
    rewrite Hd in Hdom. apply elem_of_list_to_set in Hdom.
    repeat (apply elem_of_cons in Hdom as [->|Hdom]).
    + vm_compute in Hx. injection Hx as <-. vm_compute in Hk.
      discriminate.
    + reflexivity.
    + apply elem_of_nil in Hdom. destruct Hdom.
Defined.


Lemma traversal_after_inserts_and_erases_witness :
  ∃ s' out,
    run hash_id N.eqb empty_tree
      [Insert 1 10; Insert 2 20; InsertUnder 3 30 2; Insert 4 40; Erase 2]
      = Some s' ∧
    connected s' ∧ traverse s' = Some out ∧ length out = size s'.
Proof.
  edestruct (traversal_after_inserts_and_erases hash_id N.eqb
               [Insert 1 10; Insert 2 20; InsertUnder 3 30 2; Insert 4 40;
                Erase 2])
    as (H1 & out & H2 & H3 & _).
  - repeat constructor.
  - vm_compute. reflexivity.
  - vm_compute. reflexivity.
  - eexists _, out. split; [vm_compute; reflexivity|].
    split; [exact H1|]. split; [exact H2|exact H3].
Defined.

Lemma traverse_needs_connected_witness :
  is_Some (traverse demo_tree) ↔ connected demo_tree.
Proof.
  apply (traverse_needs_connected demo_tree demo_tree_wf).
  vm_compute. reflexivity.
Defined.



Lemma set_parent_below_itself_witness :
  ∃ s', set_parent hash_id N.eqb demo_tree 2 3 = Some s' ∧
        size s' = size demo_tree ∧ is_Some (_nodes s' !! 1) ∧
        ¬ reach (_nodes s') (_head_index s') 1 ∧ traverse s' = None.
Proof.
  eapply (set_parent_below_itself hash_id N.eqb demo_tree 2 3 1 2).
  - apply demo_tree_wf.
  - vm_compute. reflexivity.
  - vm_compute. discriminate.
  - vm_compute. reflexivity.
  - vm_compute. reflexivity.
  - apply rtc_once. eexists. split; [vm_compute; reflexivity|].
    simpl. set_solver.
  - vm_compute. discriminate.
  - vm_compute. reflexivity.
Defined.

Lemma erase_then_lookup_undefined_witness :
  ∃ s', erase hash_id N.eqb demo_tree 3 = Some s' ∧
        index hash_id N.eqb s' 3 = None ∧
        at_key hash_id N.eqb s' 3 = None.
Proof.
  eexists. split; [vm_compute; reflexivity|].
  edestruct (erase_then_lookup_undefined hash_id N.eqb demo_tree 3 2)
    as (H1 & H2 & _).
  - vm_compute. reflexivity.
  - vm_compute. discriminate.
  - vm_compute. discriminate.
  - vm_compute. reflexivity.
  - vm_compute. reflexivity.
  - split; [exact H1|exact H2].
Defined.

Lemma erase_then_insert_corrupts_witness :
  ∃ s' s'' nj, erase hash_id N.eqb demo_tree 3 = Some s' ∧
               insert hash_id s' 3 33 = Some s'' ∧
               _nodes s'' !! 2 = Some nj ∧ next_index nj = 2 ∧
               index hash_id N.eqb s'' 7 = None.
Proof.
  edestruct (erase_then_insert_corrupts hash_id N.eqb demo_tree 3 33 2)
    as [Hnone|(s'' & j & nj & H1 & H2 & H3 & _ & H5)].
  - vm_compute. reflexivity.
  - vm_compute. discriminate.
  - vm_compute. discriminate.
  - vm_compute. reflexivity.
  - vm_compute. reflexivity.
  - vm_compute. reflexivity.
  - vm_compute in Hnone. discriminate.
  - vm_compute in H1. injection H1 as <-.
    assert (Hj : j = 2).
    { destruct (decide (j = 2)) as [|Hne]; [done|]. exfalso.
      assert (Hd : j ∈ (list_to_set [0; 1; 2; 3] : gset N)).
      { apply elem_of_dom_2 in H3. revert H3.
        vm_compute (dom _). intros H3. exact H3. }
      apply elem_of_list_to_set in Hd.
      repeat (apply elem_of_cons in Hd as [->|Hd]).
      - vm_compute in H2. discriminate.
      - vm_compute in H2. discriminate.
      - done.
      - vm_compute in H2. discriminate.
      - apply elem_of_nil in Hd. destruct Hd. }
    rewrite Hj in H3, H5.
    eexists _, _, nj. split; [vm_compute; reflexivity|].
    split; [vm_compute; reflexivity|]. split; [exact H3|].
    split; [exact H5|]. vm_compute. reflexivity.
Defined.

Lemma erase_absent_key_witness :
  erase hash_id N.eqb demo_tree 7 = None ∧
  erase hash_id N.eqb (@empty_tree N N) 7 = Some (clear empty_tree).
Proof.
  split.
  - apply (erase_absent_key hash_id N.eqb demo_tree 7);
      [vm_compute; reflexivity|vm_compute; reflexivity
      |vm_compute; discriminate].
  - apply (erase_absent_key hash_id N.eqb empty_tree 7);
      vm_compute; reflexivity.
Defined.


Lemma erase_keeps_buckets_witness :
  ∃ s', erase hash_id N.eqb nine_records 2 = Some s' ∧
        is_Some (_nodes s' !! _head_index nine_records) ∧
        (table_size s' = table_size nine_records ∨
         table_size s' = table_size nine_records / 2 ∧ 3 ≤ table_size s').
Proof.
  eexists. split; [vm_compute; reflexivity|].
  edestruct (erase_keeps_buckets hash_id N.eqb nine_records 2 1)
    as (_ & H2 & H3).
  - apply nine_records_tree_wf.
  - vm_compute. reflexivity.
  - vm_compute. discriminate.
  - vm_compute. reflexivity.
  - split; [exact H2|exact H3].
Defined.

Lemma erase_with_shrink_reindexes_witness :
  ∃ s', erase hash_id N.eqb nine_records 2 = Some s' ∧ wf s' ∧ indexed s'.
Proof.
  eexists. split; [vm_compute; reflexivity|].
  eapply (erase_with_shrink_reindexes hash_id N.eqb nine_records 2 1).
  - apply nine_records_tree_wf.
  - vm_compute. reflexivity.
  - vm_compute. discriminate.
  - vm_compute. reflexivity.
  - vm_compute. discriminate.
Defined.

Lemma insert_then_erase_restores_witness :
  ∃ s1 s2, insert hash_id demo_tree 5 50 = Some s1 ∧
           erase hash_id N.eqb s1 5 = Some s2 ∧
           unlinked (_nodes s2) = unlinked (_nodes demo_tree) ∧
           _head_index s2 = _head_index demo_tree ∧
           size s2 = size demo_tree.
Proof.
  apply (insert_then_erase_restores hash_id N.eqb demo_tree 5 50
           (proj1 demo_tree_index) (proj2 demo_tree_index)).
  - intros _. vm_compute. reflexivity.
  - reflexivity.
  - vm_compute. reflexivity.
Defined.

Lemma subscript_inserts_default_witness :
  subscript hash_id N.eqb demo_tree 3 0 = Some (30, demo_tree) ∧
  ∃ s', subscript hash_id N.eqb demo_tree 5 0 = Some (0, s') ∧
        size s' = S (size demo_tree).
Proof.
  destruct (subscript_inserts_default hash_id N.eqb demo_tree 3 0)
    as [Hfound _].
  destruct (subscript_inserts_default hash_id N.eqb demo_tree 5 0)
    as [_ Habsent].
  split.
  - assert (Hnd : ∃ nd, _nodes demo_tree !! 2 = Some nd ∧
                        snd (pair nd) = 30).
    { eexists. split; vm_compute; reflexivity. }
    destruct Hnd as (nd & Hnd & Hv). rewrite <- Hv.
    apply (Hfound 2 nd);
      [vm_compute; reflexivity|vm_compute; discriminate|exact Hnd].
  - destruct Habsent as (s' & _ & H2 & H3 & _);
      [apply demo_tree_index|apply demo_tree_index
      |intros _; vm_compute; reflexivity|reflexivity
      |vm_compute; reflexivity|].
    exists s'. auto.
Defined.

Lemma rehash_rebuilds_index_witness :
  ∃ s', rehash demo_tree 8 = Some s' ∧ table_size s' = 8 ∧
        unlinked (_nodes s') = unlinked (_nodes demo_tree) ∧
        chains_ok s' ∧ indexed s'.
Proof.
  destruct (rehash_rebuilds_index demo_tree 8) as [Hre _];
    [vm_compute; reflexivity|].
  destruct Hre as (s' & H1 & H2 & _ & H4 & H5 & H6); [discriminate|].
  exists s'. auto.
Defined.

Lemma insert_under_appends_witness :
  ∃ s' j nj pn',
    insert_under hash_id N.eqb one_record 2 20 1 = Some s' ∧
    _nodes s' !! j = Some nj ∧ pair nj = (2, 20) ∧ parent_index nj = 0 ∧
    _nodes s' !! 0 = Some pn' ∧ childs pn' = [j].
Proof.
  destruct (insert_under_appends hash_id N.eqb one_record 2 20 1 0
              one_record_wf)
    as (s' & j & p' & pn & nj & pn' & H1 & _ & H3 & _ & H5 & H6 & H7 & H8
        & _ & H10 & _ & H12 & _);
    [intros _; vm_compute; reflexivity|vm_compute; reflexivity
    |vm_compute; discriminate|].
  assert (Hp' : p' = 0) by (apply H5; vm_compute; reflexivity).
  rewrite Hp' in H3, H8, H10.
  vm_compute in H3. injection H3 as <-. simpl in H12.
  exists s', j, nj, pn'.
  split; [exact H1|]. split; [exact H6|]. split; [exact H7|].
  split; [exact H8|]. split; [exact H10|exact H12].
Defined.

Lemma links_agree_invariant_witness :
  ∃ s', run hash_id N.eqb empty_tree
          [Insert 1 10; Insert 2 20; InsertUnder 3 30 2; SetParent 3 1;
           Erase 2] = Some s' ∧
        ∀ i nd c, _nodes s' !! i = Some nd → c ∈ childs nd →
          ∃ cn, _nodes s' !! c = Some cn ∧ parent_index cn = i.
Proof.
  eexists. split; [vm_compute; reflexivity|].
  eapply (links_agree_invariant hash_id N.eqb
            [Insert 1 10; Insert 2 20; InsertUnder 3 30 2; SetParent 3 1;
             Erase 2]).
  - cbn [permitted permitted_operation]. permitted_steps.
  - vm_compute. reflexivity.
Defined.

Lemma inserts_never_undefined_witness :
  ∃ s', run hash_id N.eqb empty_tree
          [Insert 1 10; Insert 2 20; Insert 3 30] = Some s' ∧
        size s' = 3%nat ∧ wf s' ∧ indexed s' ∧ connected s' ∧
        lookup_succeeds hash_id N.eqb s' 2 = true.
Proof.
  destruct (inserts_never_undefined hash_id N.eqb [(1, 10); (2, 20); (3, 30)])
    as (s' & H1 & H2 & H3 & H4 & H5 & H6); [vm_compute; reflexivity|].
  exists s'. split_and!; [exact H1|exact H2|exact H3|exact H4|exact H5|].
  apply (H6 N.eqb_refl (2, 20)).
  apply elem_of_cons. right. apply elem_of_cons. by left.
Defined.
